(** * isekaiz.py: the task scheduler and the controller's state entry point

    A shallow embedding of [bot/task_manager.py] (Task, TaskManager) and of
    [Controller.update_state] from [bot/controller.py], with the properties
    of the scheduling core stated over it; then of the event manager, of
    the controller's timers and handlers, of the player and of the
    configuration.

    Conventions of the embedding.
    - Python [int] is [Z]. Python [float] is an IEEE 754 binary64 number,
      here [float]: the [spec_float] of the Standard Library at precision
      53 and maximal exponent 1024, with its infinities, its NaN and
      round-to-nearest-even. A sum of an [int] and a [float] converts the
      [int] first, and [int / int] is the correctly rounded quotient; both
      raise [OverflowError] when the result is too large for a [float].
      The [float]s the code is given (clock readings, [expire_at]) are
      numbers of that format: [valid_binary] holds of them.
    - A [Task] is a mutable object: the queue holds references ([ref]) into
      an object store ([Heap]), and [task.rank -= 1], [task.retry += 1]
      update the store. The same object may sit in the queue twice.
    - The dict [_task_type_counter] is a [gmap TaskType Z]; [d.get(k, v)]
      is [default v (d !! k)].
    - What the outside world decides during one call of
      [check_and_execute] (clock readings, the random jitter, whether the
      awaited action or the completion callback raises) is an [Env].
      What other coroutines do while the cycle is suspended at an [await]
      is an [Interference]: a list of calls per suspension point.
    - Every function also returns the list of observable [Event]s it
      produced (log records, sleeps, the awaited action, the callback).
    - An exception that leaves [_execute_next], and with it
      [check_and_execute], is the last event of the trace of that call,
      [Raise]: the [ValueError] of [random.randint] on a negative
      [task_bias], the [OverflowError] of the pacing arithmetic. The
      manager it returns is the one the [finally] clause and the release
      of the lock leave behind.
    - An awaited action or callback returns or raises an [Exception];
      cancellation of the coroutine and other [BaseException]s are outside
      the model. A clock reading is a finite [float] far below the largest
      one, as those of [time.time()] are, so no sleep is without end. *)

From Stdlib Require Import ZArith Lia String SpecFloat.
From stdpp Require Import base decidable countable gmap list sorting.

Local Open Scope Z_scope.

(** ** Floating-point numbers *)

Definition float := spec_float.

Module Float.

Definition prec : Z := 53.
Definition emax : Z := 1024.

(** The [float] nearest to an integer, ties to even; an infinity when
    there is none. *)
Definition of_Z (n : Z) : float := binary_normalize prec emax n 0 false.

(** [None] stands for [OverflowError]. *)
Definition finite_or_raise (x : float) : option float :=
  match x with
  | S754_infinity _ => None
  | _ => Some x
  end.

(** The conversion of an [int] operand, as in [x + n] and [n - x]. *)
Definition of_int (n : Z) : option float := finite_or_raise (of_Z n).

(** [a / b] on two [int]s, [b] not 0. *)
Definition int_truediv (a b : Z) : option float :=
  match a, b with
  | _, Z0 => None
  | Z0, _ => Some (S754_zero (b <? 0))
  | _, _ =>
      let '(mz, ez, lz) :=
        SFdiv_core_binary prec emax (Z.abs a) 0 (Z.abs b) 0 in
      finite_or_raise
        (binary_round_aux prec emax (xorb (a <? 0) (b <? 0)) mz ez lz)
  end.

Definition zero : float := S754_zero false.
Definition add : float -> float -> float := SFadd prec emax.
Definition sub : float -> float -> float := SFsub prec emax.
Definition div : float -> float -> float := SFdiv prec emax.

(** [x < y] on two [float]s. *)
Definition ltb : float -> float -> bool := SFltb.

(** [x < n] on a [float] and an [int]: Python compares the two exactly. *)
Definition ltb_int (x : float) (n : Z) : bool :=
  match x with
  | S754_nan => false
  | S754_infinity s => s
  | S754_zero _ => 0 <? n
  | S754_finite s m e =>
      let v := if s then Z.neg m else Z.pos m in
      if 0 <=? e then v * 2 ^ e <? n else v <? n * 2 ^ (- e)
  end.

End Float.

(** ** Task types and their settings *)

Inductive TaskType :=
  | VERIFY | EVB | EVP | TREASURE | INV | FOOD | RETAINER
  | NB | NBW | NP | NPW | CMD.

#[global] Instance TaskType_eq_dec : EqDecision TaskType.
Proof. solve_decision. Defined.

Definition TaskType_index (t : TaskType) : nat :=
  match t with
  | VERIFY => 0 | EVB => 1 | EVP => 2 | TREASURE => 3 | INV => 4
  | FOOD => 5 | RETAINER => 6 | NB => 7 | NBW => 8 | NP => 9
  | NPW => 10 | CMD => 11
  end%nat.

Definition TaskType_of_index (n : nat) : option TaskType :=
  match n with
  | 0 => Some VERIFY | 1 => Some EVB | 2 => Some EVP | 3 => Some TREASURE
  | 4 => Some INV | 5 => Some FOOD | 6 => Some RETAINER | 7 => Some NB
  | 8 => Some NBW | 9 => Some NP | 10 => Some NPW | 11 => Some CMD
  | _ => None
  end%nat.

#[global] Program Instance TaskType_countable : Countable TaskType :=
  inj_countable TaskType_index TaskType_of_index _.
Next Obligation. by intros []. Qed.

(** The [value] of each member of the [str] enum. *)
Definition TaskType_value (t : TaskType) : string :=
  match t with
  | VERIFY => "Verify" | EVB => "EmojiVerifyBattle"
  | EVP => "EmojiVerifyProfession" | TREASURE => "Treasure"
  | INV => "Inventory" | FOOD => "Food" | RETAINER => "Retainer"
  | NB => "NewBattle" | NBW => "NewBattleWindow" | NP => "NewProfession"
  | NPW => "NewProfessionWindow" | CMD => "Command"
  end%string.

Record TaskSetting := { setting_rank : Z; setting_limit : Z }.

(** [TASK_SETTINGS], in the order of the dict literal. *)
Definition TASK_SETTINGS : list (TaskType * TaskSetting) :=
  [ (VERIFY,   {| setting_rank := -999; setting_limit := 999 |});
    (CMD,      {| setting_rank := -998; setting_limit := 999 |});
    (EVB,      {| setting_rank := 2;    setting_limit := 1 |});
    (EVP,      {| setting_rank := 2;    setting_limit := 1 |});
    (TREASURE, {| setting_rank := 1;    setting_limit := 999 |});
    (INV,      {| setting_rank := 1;    setting_limit := 2 |});
    (FOOD,     {| setting_rank := 1;    setting_limit := 1 |});
    (RETAINER, {| setting_rank := 1;    setting_limit := 3 |});
    (NB,       {| setting_rank := 3;    setting_limit := 1 |});
    (NP,       {| setting_rank := 3;    setting_limit := 1 |});
    (NBW,      {| setting_rank := 4;    setting_limit := 1 |});
    (NPW,      {| setting_rank := 4;    setting_limit := 1 |}) ].

(** [TASK_SETTINGS.get(task_type)] *)
Fixpoint settings_get (d : list (TaskType * TaskSetting)) (k : TaskType)
  : option TaskSetting :=
  match d with
  | [] => None
  | (k', v) :: d' => if decide (k' = k) then Some v else settings_get d' k
  end.

Definition get_default_rank (task_type : TaskType) : Z :=
  match settings_get TASK_SETTINGS task_type with
  | Some setting => setting_rank setting
  | None => 5
  end.

Definition get_task_limit (task_type : TaskType) : Z :=
  match settings_get TASK_SETTINGS task_type with
  | Some setting => setting_limit setting
  | None => 1
  end.

(** ** Tasks *)

(** The awaitable behind [Task.func] is opaque; it is named by a number and
    the [Env] of a cycle says what awaiting it does. *)
Definition FuncId := nat.

Record Task := {
  func : FuncId;
  expire_at : float;
  info : string;
  tag : TaskType;
  rank : Z;
  retry : Z
}.

(** The dataclass constructor followed by [__post_init__]. The keyword
    defaults are [info = ""], [tag = CMD], [rank = 5], [retry = 0]. *)
Definition Task_new (func : FuncId) (expire_at : float) (info : string)
    (tag : TaskType) (rank : Z) (retry : Z) : Task :=
  {| func := func; expire_at := expire_at; info := info; tag := tag;
     rank := if decide (rank = 5) then get_default_rank tag else rank;
     retry := retry |}.

(** [Task.is_expired(time_now_ms)] with the argument given. *)
Definition is_expired (t : Task) (time_now_ms : float) : bool :=
  Float.ltb (expire_at t) time_now_ms.

(** [Task.__lt__] *)
Definition Task_lt (t other : Task) : bool := rank t <? rank other.

Definition set_rank (t : Task) (v : Z) : Task :=
  {| func := func t; expire_at := expire_at t; info := info t; tag := tag t;
     rank := v; retry := retry t |}.

Definition set_retry (t : Task) (v : Z) : Task :=
  {| func := func t; expire_at := expire_at t; info := info t; tag := tag t;
     rank := rank t; retry := v |}.

(** ** The object store

    Every reference denotes a task object; code that constructs a task
    holds a reference whose object is the record [Task_new] returns. *)

Definition ref := nat.
Definition Heap := ref -> Task.

Definition store (h : Heap) (r : ref) (t : Task) : Heap :=
  fun r' => if decide (r' = r) then t else h r'.

(** ** Observable events *)

Inductive Level := DEBUG | INFO | WARNING | ERROR.

(** One constructor per log call of the module; a [ref] stands for the
    task whose [info] the message prints. *)
Inductive LogMsg :=
  | TryAddTask (task : ref)                (* "Try add task: <..>" *)
  | AddFail (tag : TaskType)               (* "Add fail: task limit reached for .." *)
  | AddSuccess (task : ref)                (* "Add task success: <..>" *)
  | QueueInfo                              (* "Task queue info:" *)
  | QueueLine (rank : Z) (task : ref)      (* "> rank - info" *)
  | Checking (task : ref)                  (* "Checking task <..>" *)
  | TaskExpired (task : ref)               (* "Task expired: <..>" *)
  | TaskWillExpire (task : ref)            (* "Task will expire before execution: <..>" *)
  | GapDelay (ms : float)                  (* "Task gap delay: ..ms" *)
  | Delaying (ms : Z) (reason : string)    (* "Delaying ..ms .." *)
  | TaskCompleted (task : ref)             (* "Task completed: <..>" *)
  | TaskFailed (task : ref)                (* "Task failed: <..> - .." *)
  | Retrying (attempt : Z) (task : ref)    (* "Retrying task (attempt ..): <..>" *)
  | QueueCleared                           (* "Task queue cleared" *)
  | Removed (n : Z) (tag : TaskType).      (* "Removed .. tasks of type .." *)

(** The value an action returns, forwarded to the completion callback. *)
Definition Result := nat.

(** The exceptions that leave [_execute_next]. *)
Inductive Exc := ValueError | OverflowError.

Inductive Event :=
  | Log (lvl : Level) (msg : LogMsg)
  | Sleep (seconds : float)                (* await asyncio.sleep(seconds) *)
  | Invoke (task : ref)                    (* await task.func() *)
  | Callback (result : Result)             (* self._callback(result) *)
  | Raise (exc : Exc).                     (* the call ends by raising *)

(** ** The manager *)

Record TaskManager := {
  _queue : list ref;
  _task_type_counter : gmap TaskType Z;
  _last_execute_at : float;
  _gap : Z;
  _bias : Z;
  _retry_count : Z;
  _callback : bool;                        (* is [on_task_complete] set *)
  _lock : bool;                            (* [self._lock.locked()] *)
  _running : bool
}.

(** [TaskManager.__init__]; the defaults are 2000, 3000 and 2.
    [_last_execute_at] starts as the [int] 0, which the two expressions
    that read it, [_last_execute_at + _gap + ..] and
    [time_now_ms - _last_execute_at], evaluate as they do the [float] 0. *)
Definition TaskManager_init (on_task_complete : bool)
    (task_gap task_bias retry_count : Z) : TaskManager :=
  {| _queue := []; _task_type_counter := ∅; _last_execute_at := Float.zero;
     _gap := task_gap; _bias := task_bias; _retry_count := retry_count;
     _callback := on_task_complete; _lock := false; _running := false |}.

Definition set_queue (m : TaskManager) (q : list ref) : TaskManager :=
  {| _queue := q; _task_type_counter := _task_type_counter m;
     _last_execute_at := _last_execute_at m; _gap := _gap m;
     _bias := _bias m; _retry_count := _retry_count m;
     _callback := _callback m; _lock := _lock m; _running := _running m |}.

Definition set_counter (m : TaskManager) (d : gmap TaskType Z) : TaskManager :=
  {| _queue := _queue m; _task_type_counter := d;
     _last_execute_at := _last_execute_at m; _gap := _gap m;
     _bias := _bias m; _retry_count := _retry_count m;
     _callback := _callback m; _lock := _lock m; _running := _running m |}.

Definition set_last_execute_at (m : TaskManager) (t : float) : TaskManager :=
  {| _queue := _queue m; _task_type_counter := _task_type_counter m;
     _last_execute_at := t; _gap := _gap m;
     _bias := _bias m; _retry_count := _retry_count m;
     _callback := _callback m; _lock := _lock m; _running := _running m |}.

Definition set_lock (m : TaskManager) (b : bool) : TaskManager :=
  {| _queue := _queue m; _task_type_counter := _task_type_counter m;
     _last_execute_at := _last_execute_at m; _gap := _gap m;
     _bias := _bias m; _retry_count := _retry_count m;
     _callback := _callback m; _lock := b; _running := _running m |}.

Definition set_running (m : TaskManager) (b : bool) : TaskManager :=
  {| _queue := _queue m; _task_type_counter := _task_type_counter m;
     _last_execute_at := _last_execute_at m; _gap := _gap m;
     _bias := _bias m; _retry_count := _retry_count m;
     _callback := _callback m; _lock := _lock m; _running := b |}.

(** [queue_size] *)
Definition queue_size (m : TaskManager) : Z := Z.of_nat (length (_queue m)).

(** [self._task_type_counter.get(tag, dflt)] *)
Definition counter_get (m : TaskManager) (tag : TaskType) (dflt : Z) : Z :=
  default dflt (_task_type_counter m !! tag).

(** [add_task]: the new manager, the returned bool and the log. *)
Definition add_task (h : Heap) (m : TaskManager) (task : ref)
  : TaskManager * bool * list Event :=
  let current_count := counter_get m (tag (h task)) 0 in
  if get_task_limit (tag (h task)) <=? current_count then
    (m, false,
     [Log INFO (TryAddTask task); Log WARNING (AddFail (tag (h task)))])
  else
    let m := set_queue m (_queue m ++ [task]) in
    let m := set_counter m
               (<[tag (h task) := current_count + 1]> (_task_type_counter m)) in
    (m, true, [Log INFO (TryAddTask task); Log INFO (AddSuccess task)]).

(** [_priority_aging]: [for task in self._queue: task.rank -= 1]. *)
Fixpoint _priority_aging (h : Heap) (queue : list ref) : Heap :=
  match queue with
  | [] => h
  | task :: queue' =>
      _priority_aging (store h task (set_rank (h task) (rank (h task) - 1))) queue'
  end.

(** [_log_queue_status] *)
Definition _log_queue_status (h : Heap) (queue : list ref) : list Event :=
  match queue with
  | [] => []
  | _ =>
      Log DEBUG QueueInfo
      :: map (fun task => Log DEBUG (QueueLine (rank (h task)) task)) queue
  end.

(** [clear] *)
Definition clear (m : TaskManager) : TaskManager * list Event :=
  let m := set_queue m [] in
  let m := set_counter m ∅ in
  (m, [Log INFO QueueCleared]).

(** [remove_by_type]: the new manager, the number removed and the log. *)
Definition remove_by_type (h : Heap) (m : TaskManager) (task_type : TaskType)
  : TaskManager * Z * list Event :=
  let initial_count := Z.of_nat (length (_queue m)) in
  let m := set_queue m
             (filter (fun t => tag (h t) ≠ task_type) (_queue m)) in
  let removed := initial_count - Z.of_nat (length (_queue m)) in
  let m := set_counter m (<[task_type := 0]> (_task_type_counter m)) in
  (m, removed, [Log INFO (Removed removed task_type)]).

(** ** Sorting the queue

    [self._queue.sort()] is [list.sort]: a stable sort that compares
    elements with [__lt__] only. On a strict weak order the result of a
    stable sort is unique, so it is modelled by the insertion sort CPython
    runs on short lists: each element, from left to right, is placed after
    every element of the sorted prefix that is not greater than it. *)

Fixpoint insert (h : Heap) (task : ref) (sorted : list ref) : list ref :=
  match sorted with
  | [] => [task]
  | x :: rest =>
      if Task_lt (h task) (h x) then task :: x :: rest
      else x :: insert h task rest
  end.

Definition sort_onto (h : Heap) (sorted queue : list ref) : list ref :=
  fold_left (fun acc task => insert h task acc) queue sorted.

Definition sort (h : Heap) (queue : list ref) : list ref :=
  sort_onto h [] queue.

(** ** The environment of one cycle *)

(** What awaiting [task.func()] does. *)
Inductive Outcome :=
  | Returns (result : Result)
  | Raises.

(** What [self._callback(result)] does: a plain function returns or
    raises at the call; an [async def] returns a coroutine, which is then
    awaited and finishes or raises. *)
Inductive CallbackOutcome :=
  | CbReturns
  | CbRaises
  | CbCoroutine (raises : bool).

Record Env := {
  time_ms : nat -> float;       (* the values of [time.time() * 1000] *)
  randint : Z -> Z -> Z;        (* the draws of the random generator *)
  await_func : FuncId -> Outcome;
  call_callback : Result -> CallbackOutcome
}.

(** [random.randint(a, b)]: a draw in the range from [a] to [b], or
    [None] for the [ValueError] raised when the range is empty. *)
Definition random_randint (e : Env) (a b : Z) : option Z :=
  if b <? a then None else Some (a + randint e a b mod (b - a + 1)).

(** The points at which [_execute_next] may be suspended. *)
Inductive AwaitPoint := AtGapSleep | AtBiasDelay | AtFunc | AtCallback.

(** A call made on the manager by another coroutine. *)
Inductive Call :=
  | CallAddTask (task : ref)
  | CallClear
  | CallRemoveByType (task_type : TaskType)
  | CallCheckAndExecute (e : Env).

Definition Interference := AwaitPoint -> list Call.

Definition undisturbed : Interference := fun _ => [].

Section Cycle.

(** Another invocation of [check_and_execute], made while this one is
    suspended. *)
Variable reenter : Env -> Heap -> TaskManager -> Heap * TaskManager * list Event.

Definition call (c : Call) (h : Heap) (m : TaskManager)
  : Heap * TaskManager * list Event :=
  match c with
  | CallAddTask task => let '(m, _, tr) := add_task h m task in (h, m, tr)
  | CallClear => let '(m, tr) := clear m in (h, m, tr)
  | CallRemoveByType task_type =>
      let '(m, _, tr) := remove_by_type h m task_type in (h, m, tr)
  | CallCheckAndExecute e => reenter e h m
  end.

(** The calls that run while the cycle is suspended, in order. *)
Fixpoint meanwhile (cs : list Call) (h : Heap) (m : TaskManager)
  : Heap * TaskManager * list Event :=
  match cs with
  | [] => (h, m, [])
  | c :: cs' =>
      let '(h, m, tr1) := call c h m in
      let '(h, m, tr2) := meanwhile cs' h m in
      (h, m, tr1 ++ tr2)
  end.

(** [await asyncio.sleep(seconds)] at suspension point [p]. *)
Definition sleep (iv : Interference) (p : AwaitPoint) (seconds : float)
    (h : Heap) (m : TaskManager) : Heap * TaskManager * list Event :=
  let '(h, m, tr) := meanwhile (iv p) h m in
  (h, m, Sleep seconds :: tr).

(** [_delay(min_ms, max_delta_ms, reason)]; the last component is the
    exception it raises, if any. *)
Definition _delay (e : Env) (iv : Interference) (min_ms max_delta_ms : Z)
    (reason : string) (h : Heap) (m : TaskManager)
  : Heap * TaskManager * list Event * option Exc :=
  match random_randint e 0 max_delta_ms with
  | None => (h, m, [], Some ValueError)
  | Some n =>
      let delay_ms := min_ms + n in
      if 0 <? delay_ms then
        match Float.int_truediv delay_ms 1000 with
        | None =>
            (h, m, [Log DEBUG (Delaying delay_ms reason)], Some OverflowError)
        | Some seconds =>
            let '(h, m, tr) := sleep iv AtBiasDelay seconds h m in
            (h, m, Log DEBUG (Delaying delay_ms reason) :: tr, None)
        end
      else (h, m, [], None)
  end.

(** The [except Exception] handler of [_execute_next]. *)
Definition on_exception (h : Heap) (m : TaskManager) (task : ref)
  : Heap * TaskManager * list Event :=
  if retry (h task) <? _retry_count m then
    let h := store h task (set_retry (h task) (retry (h task) + 1)) in
    let '(m, _, tr) := add_task h m task in
    (h, m, Log ERROR (TaskFailed task)
           :: Log INFO (Retrying (retry (h task) + 1) task) :: tr)
  else (h, m, [Log ERROR (TaskFailed task)]).

(** The [try] statement of [_execute_next]; [k] is the number of clock
    readings made so far in this cycle. *)
Definition execute_task (e : Env) (iv : Interference) (k : nat)
    (h : Heap) (m : TaskManager) (task : ref)
  : Heap * TaskManager * list Event :=
  let '(h, m, tr_func) := meanwhile (iv AtFunc) h m in
  match await_func e (func (h task)) with
  | Returns result =>
      let m := set_last_execute_at m (time_ms e k) in
      if _callback m then
        match call_callback e result with
        | CbReturns =>
            (h, m, Invoke task :: tr_func
                   ++ [Callback result; Log INFO (TaskCompleted task)])
        | CbRaises =>
            let '(h, m, tr) := on_exception h m task in
            (h, m, Invoke task :: tr_func ++ Callback result :: tr)
        | CbCoroutine raises =>
            let '(h, m, tr_cb) := meanwhile (iv AtCallback) h m in
            if raises then
              let '(h, m, tr) := on_exception h m task in
              (h, m, Invoke task :: tr_func ++ Callback result :: tr_cb ++ tr)
            else
              (h, m, Invoke task :: tr_func ++ Callback result :: tr_cb
                     ++ [Log INFO (TaskCompleted task)])
        end
      else (h, m, Invoke task :: tr_func ++ [Log INFO (TaskCompleted task)])
  | Raises =>
      let '(h, m, tr) := on_exception h m task in
      (h, m, Invoke task :: tr_func ++ tr)
  end.

(** The gap delay of the loop body: [time_since_last] is a [float],
    [_gap] an [int]. *)
Definition gap_sleep (iv : Interference) (time_now_ms : float)
    (h : Heap) (m : TaskManager)
  : Heap * TaskManager * list Event * option Exc :=
  let time_since_last := Float.sub time_now_ms (_last_execute_at m) in
  if Float.ltb_int time_since_last (_gap m) then
    match Float.of_int (_gap m) with
    | None => (h, m, [], Some OverflowError)
    | Some gap =>
        let gap_delay := Float.sub gap time_since_last in
        let '(h, m, tr) :=
          sleep iv AtGapSleep (Float.div gap_delay (Float.of_Z 1000)) h m in
        (h, m, Log DEBUG (GapDelay gap_delay) :: tr, None)
    end
  else (h, m, [], None).

(** The part of the loop body after the two expiry checks: the pacing
    sleeps and the [try] statement. *)
Definition pace_and_execute (e : Env) (iv : Interference) (k : nat)
    (time_now_ms : float) (h : Heap) (m : TaskManager) (task : ref)
  : Heap * TaskManager * list Event :=
  match gap_sleep iv time_now_ms h m with
  | (h, m, tr_gap, Some exc) => (h, m, tr_gap ++ [Raise exc])
  | (h, m, tr_gap, None) =>
      match _delay e iv 0 (_bias m) "(Task Bias)" h m with
      | (h, m, tr_bias, Some exc) => (h, m, tr_gap ++ tr_bias ++ [Raise exc])
      | (h, m, tr_bias, None) =>
          let '(h, m, tr_exec) := execute_task e iv k h m task in
          (h, m, tr_gap ++ tr_bias ++ tr_exec)
      end
  end.

(** [self._last_execute_at + self._gap + self._bias / 2], or [None] for
    the [OverflowError] of a gap or a bias too large for a [float]. *)
Definition expected_execute_time (m : TaskManager) : option float :=
  match Float.of_int (_gap m), Float.int_truediv (_bias m) 2 with
  | Some gap, Some half_bias =>
      Some (Float.add (Float.add (_last_execute_at m) gap) half_bias)
  | _, _ => None
  end.

(** [_execute_next]. The [while self._queue] loop runs on [fuel]; every
    iteration removes one task, so the length of the queue is enough
    fuel ([_execute_next] below). [k] counts the clock readings. *)
Fixpoint execute_loop (fuel : nat) (e : Env) (iv : Interference) (k : nat)
    (h : Heap) (m : TaskManager) : Heap * TaskManager * list Event :=
  match fuel with
  | O => (h, m, [])
  | S fuel' =>
      match _queue m with
      | [] => (h, m, [])
      | _ :: _ =>
          let m := set_queue m (sort h (_queue m)) in
          let tr_status := _log_queue_status h (_queue m) in
          let h := _priority_aging h (_queue m) in
          match _queue m with
          | [] => (h, m, tr_status)      (* [pop(0)] of an empty list *)
          | task :: rest =>
              let m := set_queue m rest in
              let m := set_counter m
                         (<[tag (h task) :=
                              Z.max 0 (counter_get m (tag (h task)) 1 - 1)]>
                            (_task_type_counter m)) in
              let tr_check := tr_status ++ [Log INFO (Checking task)] in
              let time_now_ms := time_ms e k in
              if is_expired (h task) time_now_ms then
                let '(h, m, tr) := execute_loop fuel' e iv (S k) h m in
                (h, m, tr_check ++ Log WARNING (TaskExpired task) :: tr)
              else
                match expected_execute_time m with
                | None => (h, m, tr_check ++ [Raise OverflowError])
                | Some expected_execute_time =>
                    if is_expired (h task) expected_execute_time then
                      let '(h, m, tr) := execute_loop fuel' e iv (S k) h m in
                      (h, m, tr_check
                             ++ Log WARNING (TaskWillExpire task) :: tr)
                    else
                      let '(h, m, tr) :=
                        pace_and_execute e iv (S k) time_now_ms h m task in
                      (h, m, tr_check ++ tr)
                end
          end
      end
  end.

Definition _execute_next (e : Env) (iv : Interference)
    (h : Heap) (m : TaskManager) : Heap * TaskManager * list Event :=
  execute_loop (length (_queue m)) e iv 0 h m.

(** [check_and_execute]: the lock is free when tested and is taken
    without suspending, so test and acquisition are one step. When
    [_execute_next] raises, the [finally] clause and the release of the
    lock run all the same. *)
Definition check_and_execute_with (e : Env) (iv : Interference)
    (h : Heap) (m : TaskManager) : Heap * TaskManager * list Event :=
  if _lock m then (h, m, [])
  else
    let m := set_lock m true in
    let m := set_running m true in
    let '(h, m, tr) := _execute_next e iv h m in
    let m := set_running m false in
    let m := set_lock m false in
    (h, m, tr).

End Cycle.

(** A re-entrant invocation is itself taken to run without interference. *)
Definition check_and_execute_inner (e : Env) (h : Heap) (m : TaskManager)
  : Heap * TaskManager * list Event :=
  check_and_execute_with (fun _ h m => (h, m, [])) e undisturbed h m.

(** [check_and_execute] *)
Definition check_and_execute (e : Env) (iv : Interference)
    (h : Heap) (m : TaskManager) : Heap * TaskManager * list Event :=
  check_and_execute_with check_and_execute_inner e iv h m.

(** ** Runs of the manager

    A run is a sequence of steps taken from the event loop: a call of a
    public method, or one call of [check_and_execute] from start to
    return together with what other coroutines did during its awaits. *)

Inductive Step :=
  | Do (c : Call)
  | Cycle (e : Env) (iv : Interference).

Definition step (s : Step) (h : Heap) (m : TaskManager)
  : Heap * TaskManager * list Event :=
  match s with
  | Do c => call check_and_execute_inner c h m
  | Cycle e iv => check_and_execute e iv h m
  end.

Fixpoint run (steps : list Step) (h : Heap) (m : TaskManager)
  : Heap * TaskManager * list Event :=
  match steps with
  | [] => (h, m, [])
  | s :: steps' =>
      let '(h, m, tr1) := step s h m in
      let '(h, m, tr2) := run steps' h m in
      (h, m, tr1 ++ tr2)
  end.

(** ** The controller's state entry point ([bot/controller.py]) *)

Module BotState.
Inductive t := INIT | RUNNING | DEFEATED | BLOCKED | BANNED | STOPPED.

Definition value (s : t) : string :=
  match s with
  | INIT => "init" | RUNNING => "running" | DEFEATED => "defeated"
  | BLOCKED => "blocked" | BANNED => "banned" | STOPPED => "stopped"
  end%string.
End BotState.

Module PlayerState.
Inductive t := INIT | RUNNING | DEFEATED | BLOCKED | BANNED | STOPPED.

Definition value (s : t) : string :=
  match s with
  | INIT => "init" | RUNNING => "running" | DEFEATED => "defeated"
  | BLOCKED => "blocked" | BANNED => "banned" | STOPPED => "stopped"
  end%string.

Definition members : list t := [INIT; RUNNING; DEFEATED; BLOCKED; BANNED; STOPPED].

(** [PlayerState(v)]: the member whose value is [v]; [None] stands for the
    [ValueError] raised when there is none. *)
Definition of_value (v : string) : option t :=
  List.find (fun s => String.eqb (value s) v) members.
End PlayerState.

#[global] Instance BotState_eq_dec : EqDecision BotState.t.
Proof. solve_decision. Defined.

#[global] Instance PlayerState_eq_dec : EqDecision PlayerState.t.
Proof. solve_decision. Defined.

Module Controller.

(** The fields [update_state] reads or writes: [self.player.state] and
    [self._current_state]. *)
Record t := {
  player_state : PlayerState.t;
  _current_state : option BotState.t
}.

Inductive Effect :=
  | LogCurrentPlayerState (v : string)     (* "Current player state: .." *)
  | LogChangingState (v : string)          (* "Changing state to: .." *)
  | CreateTaskEmit (state : BotState.t).   (* asyncio.create_task(self.event_manager.emit(state)) *)

(** [update_state]; the result is [None] when [PlayerState(..)] raises. *)
Definition update_state (c : t) (new_state : BotState.t)
  : option (t * list Effect) :=
  let log1 := LogCurrentPlayerState (PlayerState.value (player_state c)) in
  if decide (_current_state c ≠ Some new_state) then
    match PlayerState.of_value (BotState.value new_state) with
    | Some ps =>
        let c := {| player_state := ps; _current_state := _current_state c |} in
        let c := {| player_state := player_state c;
                    _current_state := Some new_state |} in
        Some (c, [log1; LogChangingState (BotState.value new_state);
                  CreateTaskEmit new_state])
    | None => None
    end
  else Some (c, [log1]).

End Controller.

(** ** The event manager ([bot/event_manager.py])

    [BotEventManager] keeps a list of listeners per state. The dict
    [_listeners] is created with one key per member of [BotState] and no
    key is ever added or removed, so it is a function of the state. An
    [EventCallback] is an opaque callable of type [Cb], compared by
    identity. What calling it does to the rest of the program, of state
    [W], is given by [listener]; listeners are taken not to register or
    remove listeners themselves, and a coroutine is taken to run to its end
    when awaited. *)

Module EventManager.

Record t (Cb : Type) := {
  _listeners : BotState.t -> list Cb;
  _current_state : option BotState.t
}.
Arguments _listeners {Cb} _ _.
Arguments _current_state {Cb} _.

(** A plain function runs at the call; an [async def] returns a coroutine
    at the call, and its body runs when the coroutine does. *)
Inductive Kind := Plain | Coroutine.

#[global] Instance Kind_eq_dec : EqDecision Kind.
Proof. solve_decision. Defined.

(** [body w] is the state the listener leaves and whether it raised an
    [Exception]. *)
Record Listener (W : Type) := {
  kind : Kind;
  body : W -> W * bool
}.
Arguments kind {W} _.
Arguments body {W} _ _.

Inductive Event (Cb : Type) :=
  | LogEmitting (state : BotState.t)       (* "Emitting state: .." *)
  | LogEmittingSync (state : BotState.t)   (* "Emitting state (sync): .." *)
  | Called (cb : Cb)                       (* result = callback() *)
  | Awaited (cb : Cb)                      (* await result *)
  | Scheduled (cb : Cb)                    (* asyncio.create_task(result) *)
  | LogError (state : BotState.t) (cb : Cb). (* "Error in .. callback: .." *)
Arguments LogEmitting {Cb} _.
Arguments LogEmittingSync {Cb} _.
Arguments Called {Cb} _.
Arguments Awaited {Cb} _.
Arguments Scheduled {Cb} _.
Arguments LogError {Cb} _ _.

Section WithCallbacks.
Context {Cb : Type} `{EqDecision Cb}.

(** [__init__] *)
Definition init : t Cb :=
  {| _listeners := fun _ => []; _current_state := None |}.

Definition set_listeners (m : t Cb) (state : BotState.t) (l : list Cb) : t Cb :=
  {| _listeners := fun s => if decide (s = state) then l else _listeners m s;
     _current_state := _current_state m |}.

Definition set_current_state (m : t Cb) (state : BotState.t) : t Cb :=
  {| _listeners := _listeners m; _current_state := Some state |}.

(** [on]: [self._listeners[state].append(callback)] *)
Definition on (m : t Cb) (state : BotState.t) (callback : Cb) : t Cb :=
  set_listeners m state (_listeners m state ++ [callback]).

(** [list.remove(x)] on a list that holds [x]: the first occurrence goes. *)
Fixpoint list_remove (x : Cb) (l : list Cb) : list Cb :=
  match l with
  | [] => []
  | y :: l' => if decide (y = x) then l' else y :: list_remove x l'
  end.

(** [off] *)
Definition off (m : t Cb) (state : BotState.t) (callback : Cb) : t Cb :=
  if bool_decide (callback ∈ _listeners m state) then
    set_listeners m state (list_remove callback (_listeners m state))
  else m.

(** [current_state] *)
Definition current_state (m : t Cb) : option BotState.t := _current_state m.

(** [for s in BotState], in definition order. *)
Definition states : list BotState.t :=
  [BotState.INIT; BotState.RUNNING; BotState.DEFEATED; BotState.BLOCKED;
   BotState.BANNED; BotState.STOPPED].

(** [clear_listeners] *)
Definition clear_listeners (m : t Cb) (state : option BotState.t) : t Cb :=
  match state with
  | Some state => set_listeners m state []
  | None => fold_left (fun m s => set_listeners m s []) states m
  end.

(** The callback [setup] is given for a state. *)
Definition handler_for
    (on_init on_running on_defeated on_blocked on_banned on_stopped : option Cb)
    (state : BotState.t) : option Cb :=
  match state with
  | BotState.INIT => on_init | BotState.RUNNING => on_running
  | BotState.DEFEATED => on_defeated | BotState.BLOCKED => on_blocked
  | BotState.BANNED => on_banned | BotState.STOPPED => on_stopped
  end.

(** [setup]: the dict [callbacks] is walked in insertion order. *)
Definition setup (m : t Cb)
    (on_init on_running on_defeated on_blocked on_banned on_stopped : option Cb)
  : t Cb :=
  let callbacks :=
    [ (BotState.INIT, on_init); (BotState.RUNNING, on_running);
      (BotState.DEFEATED, on_defeated); (BotState.BLOCKED, on_blocked);
      (BotState.BANNED, on_banned); (BotState.STOPPED, on_stopped) ] in
  fold_left
    (fun m '(state, callback) =>
       match callback with Some callback => on m state callback | None => m end)
    callbacks m.

Section Emit.
Context {W : Type}.
Variable listener : Cb -> Listener W.

(** The loop of [emit] over the listeners of [state]. *)
Fixpoint notify (state : BotState.t) (callbacks : list Cb) (w : W)
  : W * list (Event Cb) :=
  match callbacks with
  | [] => (w, [])
  | callback :: rest =>
      let '(w, raised) := body (listener callback) w in
      let tr_call :=
        Called callback
        :: match kind (listener callback) with
           | Coroutine => [Awaited callback]
           | Plain => []
           end
        ++ (if raised then [LogError state callback] else []) in
      let '(w, tr) := notify state rest w in
      (w, tr_call ++ tr)
  end.

(** [emit] *)
Definition emit (m : t Cb) (state : BotState.t) (w : W)
  : t Cb * W * list (Event Cb) :=
  let m := set_current_state m state in
  let '(w, tr) := notify state (_listeners m state) w in
  (m, w, LogEmitting state :: tr).

(** The loop of [emit_sync]: a coroutine is handed to the event loop and
    does not run before [emit_sync] returns. An event loop is taken to be
    running, as [asyncio.create_task] needs one. *)
Fixpoint notify_sync (state : BotState.t) (callbacks : list Cb) (w : W)
  : W * list (Event Cb) :=
  match callbacks with
  | [] => (w, [])
  | callback :: rest =>
      match kind (listener callback) with
      | Plain =>
          let '(w, raised) := body (listener callback) w in
          let '(w, tr) := notify_sync state rest w in
          (w, Called callback
              :: (if raised then [LogError state callback] else []) ++ tr)
      | Coroutine =>
          let '(w, tr) := notify_sync state rest w in
          (w, Called callback :: Scheduled callback :: tr)
      end
  end.

(** [emit_sync] *)
Definition emit_sync (m : t Cb) (state : BotState.t) (w : W)
  : t Cb * W * list (Event Cb) :=
  let m := set_current_state m state in
  let '(w, tr) := notify_sync state (_listeners m state) w in
  (m, w, LogEmittingSync state :: tr).

(** The state the bodies of a list of listeners leave, each run in the
    state the one before it left, whether that one raised or not. *)
Definition run_bodies (callbacks : list Cb) (w : W) : W :=
  fold_left (fun w cb => (body (listener cb) w).1) callbacks w.

End Emit.
End WithCallbacks.

(** The callbacks an emission called, in order. *)
Definition calls {Cb} (tr : list (Event Cb)) : list Cb :=
  omap (fun ev => match ev with Called cb => Some cb | _ => None end) tr.

(** The coroutines an emission handed to the event loop. *)
Definition scheduled {Cb} (tr : list (Event Cb)) : list Cb :=
  omap (fun ev => match ev with Scheduled cb => Some cb | _ => None end) tr.

(** The callbacks whose failure an emission logged. *)
Definition errors {Cb} (tr : list (Event Cb)) : list Cb :=
  omap (fun ev => match ev with LogError _ cb => Some cb | _ => None end) tr.

End EventManager.

(** ** Values read from JSON files

    What [json.load] returns. A dict is given by its items, in insertion
    order, with keys that differ. *)

#[local] Unset Elimination Schemes.
Inductive Json :=
  | JNull
  | JBool (b : bool)
  | JInt (n : Z)
  | JFloat (x : float)
  | JStr (s : string)
  | JList (l : list Json)
  | JDict (items : list (string * Json)).
#[local] Set Elimination Schemes.

(** The truth value of a Python object, as [if not x] tests it. *)
Definition truthy (v : Json) : bool :=
  match v with
  | JNull => false
  | JBool b => b
  | JInt n => negb (n =? 0)
  | JFloat x => match x with S754_zero _ => false | _ => true end
  | JStr s => negb (String.eqb s "")
  | JList l => match l with [] => false | _ => true end
  | JDict items => match items with [] => false | _ => true end
  end.

(** [d.get(key)] on the items of a dict. *)
Fixpoint dict_get (items : list (string * Json)) (key : string) : option Json :=
  match items with
  | [] => None
  | (k, v) :: items' => if String.eqb k key then Some v else dict_get items' key
  end.

(** [d.get(key, dflt)] *)
Definition dict_get_or (items : list (string * Json)) (key : string)
    (dflt : Json) : Json :=
  default dflt (dict_get items key).

(** The exceptions of reading and parsing a file that are neither an
    [OSError] nor a [JSONDecodeError]. *)
Inductive ReadError :=
  | UnicodeDecodeError         (* the bytes are not UTF-8 *)
  | IntegerTooLong             (* [ValueError]: too many digits *)
  | RecursionError.            (* the nesting is too deep *)

(** What a JSON file is found to be when it is opened and parsed. *)
Inductive File :=
  | Missing                    (* [path.exists()] is false *)
  | Unreadable                 (* opening or reading raises [OSError] *)
  | Malformed                  (* [json.load] raises [JSONDecodeError] *)
  | Fails (exc : ReadError)    (* reading or [json.load] raises [exc] *)
  | Parsed (v : Json).

(** ** The player ([bot/player.py]) *)

Module Player.

(** The dataclass does not check the types of its fields: they hold what
    the file held. *)
Record UserData := { last_eat_at : Json; zone_index : Json }.

(** [UserData()] *)
Definition UserData_default : UserData :=
  {| last_eat_at := JInt 0; zone_index := JInt 0 |}.

(** The result of [UserData.load]: the data, or an exception that [load]
    does not catch: the [AttributeError] of [data.get] on a value that is
    not a dict, or the exception of reading the file. *)
Inductive Loaded :=
  | Data (u : UserData)
  | AttributeError
  | Propagated (exc : ReadError).

(** [UserData.load]; only [JSONDecodeError] and [OSError] are caught. *)
Definition UserData_load (file : File) : Loaded :=
  match file with
  | Parsed (JDict data) =>
      Data {| last_eat_at := dict_get_or data "last_eat_at" (JInt 0);
              zone_index := dict_get_or data "zone_index" (JInt 0) |}
  | Parsed _ => AttributeError
  | Fails exc => Propagated exc
  | Missing | Unreadable | Malformed => Data UserData_default
  end.

(** [UserData.to_dict] *)
Definition UserData_to_dict (u : UserData) : list (string * Json) :=
  [("last_eat_at", last_eat_at u); ("zone_index", zone_index u)]%string.

(** The messages and the channel are objects of the Discord library,
    named by numbers. *)
Record t := {
  state : PlayerState.t;
  channel : option nat;
  channel_id : string;
  username : string;
  battle_msg : option nat;
  prof_msg : option nat;
  verify_img : option string;
  sell : Z;
  auto_level : bool;
  user_data : UserData
}.

Definition set_state (p : t) (s : PlayerState.t) : t :=
  {| state := s; channel := channel p; channel_id := channel_id p;
     username := username p; battle_msg := battle_msg p;
     prof_msg := prof_msg p; verify_img := verify_img p; sell := sell p;
     auto_level := auto_level p; user_data := user_data p |}.

(** [is_stopped] *)
Definition is_stopped (p : t) : bool :=
  bool_decide (state p ∈ [PlayerState.BANNED; PlayerState.DEFEATED;
                          PlayerState.STOPPED]).

(** [reset] *)
Definition reset (p : t) : t :=
  {| state := state p; channel := channel p; channel_id := channel_id p;
     username := username p; battle_msg := None; prof_msg := None;
     verify_img := None; sell := 0; auto_level := auto_level p;
     user_data := user_data p |}.

End Player.

(** ** The configuration ([bot/config.py]) *)

Module Config.

Record t := {
  token : Json;
  channel_id : Json;
  profession : Json;
  check_delay : Json;
  task_gap : Json;
  task_bias : Json;
  retry_count : Json;
  treasure_hunter : Json;
  treasure_guild : Json;
  exp_food : Json;
  captcha_model : Json;
  sell_equip : Json;
  trust_usr : Json;
  craft_channel_id : Json;
  craft_material : Json
}.

(** [Config(token, channel_id)]: the defaults of the dataclass. *)
Definition new (token channel_id : Json) : t :=
  {| token := token; channel_id := channel_id; profession := JStr "none";
     check_delay := JInt 60000; task_gap := JInt 2000; task_bias := JInt 3000;
     retry_count := JInt 2; treasure_hunter := JBool false;
     treasure_guild := JStr ""; exp_food := JStr "sushi-roll";
     captcha_model := JStr "./model/captcha.onnx";
     sell_equip := JList [JStr "F"; JStr "E"; JStr "D"];
     trust_usr := JList []; craft_channel_id := JStr "";
     craft_material := JStr "Platinum" |}.

Inductive Loaded :=
  | Loaded_config (c : t)
  | ValueError (msg : string)
  | AttributeError.            (* [data.get] on a value that is not a dict *)

(** [from_json], from the value [json.load] returned. *)
Definition from_json (parsed : Json) : Loaded :=
  match parsed with
  | JDict data =>
      if negb (truthy (dict_get_or data "token" JNull)) then
        ValueError "'token' is required in config.json"
      else if negb (truthy (dict_get_or data "channelId" JNull)) then
        ValueError "'channelId' is required in config.json"
      else
        Loaded_config
          {| token := dict_get_or data "token" JNull;
             channel_id := dict_get_or data "channelId" JNull;
             profession := dict_get_or data "profession" (JStr "none");
             check_delay := dict_get_or data "checkDelay" (JInt 60000);
             task_gap := dict_get_or data "taskGap" (JInt 2000);
             task_bias := dict_get_or data "taskBias" (JInt 3000);
             retry_count := dict_get_or data "retryCount" (JInt 2);
             treasure_hunter := dict_get_or data "treasureHunter" (JBool false);
             treasure_guild := dict_get_or data "treasureGuild" (JStr "");
             exp_food := dict_get_or data "expFood" (JStr "sushi-roll");
             captcha_model :=
               dict_get_or data "captchaModel" (JStr "./model/captcha.onnx");
             sell_equip :=
               dict_get_or data "sellEquip" (JList [JStr "F"; JStr "E"; JStr "D"]);
             trust_usr := dict_get_or data "trustUsr" (JList []);
             craft_channel_id := dict_get_or data "craftChannelId" (JStr "");
             craft_material := dict_get_or data "craftMaterial" (JStr "Platinum") |}
  | _ => AttributeError
  end.

(** [to_dict] *)
Definition to_dict (c : t) : list (string * Json) :=
  [ ("token", token c); ("channelId", channel_id c);
    ("profession", profession c); ("checkDelay", check_delay c);
    ("taskGap", task_gap c); ("taskBias", task_bias c);
    ("retryCount", retry_count c); ("treasureHunter", treasure_hunter c);
    ("treasureGuild", treasure_guild c); ("expFood", exp_food c);
    ("captchaModel", captcha_model c); ("sellEquip", sell_equip c);
    ("trustUsr", trust_usr c); ("craftChannelId", craft_channel_id c);
    ("craftMaterial", craft_material c) ]%string.

End Config.

(** ** The controller and what it owns ([bot/controller.py])

    [Controller] holds the player, the task manager, the event manager and
    its timers; its handlers are the listeners of the event manager. The
    state below is the controller with these objects and with the part of
    the event loop it uses: the timer tasks that sleep and the [emit]
    tasks that wait to run. A timer task is [_timer_wrapper(key, callback)];
    at every place that creates one the callback is the recursion of the
    key, so a sleeping timer is recorded with its key. Each module logs
    through a logger of its own; the state keeps the records per logger.
    [start], [stop] and [_check_loop] cancel or are cancelled inside a
    cycle of the task manager and are not part of this model. *)

Module Bot.

Definition Timer := nat.

(** The bound methods given to [event_manager.setup]. *)
Inductive Handler :=
  | OnInit | OnRunning | OnDefeat | OnBlocked | OnBan | OnStopped.

#[global] Instance Handler_eq_dec : EqDecision Handler.
Proof. solve_decision. Defined.

(** What an action returned, as [_task_complete_callback] reads it: not a
    dict, or a dict with what [result.get("state")] gives, [None] for a
    missing key or a falsy value. A truthy value is taken to be a member
    of [BotState]. *)
Inductive TaskResult := NotADict | Dict (state : option BotState.t).

Record t := {
  player : Player.t;                               (* [self.player] *)
  profession : string;                             (* [self.config.profession] *)
  heap : Heap;                                     (* the [Task] objects *)
  next_ref : ref;                                  (* the next [Task] object *)
  clock : nat;                                     (* readings of [time.time()] so far *)
  task_manager : TaskManager;                      (* [self.task_manager] *)
  manager_log : list Event;                        (* records of its logger *)
  event_manager : EventManager.t Handler;          (* [self.event_manager] *)
  events_log : list (EventManager.Event Handler);  (* records of its logger *)
  _current_state : option BotState.t;              (* [self._current_state] *)
  effects : list Controller.Effect;                (* what [update_state] did *)
  _timers : gmap string Timer;                     (* [self._timers] *)
  next_timer : Timer;                              (* the next timer task *)
  sleeping : gmap Timer string;                    (* timer tasks that sleep *)
  emits : list BotState.t                          (* [emit] tasks not yet run *)
}.

Definition set_player (b : t) (p : Player.t) : t :=
  {| player := p; profession := profession b; heap := heap b;
     next_ref := next_ref b; clock := clock b;
     task_manager := task_manager b; manager_log := manager_log b;
     event_manager := event_manager b; events_log := events_log b;
     _current_state := _current_state b; effects := effects b;
     _timers := _timers b; next_timer := next_timer b;
     sleeping := sleeping b; emits := emits b |}.

(** A new [Task] object. *)
Definition set_heap (b : t) (h : Heap) : t :=
  {| player := player b; profession := profession b; heap := h;
     next_ref := S (next_ref b); clock := clock b;
     task_manager := task_manager b; manager_log := manager_log b;
     event_manager := event_manager b; events_log := events_log b;
     _current_state := _current_state b; effects := effects b;
     _timers := _timers b; next_timer := next_timer b;
     sleeping := sleeping b; emits := emits b |}.

(** One more reading of the clock. *)
Definition tick (b : t) : t :=
  {| player := player b; profession := profession b; heap := heap b;
     next_ref := next_ref b; clock := S (clock b);
     task_manager := task_manager b; manager_log := manager_log b;
     event_manager := event_manager b; events_log := events_log b;
     _current_state := _current_state b; effects := effects b;
     _timers := _timers b; next_timer := next_timer b;
     sleeping := sleeping b; emits := emits b |}.

Definition set_task_manager (b : t) (m : TaskManager) (tr : list Event) : t :=
  {| player := player b; profession := profession b; heap := heap b;
     next_ref := next_ref b; clock := clock b; task_manager := m;
     manager_log := manager_log b ++ tr; event_manager := event_manager b;
     events_log := events_log b; _current_state := _current_state b;
     effects := effects b; _timers := _timers b;
     next_timer := next_timer b; sleeping := sleeping b; emits := emits b |}.

Definition set_event_manager (b : t) (m : EventManager.t Handler)
  (tr : list (EventManager.Event Handler)) : t :=
  {| player := player b; profession := profession b; heap := heap b;
     next_ref := next_ref b; clock := clock b;
     task_manager := task_manager b; manager_log := manager_log b;
     event_manager := m; events_log := events_log b ++ tr;
     _current_state := _current_state b; effects := effects b;
     _timers := _timers b; next_timer := next_timer b;
     sleeping := sleeping b; emits := emits b |}.

Definition set_current_state (b : t) (s : BotState.t) : t :=
  {| player := player b; profession := profession b; heap := heap b;
     next_ref := next_ref b; clock := clock b;
     task_manager := task_manager b; manager_log := manager_log b;
     event_manager := event_manager b; events_log := events_log b;
     _current_state := Some s; effects := effects b;
     _timers := _timers b; next_timer := next_timer b;
     sleeping := sleeping b; emits := emits b |}.

Definition log (b : t) (effs : list Controller.Effect) : t :=
  {| player := player b; profession := profession b; heap := heap b;
     next_ref := next_ref b; clock := clock b;
     task_manager := task_manager b; manager_log := manager_log b;
     event_manager := event_manager b; events_log := events_log b;
     _current_state := _current_state b;
     effects := effects b ++ effs; _timers := _timers b;
     next_timer := next_timer b; sleeping := sleeping b; emits := emits b |}.

Definition set_timers (b : t) (d : gmap string Timer) (s : gmap Timer string)
  : t :=
  {| player := player b; profession := profession b; heap := heap b;
     next_ref := next_ref b; clock := clock b;
     task_manager := task_manager b; manager_log := manager_log b;
     event_manager := event_manager b; events_log := events_log b;
     _current_state := _current_state b; effects := effects b;
     _timers := d; next_timer := next_timer b; sleeping := s;
     emits := emits b |}.

Definition set_next_timer (b : t) (n : Timer) : t :=
  {| player := player b; profession := profession b; heap := heap b;
     next_ref := next_ref b; clock := clock b;
     task_manager := task_manager b; manager_log := manager_log b;
     event_manager := event_manager b; events_log := events_log b;
     _current_state := _current_state b; effects := effects b;
     _timers := _timers b; next_timer := n; sleeping := sleeping b;
     emits := emits b |}.

Definition set_emits (b : t) (l : list BotState.t) : t :=
  {| player := player b; profession := profession b; heap := heap b;
     next_ref := next_ref b; clock := clock b;
     task_manager := task_manager b; manager_log := manager_log b;
     event_manager := event_manager b; events_log := events_log b;
     _current_state := _current_state b; effects := effects b;
     _timers := _timers b; next_timer := next_timer b;
     sleeping := sleeping b; emits := l |}.

(** [Controller.__init__]; no task object exists yet. *)
Definition init (player : Player.t) (profession : string)
    (task_gap task_bias retry_count : Z) : t :=
  {| player := player; profession := profession;
     heap := fun _ => Task_new 0%nat Float.zero "" CMD 5 0;
     next_ref := 0%nat; clock := 0%nat;
     task_manager := TaskManager_init true task_gap task_bias retry_count;
     manager_log := [];
     event_manager :=
       EventManager.setup EventManager.init (Some OnInit) (Some OnRunning)
         (Some OnDefeat) (Some OnBlocked) (Some OnBan) (Some OnStopped);
     events_log := []; _current_state := None; effects := [];
     _timers := ∅; next_timer := 0%nat; sleeping := ∅; emits := [] |}.

(** The fields [update_state] works on. *)
Definition core (b : t) : Controller.t :=
  {| Controller.player_state := Player.state (player b);
     Controller._current_state := _current_state b |}.

(** [_cancel_timer]: [pop(key, None)], then [cancel()] on what was there;
    a task that no longer sleeps is not affected. *)
Definition _cancel_timer (b : t) (key : string) : t :=
  match _timers b !! key with
  | Some timer => set_timers b (delete key (_timers b)) (delete timer (sleeping b))
  | None => b
  end.

(** [self._timers[key] = asyncio.create_task(self._timer_wrapper(key, ..))] *)
Definition start_timer (b : t) (key : string) : t :=
  let timer := next_timer b in
  set_next_timer
    (set_timers b (<[key := timer]> (_timers b)) (<[timer := key]> (sleeping b)))
    (S timer).

(** [_add_timer_from_key] *)
Definition _add_timer_from_key (b : t) (key : string) : t :=
  let b := _cancel_timer b key in
  if String.eqb key "map" then start_timer b key
  else if String.eqb key "prof" then start_timer b key
  else if String.eqb key "verify" then start_timer b key
  else b.

(** [add_task]; an empty key is falsy. *)
Definition add_task (b : t) (task : ref) (timer_key : option string) : t * bool :=
  let '(m, success, tr) := add_task (heap b) (task_manager b) task in
  let b := set_task_manager b m tr in
  match timer_key with
  | Some key =>
      if String.eqb key "" then (b, success)
      else (_add_timer_from_key b key, success)
  | None => (b, success)
  end.

(** [_cancel_all_timers] *)
Definition _cancel_all_timers (b : t) : t :=
  set_timers b ∅
    (foldr (fun '(_, timer) s => delete timer s) (sleeping b)
       (map_to_list (_timers b))).

(** [refresh_timer] *)
Definition refresh_timer (b : t) (key : string) : t :=
  _add_timer_from_key (_cancel_timer b key) key.

(** [Task(..)]: the object is new. *)
Definition new_task (b : t) (task : Task) : t * ref :=
  (set_heap b (store (heap b) (next_ref b) task), next_ref b).

Section Clock.
(** The successive values of [time.time() * 1000]. *)
Variable time_ms : nat -> float.

(** [_create_repeating_task]; the closure [task_func] is named after the
    task object it is made for. *)
Definition _create_repeating_task (b : t) (command : string)
    (task_type : TaskType) : t * ref :=
  let now := time_ms (clock b) in
  new_task (tick b)
    (Task_new (next_ref b) (Float.add now (Float.of_Z 180000)) command task_type
       (get_default_rank task_type) 0).

(** [_map_recursion] *)
Definition _map_recursion (b : t) : t :=
  let b := _cancel_timer b "map" in
  let '(b, task) := _create_repeating_task b "$map" NBW in
  let '(b, _) := add_task b task None in
  start_timer b "map".

(** [_prof_recursion] *)
Definition _prof_recursion (b : t) : t :=
  if String.eqb (profession b) "none" then b
  else
    let b := _cancel_timer b "prof" in
    let command := ("$" ++ profession b)%string in
    let '(b, task) := _create_repeating_task b command NPW in
    let '(b, _) := add_task b task None in
    start_timer b "prof".

(** [_verify_recursion] *)
Definition _verify_recursion (b : t) : t :=
  let b := _cancel_timer b "verify" in
  let '(b, task) := _create_repeating_task b "$verify" VERIFY in
  let '(b, _) := add_task b task None in
  start_timer b "verify".

(** [update_state]: the state it leaves and whether [PlayerState(..)]
    raised. *)
Definition update_state (b : t) (new_state : BotState.t) : t * bool :=
  let b := log b [Controller.LogCurrentPlayerState
                    (PlayerState.value (Player.state (player b)))] in
  if decide (_current_state b ≠ Some new_state) then
    let b := log b [Controller.LogChangingState (BotState.value new_state)] in
    match PlayerState.of_value (BotState.value new_state) with
    | Some ps =>
        let b := set_player b (Player.set_state (player b) ps) in
        let b := set_current_state b new_state in
        (set_emits (log b [Controller.CreateTaskEmit new_state])
           (emits b ++ [new_state]), false)
    | None => (b, true)
    end
  else (b, false).

(** [_on_init] *)
Definition _on_init (b : t) : t * bool :=
  let '(b, raised) := update_state b BotState.RUNNING in
  if raised then (b, true)
  else (_prof_recursion (_map_recursion b), false).

(** [_on_running] *)
Definition _on_running (b : t) : t * bool := (b, false).

(** [_on_defeat] *)
Definition _on_defeat (b : t) : t * bool :=
  (_cancel_all_timers (set_player b (Player.reset (player b))), false).

(** [_on_blocked] *)
Definition _on_blocked (b : t) : t * bool := (_verify_recursion b, false).

(** [_on_ban] *)
Definition _on_ban (b : t) : t * bool :=
  (_cancel_all_timers (set_player b (Player.reset (player b))), false).

(** [_on_stopped] *)
Definition _on_stopped (b : t) : t * bool :=
  (_cancel_all_timers (set_player b (Player.reset (player b))), false).

(** The handlers are [async def]s. *)
Definition listener (h : Handler) : EventManager.Listener t :=
  {| EventManager.kind := EventManager.Coroutine;
     EventManager.body :=
       match h with
       | OnInit => _on_init | OnRunning => _on_running
       | OnDefeat => _on_defeat | OnBlocked => _on_blocked
       | OnBan => _on_ban | OnStopped => _on_stopped
       end |}.

(** [self.event_manager.emit(state)], run to its end. *)
Definition emit (b : t) (state : BotState.t) : t :=
  let '(m, b, tr) := EventManager.emit listener (event_manager b) state b in
  set_event_manager b m tr.

(** [_task_complete_callback] *)
Definition _task_complete_callback (b : t) (result : TaskResult) : t :=
  match result with
  | Dict (Some new_state) =>
      if decide (_current_state b ≠ Some new_state) then
        emit (set_current_state b new_state) new_state
      else b
  | _ => b
  end.

(** The event loop runs the oldest [emit] task that waits. *)
Definition run_emit (b : t) : t :=
  match emits b with
  | [] => b
  | state :: rest => emit (set_emits b rest) state
  end.

(** The sleep of a timer task ends and it awaits its callback. *)
Definition fire (b : t) (timer : Timer) : t :=
  match sleeping b !! timer with
  | Some key =>
      let b := set_timers b (_timers b) (delete timer (sleeping b)) in
      if String.eqb key "map" then _map_recursion b
      else if String.eqb key "prof" then _prof_recursion b
      else if String.eqb key "verify" then _verify_recursion b
      else b
  | None => b
  end.

(** What happens to a controller: the calls the cogs make and the tasks
    the event loop runs. *)
Inductive Op :=
  | AddTask (func : FuncId) (expire_at : float) (info : string) (tag : TaskType)
      (rank : Z) (timer_key : option string)
  | RefreshTimer (key : string)
  | UpdateState (new_state : BotState.t)
  | VerifyRecursion
  | TaskComplete (result : TaskResult)
  | RunEmit
  | Fire (timer : Timer).

Definition op (o : Op) (b : t) : t :=
  match o with
  | AddTask func expire_at info tag rank timer_key =>
      let '(b, task) := new_task b (Task_new func expire_at info tag rank 0) in
      (add_task b task timer_key).1
  | RefreshTimer key => refresh_timer b key
  | UpdateState new_state => (update_state b new_state).1
  | VerifyRecursion => _verify_recursion b
  | TaskComplete result => _task_complete_callback b result
  | RunEmit => run_emit b
  | Fire timer => fire b timer
  end.

Definition ops (os : list Op) (b : t) : t := fold_left (fun b o => op o b) os b.

End Clock.

(** Every sleeping timer is the one registered under its key, the keys
    are the three the controller knows, no timer is registered twice, and
    the timers in use were created before the next one. *)
Definition timers_tracked (b : t) : Prop :=
  (forall timer key, sleeping b !! timer = Some key ->
                     _timers b !! key = Some timer)
  /\ (forall timer key, sleeping b !! timer = Some key ->
                        (timer < next_timer b)%nat)
  /\ (forall key timer, _timers b !! key = Some timer ->
                        (timer < next_timer b)%nat
                        /\ key ∈ ["map"; "prof"; "verify"]%string)
  /\ (forall key key' timer, _timers b !! key = Some timer ->
                             _timers b !! key' = Some timer -> key = key').

(** A timer sleeps under [key]. *)
Definition timer_runs (key : string) (b : t) : Prop :=
  exists timer, _timers b !! key = Some timer /\ sleeping b !! timer = Some key.

(** Two states with the same timers. *)
Definition same_timers (b b' : t) : Prop :=
  _timers b' = _timers b /\ sleeping b' = sleeping b
  /\ next_timer b' = next_timer b.

(** No sleeping timer has the key [key]. *)
Definition no_sleeper (key : string) (b : t) : Prop :=
  forall timer, sleeping b !! timer <> Some key.

(** The handler [__init__] registers for a state. *)
Definition handler_of (state : BotState.t) : Handler :=
  match state with
  | BotState.INIT => OnInit | BotState.RUNNING => OnRunning
  | BotState.DEFEATED => OnDefeat | BotState.BLOCKED => OnBlocked
  | BotState.BANNED => OnBan | BotState.STOPPED => OnStopped
  end.

(** The listeners are those of [__init__]. *)
Definition wired (b : t) : Prop :=
  forall state,
    EventManager._listeners (event_manager b) state = [handler_of state].

(** The event manager and its log are touched by [emit] only. *)
Definition same_events (b b' : t) : Prop :=
  event_manager b' = event_manager b /\ events_log b' = events_log b.

(** Two states with the same player, state and pending emissions. *)
Definition same_control (b b' : t) : Prop :=
  player b' = player b /\ _current_state b' = _current_state b
  /\ emits b' = emits b /\ effects b' = effects b.

(** What holds of every state the controller reaches. *)
Definition sound (b : t) : Prop :=
  timers_tracked b /\ wired b /\ EventManager.errors (events_log b) = [].

End Bot.

(** ** Specification vocabulary *)

(** Two stores agree on the fields the manager never writes. *)
Definition same_static (h h' : Heap) : Prop :=
  forall r, func (h' r) = func (h r) /\ expire_at (h' r) = expire_at (h r)
            /\ info (h' r) = info (h r) /\ tag (h' r) = tag (h r).

(** Two managers agree on the fields that no queue operation writes. *)
Definition same_config (m m' : TaskManager) : Prop :=
  _gap m' = _gap m /\ _bias m' = _bias m /\ _retry_count m' = _retry_count m
  /\ _callback m' = _callback m /\ _lock m' = _lock m
  /\ _running m' = _running m.

(** Number of occurrences of an object in the queue. *)
Definition occurrences (r : ref) (q : list ref) : nat :=
  length (filter (fun x => x = r) q).



(** Number of queued tasks of a category. *)
Definition count_tag (h : Heap) (c : TaskType) (q : list ref) : nat :=
  length (filter (fun r => tag (h r) = c) q).

(** Every counter equals the number of queued tasks of its category. *)
Definition counters_exact (h : Heap) (m : TaskManager) : Prop :=
  forall c, counter_get m c 0 = Z.of_nat (count_tag h c (_queue m)).

(** ** The loop, seen from outside *)

(** The state in which the loop body examines the head [task] of the
    sorted queue [task :: rest]: the queue aged and popped, the counter of
    the task's category decremented. *)
Definition popped (h : Heap) (m : TaskManager) (task : ref) (rest : list ref)
  : Heap * TaskManager :=
  let h1 := _priority_aging h (task :: rest) in
  (h1, set_counter (set_queue m rest)
         (<[tag (h1 task) := Z.max 0 (counter_get m (tag (h1 task)) 1 - 1)]>
            (_task_type_counter m))).

(** Why the loop discards a popped task, with the message it logs. *)
Definition discard_reason (e : Env) (h1 : Heap) (m1 : TaskManager)
    (task : ref) (msg : LogMsg) : Prop :=
  (msg = TaskExpired task
   /\ exists k, is_expired (h1 task) (time_ms e k) = true)
  \/ (msg = TaskWillExpire task
      /\ exists t, expected_execute_time m1 = Some t
                   /\ is_expired (h1 task) t = true).

(** Where a dispatched task stands inside the loop body: before its
    action is awaited, while it is awaited, after it has returned. *)
Inductive Stage := Pacing | Awaiting | Returned.

(** How the [except] handler is reached from a stage. *)
Definition raised (e : Env) (h : Heap) (task : ref) (s : Stage) : Prop :=
  (s = Awaiting /\ await_func e (func (h task)) = Raises) \/ s = Returned.

(** A re-entrant invocation that finds the lock taken does nothing. *)
Definition respects_lock
    (reenter : Env -> Heap -> TaskManager -> Heap * TaskManager * list Event)
  : Prop :=
  forall e h m, _lock m = true -> reenter e h m = (h, m, []).

(** The calls of an interference other than [check_and_execute]. *)
Definition is_check (c : Call) : bool :=
  match c with CallCheckAndExecute _ => true | _ => false end.

Definition without_checks (iv : Interference) : Interference :=
  fun p => filter (fun c => is_check c = false) (iv p).

(** A call other than [check_and_execute] does not depend on what a
    re-entrant invocation would do. *)
Definition plain_call (c : Call) (h : Heap) (m : TaskManager)
  : Heap * TaskManager * list Event :=
  call (fun _ h m => (h, m, [])) c h m.

(** ** Reading a trace *)

(** Events that carry no scheduling decision. *)
Definition quiet (ev : Event) : Prop :=
  match ev with
  | Log DEBUG _ | Sleep _ | Callback _ => True
  | _ => False
  end.

Definition is_log (ev : Event) : Prop :=
  match ev with Log _ _ => True | _ => False end.

(** Log records of admission, removal and retry bookkeeping. *)
Definition is_admin_log (ev : Event) : Prop :=
  match ev with
  | Log _ (TryAddTask _) | Log _ (AddFail _) | Log _ (AddSuccess _)
  | Log _ QueueCleared | Log _ (Removed _ _)
  | Log _ (TaskFailed _) | Log _ (Retrying _ _) => True
  | _ => False
  end.

Fixpoint count_events (p : Event -> bool) (tr : list Event) : nat :=
  match tr with
  | [] => 0
  | ev :: tr' => (if p ev then 1 else 0) + count_events p tr'
  end%nat.

(** The loop popped [r] (it logs "Checking task" for every task it pops). *)
Definition is_selection (r : ref) (ev : Event) : bool :=
  match ev with Log INFO (Checking x) => bool_decide (x = r) | _ => false end.

(** The action of [r] was awaited. *)
Definition is_dispatch (r : ref) (ev : Event) : bool :=
  match ev with Invoke x => bool_decide (x = r) | _ => false end.

(** The loop discarded a task as expired, now or by the projected time. *)
Definition is_discard (ev : Event) : bool :=
  match ev with
  | Log WARNING (TaskExpired _) | Log WARNING (TaskWillExpire _) => true
  | _ => false
  end.

(** Events after which task [r] of category [c] may have left the queue
    other than by being dispatched: it was discarded as expired, the queue
    was cleared, its category was removed. *)
Definition is_drop (r : ref) (c : TaskType) (ev : Event) : bool :=
  match ev with
  | Log WARNING (TaskExpired x) | Log WARNING (TaskWillExpire x) =>
      bool_decide (x = r)
  | Log INFO QueueCleared => true
  | Log INFO (Removed _ c') => bool_decide (c' = c)
  | _ => false
  end.

Definition is_try_add (r : ref) (ev : Event) : bool :=
  match ev with Log INFO (TryAddTask x) => bool_decide (x = r) | _ => false end.

(** An admission was refused. *)
Definition is_add_fail (ev : Event) : bool :=
  match ev with Log WARNING (AddFail _) => true | _ => false end.

(** The number of times [add_task] refused the object [r]: "Try add
    task" for [r] with "Add fail" next. *)
Fixpoint refusals (r : ref) (tr : list Event) : nat :=
  match tr with
  | [] => 0
  | ev :: tr' =>
      (if is_try_add r ev
          && match tr' with ev' :: _ => is_add_fail ev' | [] => false end
       then 1 else 0) + refusals r tr'
  end%nat.

Definition selections (r : ref) (tr : list Event) : nat :=
  count_events (is_selection r) tr.
Definition dispatches (r : ref) (tr : list Event) : nat :=
  count_events (is_dispatch r) tr.
Definition discards (tr : list Event) : nat := count_events is_discard tr.

(** A call of [check_and_execute] ended by raising. *)
Definition is_raise (ev : Event) : bool :=
  match ev with Raise _ => true | _ => false end.

Definition raises (tr : list Event) : nat := count_events is_raise tr.
Definition drops (r : ref) (c : TaskType) (tr : list Event) : nat :=
  count_events (is_drop r c) tr.

(** The events by which [r] can leave the queue undispatched. *)
Definition losses (r : ref) (c : TaskType) (tr : list Event) : nat :=
  (drops r c tr + refusals r tr)%nat.



(** ** Reading a run *)

(** The steps of a run that are calls of [check_and_execute]. *)
Definition is_cycle (s : Step) : bool :=
  match s with
  | Cycle _ _ | Do (CallCheckAndExecute _) => true
  | Do _ => false
  end.

Definition cycles (steps : list Step) : nat := length (List.filter is_cycle steps).

(** The calls of a step, at top level and during the awaits of a cycle. *)
Definition calls_of (s : Step) : list Call :=
  match s with
  | Do c => [c]
  | Cycle _ iv => iv AtGapSleep ++ iv AtBiasDelay ++ iv AtFunc ++ iv AtCallback
  end.



(** A call that does not enqueue the object [r]. *)
Definition not_adding (r : ref) (c : Call) : Prop :=
  match c with CallAddTask x => x <> r | _ => True end.

(** ** Invariants of a run *)




(** [r] is queued once and has lost one rank per completed cycle and one
    per discarded task. *)
Definition aged (r : ref) (rank0 : Z) (n : nat) (tr : list Event) (h : Heap)
    (m : TaskManager) : Prop :=
  occurrences r (_queue m) = 1%nat
  /\ rank (h r) = rank0 - Z.of_nat n - Z.of_nat (discards tr).

(** After [n] cycles: [r] has been selected, or has left the queue, or is [aged]. *)
Definition aging_inv (r : ref) (rank0 : Z) (n : nat) (tr : list Event)
    (h : Heap) (m : TaskManager) : Prop :=
  (0 < selections r tr)%nat \/ (r ∉ _queue m) \/ aged r rank0 n tr h m.

(** The same while task [t] is in flight. *)
Definition aging_inv_in_flight (r : ref) (rank0 : Z) (n : nat) (t : ref)
    (tr : list Event) (h : Heap) (m : TaskManager) : Prop :=
  (0 < selections r tr)%nat
  \/ (t <> r /\ ((r ∉ _queue m) \/ aged r rank0 n tr h m)).










(** ** Further invariants of a run *)

(** No category is queued beyond its limit. *)
Definition within_limits (h : Heap) (m : TaskManager) : Prop :=
  forall c, Z.of_nat (count_tag h c (_queue m)) <= get_task_limit c.

(** The counters are exact and no category is over its limit. *)
Definition bounded (h : Heap) (m : TaskManager) : Prop :=
  counters_exact h m /\ within_limits h m.

(** An action was awaited. *)
Definition is_invoke (ev : Event) : bool :=
  match ev with Invoke _ => true | _ => false end.

Definition invocations (tr : list Event) : nat := count_events is_invoke tr.

(** From [h] to [h'] objects only lose rank and gain retries. *)
Definition only_ages (h h' : Heap) : Prop :=
  same_static h h'
  /\ forall r, rank (h' r) <= rank (h r) /\ retry (h r) <= retry (h' r).

(** ** Example objects *)

Definition ex_heap : Heap := fun r =>
  match r with
  | 0%nat => Task_new 0%nat (Float.of_Z 1000) "expired" CMD 0 0
  | 1%nat => Task_new 1%nat (Float.of_Z 90000) "$map" NBW 5 0
  | 2%nat => Task_new 2%nat (Float.of_Z 90000) "$verify" VERIFY (-999) 0
  | 3%nat => Task_new 3%nat (Float.of_Z 90000) "eat" FOOD 1 0
  | _ => Task_new 4%nat (Float.of_Z 90000) "other" FOOD 1 0
  end.

(** The clock stands at [now] ms, the jitter drawn is 10 ms. *)
Definition ex_env_at (now : Z) (action : Outcome) (cb : CallbackOutcome)
  : Env :=
  {| time_ms := fun _ => Float.of_Z now; randint := fun _ _ => 10;
     await_func := fun _ => action; call_callback := fun _ => cb |}.

Definition ex_env : Outcome -> CallbackOutcome -> Env := ex_env_at 5000.

Definition ex_manager : TaskManager := TaskManager_init true 100 50 2.

Definition enqueue (h : Heap) (m : TaskManager) (tasks : list ref) : TaskManager :=
  fold_left (fun m task => (add_task h m task).1.1) tasks m.

(** A listener that fails and moves a counter. *)
Definition ex_listener (cb : nat) : EventManager.Listener nat :=
  {| EventManager.kind := EventManager.Plain;
     EventManager.body := fun w => (S w, true) |}.

Definition ex_clock (n : nat) : float := Float.of_Z (1000 * Z.of_nat n).

Definition ex_player : Player.t :=
  {| Player.state := PlayerState.STOPPED; Player.channel := Some 1%nat;
     Player.channel_id := "42"; Player.username := "me";
     Player.battle_msg := Some 7%nat; Player.prof_msg := None;
     Player.verify_img := None; Player.sell := 3; Player.auto_level := false;
     Player.user_data := Player.UserData_default |}.

(** The controller of a bot that fishes. *)
Definition ex_bot : Bot.t := Bot.init ex_player "fish" 2000 3000 2.

(** * Properties *)

(** ** The settings table *)

Lemma settings_total (t : TaskType) : is_Some (settings_get TASK_SETTINGS t).
Proof. destruct t; vm_compute; eauto. Qed.

Lemma get_default_rank_values (t : TaskType) :
  get_default_rank t ∈ [-999; -998; 1; 2; 3; 4].
Proof. destruct t; vm_compute; set_solver. Qed.

Lemma get_default_rank_not_5 (t : TaskType) : get_default_rank t ≠ 5.
Proof. by destruct t. Qed.

Lemma get_task_limit_pos (t : TaskType) : 1 <= get_task_limit t.
Proof. by destruct t. Qed.

(** ** The object store and aging *)

Lemma store_eq (h : Heap) r t : store h r t r = t.
Proof. unfold store. by rewrite decide_True. Qed.

Lemma store_ne (h : Heap) r r' t : r' ≠ r -> store h r t r' = h r'.
Proof. intros. unfold store. by rewrite decide_False. Qed.

Lemma same_static_refl h : same_static h h.
Proof. by intros r. Qed.

Lemma same_static_trans h1 h2 h3 :
  same_static h1 h2 -> same_static h2 h3 -> same_static h1 h3.
Proof.
  intros H12 H23 r. destruct (H12 r) as (?&?&?&?), (H23 r) as (?&?&?&?).
  repeat split; congruence.
Qed.

Lemma store_same_static h r t :
  func t = func (h r) -> expire_at t = expire_at (h r) ->
  info t = info (h r) -> tag t = tag (h r) -> same_static h (store h r t).
Proof.
  intros ???? r'. unfold store. by destruct (decide (r' = r)) as [->|].
Qed.

Lemma aging_same_static (q : list ref) : forall h,
  same_static h (_priority_aging h q).
Proof.
  induction q as [|t q IH]; intros h; simpl; [apply same_static_refl|].
  eapply same_static_trans; [|apply IH]. by apply store_same_static.
Qed.

Lemma aging_tag h q r : tag (_priority_aging h q r) = tag (h r).
Proof. apply aging_same_static. Qed.

Lemma aging_expire_at h q r : expire_at (_priority_aging h q r) = expire_at (h r).
Proof. apply aging_same_static. Qed.

Lemma aging_func h q r : func (_priority_aging h q r) = func (h r).
Proof. apply aging_same_static. Qed.

Lemma aging_retry (q : list ref) : forall h r,
  retry (_priority_aging h q r) = retry (h r).
Proof.
  induction q as [|t q IH]; intros h r; simpl; [done|].
  rewrite IH. unfold store. by destruct (decide (r = t)) as [->|].
Qed.

Lemma occurrences_cons r x q :
  occurrences r (x :: q)
  = ((if decide (x = r) then 1 else 0) + occurrences r q)%nat.
Proof.
  unfold occurrences. rewrite filter_cons. by destruct (decide (x = r)).
Qed.

Lemma occurrences_app r q1 q2 :
  occurrences r (q1 ++ q2) = (occurrences r q1 + occurrences r q2)%nat.
Proof. unfold occurrences. by rewrite filter_app, length_app. Qed.

Lemma occurrences_perm r q1 q2 : q1 ≡ₚ q2 -> occurrences r q1 = occurrences r q2.
Proof. intros Hp. unfold occurrences. by rewrite Hp. Qed.



(** Aging lowers the rank of an object once per occurrence in the queue. *)
Lemma aging_rank (q : list ref) : forall h r,
  rank (_priority_aging h q r) = rank (h r) - Z.of_nat (occurrences r q).
Proof.
  induction q as [|t q IH]; intros h r; simpl.
  - unfold occurrences. simpl. lia.
  - rewrite IH, occurrences_cons. unfold store.
    destruct (decide (r = t)) as [->|Hne].
    + rewrite decide_True by done. simpl. lia.
    + rewrite decide_False by done. simpl. lia.
Qed.

(** ** Sorting *)

Lemma insert_perm h x l : insert h x l ≡ₚ x :: l.
Proof.
  induction l as [|y l IH]; simpl; [done|].
  destruct (Task_lt (h x) (h y)); [done|].
  rewrite IH. apply Permutation_swap.
Qed.

Lemma sort_onto_perm h l : forall acc, sort_onto h acc l ≡ₚ acc ++ l.
Proof.
  unfold sort_onto. induction l as [|x l IH]; intros acc; simpl.
  - by rewrite app_nil_r.
  - rewrite IH, insert_perm. simpl. apply Permutation_middle.
Qed.

Lemma sort_perm h l : sort h l ≡ₚ l.
Proof. apply sort_onto_perm. Qed.

Lemma sort_length h l : length (sort h l) = length l.
Proof. by rewrite sort_perm. Qed.

Lemma sort_nil h l : sort h l = [] <-> l = [].
Proof.
  split; intros E.
  - apply Permutation_nil_r. by rewrite <- E, sort_perm.
  - by subst.
Qed.




Lemma filter_none {A} (P : A -> Prop) `{forall x, Decision (P x)} (l : list A) :
  Forall (fun x => ~ P x) l -> filter P l = [].
Proof.
  induction 1 as [|x l Hx _ IH]; [done|]. by rewrite filter_cons_False.
Qed.






(** ** Admission *)

Lemma add_task_reject h m task :
  get_task_limit (tag (h task)) <= counter_get m (tag (h task)) 0 ->
  add_task h m task
  = (m, false, [Log INFO (TryAddTask task); Log WARNING (AddFail (tag (h task)))]).
Proof. intros Hfull. unfold add_task. by rewrite (proj2 (Z.leb_le _ _) Hfull). Qed.

Lemma add_task_accept h m task :
  counter_get m (tag (h task)) 0 < get_task_limit (tag (h task)) ->
  add_task h m task
  = (set_counter (set_queue m (_queue m ++ [task]))
       (<[tag (h task) := counter_get m (tag (h task)) 0 + 1]>
          (_task_type_counter m)),
     true, [Log INFO (TryAddTask task); Log INFO (AddSuccess task)]).
Proof. intros Hroom. unfold add_task. by rewrite (proj2 (Z.leb_gt _ _) Hroom). Qed.

Lemma counter_get_insert m d c c' v dflt :
  counter_get (set_counter m (<[c := v]> d)) c' dflt
  = if decide (c = c') then v else default dflt (d !! c').
Proof.
  unfold counter_get. simpl. destruct (decide (c = c')) as [->|Hne].
  - by rewrite lookup_insert_eq.
  - by rewrite lookup_insert_ne.
Qed.

(** Traces are compared with their appends associated to the right. *)
Ltac norm_tr :=
  repeat (progress (rewrite <- ?app_assoc; cbn [app])).
Ltac norm_tr_in H :=
  repeat (progress (rewrite <- ?app_assoc in H; cbn [app] in H)).

(** C3. [add_task] on a category whose counter has reached its limit
    returns [False] and leaves the manager as it was; otherwise it returns
    [True], appends the task and adds one to that category's counter only. *)
Theorem add_task_admission (h : Heap) (m : TaskManager) (task : ref) :
  (get_task_limit (tag (h task)) <= counter_get m (tag (h task)) 0 ->
   exists tr, add_task h m task = (m, false, tr)) /\
  (counter_get m (tag (h task)) 0 < get_task_limit (tag (h task)) ->
   exists m' tr, add_task h m task = (m', true, tr)
     /\ _queue m' = _queue m ++ [task]
     /\ counter_get m' (tag (h task)) 0 = counter_get m (tag (h task)) 0 + 1
     /\ (forall c, c <> tag (h task) ->
           _task_type_counter m' !! c = _task_type_counter m !! c)
     /\ _last_execute_at m' = _last_execute_at m
     /\ same_config m m').
Proof.
  split; intros Hc.
  - rewrite add_task_reject by done. eauto.
  - rewrite add_task_accept by done. eexists _, _. split; [done|].
    repeat split; simpl.
    + by rewrite counter_get_insert, decide_True.
    + intros c Hne. by rewrite lookup_insert_ne.
Qed.

Lemma add_task_admission_witness :
  (get_task_limit FOOD <= counter_get (enqueue ex_heap ex_manager [3%nat]) FOOD 0
   /\ exists tr, add_task ex_heap (enqueue ex_heap ex_manager [3%nat]) 4%nat
                 = (enqueue ex_heap ex_manager [3%nat], false, tr))
  /\ (counter_get ex_manager FOOD 0 < get_task_limit FOOD
      /\ exists m' tr, add_task ex_heap ex_manager 3%nat = (m', true, tr)
           /\ _queue m' = [3%nat] /\ counter_get m' FOOD 0 = 1).
Proof.
  split.
  - split; [by vm_compute|].
    apply (proj1 (add_task_admission ex_heap (enqueue ex_heap ex_manager [3%nat]) 4%nat)).
    by vm_compute.
  - split; [by vm_compute|].
    destruct (proj2 (add_task_admission ex_heap ex_manager 3%nat))
      as (m' & tr & E & Hq & Hc & _); [by vm_compute|].
    exists m', tr. by repeat split.
Defined.

(** C10. A rank argument of 5 is the constructor's mark for "not given":
    the task gets its category's default rank, which is never 5, so no
    constructed task has rank 5 when it is admitted; any other rank
    argument is kept. *)
Theorem rank_5_is_a_sentinel (f : FuncId) (e : float) (i : string) (tg : TaskType)
    (rt : Z) :
  rank (Task_new f e i tg 5 rt) = get_default_rank tg
  /\ get_default_rank tg <> 5
  /\ (forall rk, rk <> 5 -> rank (Task_new f e i tg rk rt) = rk)
  /\ (forall rk, rank (Task_new f e i tg rk rt) <> 5)
  /\ (forall rk h m task,
        h task = Task_new f e i tg rk rt ->
        counter_get m tg 0 < get_task_limit tg ->
        exists m' tr, add_task h m task = (m', true, tr)
          /\ last (_queue m') = Some task /\ rank (h task) <> 5).
Proof.
  assert (forall rk, rank (Task_new f e i tg rk rt) <> 5) as Hne.
  { intros rk. simpl.
    destruct (decide (rk = 5)); [apply get_default_rank_not_5|done]. }
  split; [done|]. split; [apply get_default_rank_not_5|].
  split; [|split; [done|]].
  - intros rk Hrk. simpl. by rewrite decide_False.
  - intros rk h m task Hnew Hroom.
    assert (tag (h task) = tg) as Htag by (by rewrite Hnew).
    rewrite add_task_accept by (by rewrite Htag).
    eexists _, _. split; [done|]. simpl. rewrite last_snoc, Hnew. by split.
Qed.

Lemma rank_5_is_a_sentinel_witness :
  7 <> 5 /\ rank (Task_new 1%nat (Float.of_Z 90000) "$map" NBW 7 0) = 7.
Proof.
  split; [done|].
  apply (proj1 (proj2 (proj2 (rank_5_is_a_sentinel 1%nat (Float.of_Z 90000) "$map" NBW 0)))).
  done.
Defined.

(** ** Calls made while a cycle is suspended *)

Lemma same_config_refl m : same_config m m.
Proof. by repeat split. Qed.

Lemma same_config_trans m1 m2 m3 :
  same_config m1 m2 -> same_config m2 m3 -> same_config m1 m3.
Proof.
  intros (?&?&?&?&?&?) (?&?&?&?&?&?). repeat split; congruence.
Qed.

Lemma add_task_frame h m task :
  same_config m (add_task h m task).1.1
  /\ _last_execute_at (add_task h m task).1.1 = _last_execute_at m.
Proof.
  unfold add_task. destruct (_ <=? _); simpl; split; by repeat split.
Qed.

Section Calls.
Variable reenter : Env -> Heap -> TaskManager -> Heap * TaskManager * list Event.
Hypothesis reenter_respects_lock : respects_lock reenter.

(** With the lock held, a call leaves the objects, the configuration,
    the lock and the pacing timestamp alone. *)
Lemma call_frame c h m :
  _lock m = true ->
  (call reenter c h m).1.1 = h
  /\ same_config m (call reenter c h m).1.2
  /\ _last_execute_at (call reenter c h m).1.2 = _last_execute_at m.
Proof.
  intros Hlock. destruct c as [task| |ty|e]; simpl.
  - destruct (add_task h m task) as [[m' ok] tr] eqn:E. simpl.
    pose proof (add_task_frame h m task) as HF. rewrite E in HF. simpl in HF.
    by destruct HF.
  - by repeat split.
  - by repeat split.
  - rewrite reenter_respects_lock by done. simpl. by repeat split.
Qed.

Lemma meanwhile_frame cs : forall h m,
  _lock m = true ->
  (meanwhile reenter cs h m).1.1 = h
  /\ same_config m (meanwhile reenter cs h m).1.2
  /\ _last_execute_at (meanwhile reenter cs h m).1.2 = _last_execute_at m.
Proof.
  induction cs as [|c cs IH]; intros h m Hlock; simpl.
  - by repeat split.
  - destruct (call_frame c h m Hlock) as (Hh & Hc & Ht).
    destruct (call reenter c h m) as [[h1 m1] tr1]. simpl in *. subst h1.
    assert (_lock m1 = true) as Hlock1 by (destruct Hc as (?&?&?&?&?&?); congruence).
    destruct (IH h m1 Hlock1) as (Hh' & Hc' & Ht').
    destruct (meanwhile reenter cs h m1) as [[h2 m2] tr2]. simpl in *.
    split; [done|]. split; [by eapply same_config_trans|congruence].
Qed.

(** With the lock held, the re-entrant invocations among the calls can be
    dropped: they change nothing and are not observed. *)
Lemma meanwhile_without_checks cs : forall h m,
  _lock m = true ->
  meanwhile reenter cs h m
  = meanwhile reenter (filter (fun c => is_check c = false) cs) h m.
Proof.
  induction cs as [|c cs IH]; intros h m Hlock; [done|].
  rewrite filter_cons. destruct (decide (is_check c = false)) as [Hc|Hc].
  - simpl. destruct (call_frame c h m Hlock) as (_ & Hcfg & _).
    destruct (call reenter c h m) as [[h1 m1] tr1]. simpl in *.
    rewrite IH; [done|]. destruct Hcfg as (?&?&?&?&?&?); congruence.
  - destruct c; try done. simpl.
    rewrite reenter_respects_lock by done. rewrite IH by done.
    by destruct (meanwhile _ _ _ _) as [[??]?].
Qed.

End Calls.

Lemma popped_inv h m task rest h1 m1 :
  popped h m task rest = (h1, m1) ->
  h1 = _priority_aging h (task :: rest) /\ _queue m1 = rest
  /\ same_config m m1 /\ _last_execute_at m1 = _last_execute_at m.
Proof.
  unfold popped. cbv zeta. intros [= <- <-]. split; [done|]. split; [done|].
  split; [by repeat split|done].
Qed.

(** ** One iteration of the loop *)

Section Loop.
Variable reenter : Env -> Heap -> TaskManager -> Heap * TaskManager * list Event.

(** An iteration on a non-empty queue, in terms of [popped]. *)
Lemma execute_loop_S fuel e iv k h m task rest :
  sort h (_queue m) = task :: rest ->
  execute_loop reenter (S fuel) e iv k h m
  = let tr_check := _log_queue_status h (task :: rest)
                    ++ [Log INFO (Checking task)] in
    let '(h1, m1) := popped h m task rest in
    if is_expired (h1 task) (time_ms e k) then
      let '(h', m', tr) := execute_loop reenter fuel e iv (S k) h1 m1 in
      (h', m', tr_check ++ Log WARNING (TaskExpired task) :: tr)
    else
      match expected_execute_time m1 with
      | None => (h1, m1, tr_check ++ [Raise OverflowError])
      | Some t =>
          if is_expired (h1 task) t then
            let '(h', m', tr) := execute_loop reenter fuel e iv (S k) h1 m1 in
            (h', m', tr_check ++ Log WARNING (TaskWillExpire task) :: tr)
          else
            let '(h', m', tr) :=
              pace_and_execute reenter e iv (S k) (time_ms e k) h1 m1 task in
            (h', m', tr_check ++ tr)
      end.
Proof.
  intros Hs. cbn [execute_loop]. destruct (_queue m) as [|x q] eqn:Hq.
  - done.
  - cbn [_queue set_queue]. rewrite Hs. reflexivity.
Qed.

Lemma execute_loop_nil fuel e iv k h m :
  _queue m = [] -> execute_loop reenter fuel e iv k h m = (h, m, []).
Proof. intros Hq. destruct fuel; simpl; [done|]. by rewrite Hq. Qed.

(** The length of the queue is enough fuel: more changes nothing. *)
Lemma execute_loop_enough_fuel e iv fuel : forall k h m,
  (length (_queue m) <= fuel)%nat ->
  execute_loop reenter fuel e iv k h m
  = execute_loop reenter (length (_queue m)) e iv k h m.
Proof.
  induction fuel as [|fuel IH]; intros k h m Hlen.
  - by replace (length (_queue m)) with 0%nat by lia.
  - destruct (sort h (_queue m)) as [|task rest] eqn:Hs.
    + apply sort_nil in Hs. by rewrite !execute_loop_nil.
    + pose proof (sort_length h (_queue m)) as Hl. rewrite Hs in Hl.
      simpl in Hl. rewrite <- Hl.
      rewrite !(execute_loop_S _ e iv k h m task rest Hs).
      destruct (popped h m task rest) as [h1 m1] eqn:Ep. cbv zeta.
      apply popped_inv in Ep as (_ & Hq1 & _).
      rewrite (IH (S k) h1 m1) by (rewrite Hq1; lia). by rewrite Hq1.
Qed.

End Loop.

(** ** A proof rule for one cycle

    The loop is at its head ([L]) or has a task in flight ([F]); each
    hypothesis below is one move of the code. Whatever [L] holds of when
    the loop starts, [Post] holds when [_execute_next] returns. *)

Section CycleRule.
Variable reenter : Env -> Heap -> TaskManager -> Heap * TaskManager * list Event.
Hypothesis reenter_respects_lock : respects_lock reenter.
Variable e : Env.
Variable iv : Interference.
Variable CallOK : Call -> Prop.
Hypothesis iv_ok : forall p, Forall CallOK (iv p).

Variable L : list Event -> Heap -> TaskManager -> Prop.
Variable F : Stage -> ref -> list Event -> Heap -> TaskManager -> Prop.
Variable Post : list Event -> Heap -> TaskManager -> Prop.

Hypothesis L_quiet : forall tr h m ev,
  quiet ev -> L tr h m -> L (tr ++ [ev]) h m.
Hypothesis L_exit : forall tr h m,
  _queue m = [] -> L tr h m -> Post tr h m.
Hypothesis L_discard : forall tr h m task rest h1 m1 msg,
  L tr h m -> sort h (_queue m) = task :: rest ->
  popped h m task rest = (h1, m1) -> discard_reason e h1 m1 task msg ->
  L (tr ++ [Log INFO (Checking task); Log WARNING msg]) h1 m1.
Hypothesis L_dispatch : forall tr h m task rest h1 m1,
  L tr h m -> sort h (_queue m) = task :: rest ->
  popped h m task rest = (h1, m1) ->
  (forall t, expected_execute_time m1 = Some t ->
             is_expired (h1 task) t = false) ->
  F Pacing task (tr ++ [Log INFO (Checking task)]) h1 m1.
Hypothesis F_quiet : forall s t tr h m ev,
  quiet ev -> F s t tr h m -> F s t (tr ++ [ev]) h m.
Hypothesis F_call : forall s t tr h m c,
  CallOK c -> is_check c = false -> F s t tr h m ->
  F s t (tr ++ (plain_call c h m).2) (plain_call c h m).1.1 (plain_call c h m).1.2.
Hypothesis F_invoke : forall t tr h m,
  F Pacing t tr h m -> F Awaiting t (tr ++ [Invoke t]) h m.
Hypothesis F_returns : forall t tr h m res ts,
  await_func e (func (h t)) = Returns res ->
  F Awaiting t tr h m -> F Returned t tr h (set_last_execute_at m ts).
Hypothesis F_completed : forall t tr h m,
  F Returned t tr h m -> Post (tr ++ [Log INFO (TaskCompleted t)]) h m.
Hypothesis F_exception : forall s t tr h m,
  raised e h t s -> F s t tr h m ->
  Post (tr ++ (on_exception h m t).2) (on_exception h m t).1.1 (on_exception h m t).1.2.
Hypothesis F_raise : forall t tr h m exc,
  F Pacing t tr h m -> Post (tr ++ [Raise exc]) h m.

Lemma L_quiets evs : forall tr h m,
  Forall quiet evs -> L tr h m -> L (tr ++ evs) h m.
Proof.
  induction evs as [|ev evs IH]; intros tr h m Hq HL.
  - by rewrite app_nil_r.
  - apply Forall_cons in Hq as [Hev Hq].
    rewrite cons_middle, app_assoc. apply IH; [done|]. by apply L_quiet.
Qed.

Lemma status_quiet h q : Forall quiet (_log_queue_status h q).
Proof.
  destruct q as [|x q]; [constructor|]. simpl. constructor; [done|].
  constructor; [done|]. apply Forall_map. by apply Forall_true.
Qed.

Lemma call_plain c h m :
  is_check c = false -> call reenter c h m = plain_call c h m.
Proof. by destruct c. Qed.

Lemma F_meanwhile cs : forall s t tr h m,
  Forall CallOK cs -> _lock m = true -> F s t tr h m ->
  F s t (tr ++ (meanwhile reenter cs h m).2)
    (meanwhile reenter cs h m).1.1 (meanwhile reenter cs h m).1.2
  /\ _lock (meanwhile reenter cs h m).1.2 = true.
Proof.
  induction cs as [|c cs IH]; intros s t tr h m Hok Hlock HF; simpl.
  - by rewrite app_nil_r.
  - apply Forall_cons in Hok as [Hc Hok].
    destruct (call_frame reenter reenter_respects_lock c h m Hlock)
      as (_ & Hcfg & _).
    assert (F s t (tr ++ (call reenter c h m).2)
              (call reenter c h m).1.1 (call reenter c h m).1.2) as HF1.
    { destruct (is_check c) eqn:Ec.
      - destruct c; try done. simpl.
        rewrite reenter_respects_lock by done. simpl. by rewrite app_nil_r.
      - rewrite call_plain by done. by apply F_call. }
    destruct (call reenter c h m) as [[h1 m1] tr1]. simpl in *.
    assert (_lock m1 = true) as Hlock1
      by (destruct Hcfg as (?&?&?&?&?&?); congruence).
    destruct (IH s t (tr ++ tr1) h1 m1 Hok Hlock1 HF1) as [HF2 Hlock2].
    destruct (meanwhile reenter cs h1 m1) as [[h2 m2] tr2]. simpl in *.
    by rewrite app_assoc.
Qed.

Lemma F_sleep p ms s t tr h m :
  _lock m = true -> F s t tr h m ->
  F s t (tr ++ (sleep reenter iv p ms h m).2)
    (sleep reenter iv p ms h m).1.1 (sleep reenter iv p ms h m).1.2
  /\ _lock (sleep reenter iv p ms h m).1.2 = true.
Proof.
  intros Hlock HF. unfold sleep.
  destruct (F_meanwhile (iv p) s t (tr ++ [Sleep ms]) h m) as [HF' Hl];
    [apply iv_ok|done|by apply F_quiet|].
  destruct (meanwhile reenter (iv p) h m) as [[h1 m1] tr1]. simpl in *.
  split; [|done]. by rewrite cons_middle, app_assoc.
Qed.

Lemma F_delay min_ms max_delta_ms reason s t tr h m :
  _lock m = true -> F s t tr h m ->
  F s t (tr ++ (_delay reenter e iv min_ms max_delta_ms reason h m).1.2)
    (_delay reenter e iv min_ms max_delta_ms reason h m).1.1.1
    (_delay reenter e iv min_ms max_delta_ms reason h m).1.1.2
  /\ _lock (_delay reenter e iv min_ms max_delta_ms reason h m).1.1.2 = true.
Proof.
  intros Hlock HF. unfold _delay.
  destruct (random_randint e 0 max_delta_ms) as [n|];
    [|cbn [fst snd]; by rewrite app_nil_r].
  destruct (0 <? _); [|cbn [fst snd]; by rewrite app_nil_r].
  set (ev := Log DEBUG (Delaying (min_ms + n) reason)).
  destruct (Float.int_truediv (min_ms + n) 1000) as [seconds|];
    [|cbn [fst snd]; split; [by apply F_quiet|done]].
  destruct (F_sleep AtBiasDelay seconds s t (tr ++ [ev]) h m) as [HF' Hl];
    [done|by apply F_quiet|].
  destruct (sleep reenter iv AtBiasDelay _ h m) as [[h1 m1] tr1].
  cbn [fst snd] in *. split; [|done]. by rewrite cons_middle, app_assoc.
Qed.

Lemma F_gap_sleep now s t tr h m :
  _lock m = true -> F s t tr h m ->
  F s t (tr ++ (gap_sleep reenter iv now h m).1.2)
    (gap_sleep reenter iv now h m).1.1.1 (gap_sleep reenter iv now h m).1.1.2
  /\ _lock (gap_sleep reenter iv now h m).1.1.2 = true.
Proof.
  intros Hlock HF. unfold gap_sleep.
  destruct (Float.ltb_int _ _); [|cbn [fst snd]; by rewrite app_nil_r].
  destruct (Float.of_int (_gap m)) as [gap|];
    [|cbn [fst snd]; by rewrite app_nil_r].
  set (gap_delay := Float.sub gap _). set (seconds := Float.div gap_delay _).
  destruct (F_sleep AtGapSleep seconds s t
              (tr ++ [Log DEBUG (GapDelay gap_delay)]) h m) as [HF' Hl];
    [done|by apply F_quiet|].
  destruct (sleep reenter iv AtGapSleep seconds h m) as [[h1 m1] tr1].
  cbn [fst snd] in *. split; [|done]. by rewrite cons_middle, app_assoc.
Qed.

Lemma Post_execute_task k t tr h m :
  _lock m = true -> F Pacing t tr h m ->
  Post (tr ++ (execute_task reenter e iv k h m t).2)
    (execute_task reenter e iv k h m t).1.1
    (execute_task reenter e iv k h m t).1.2.
Proof.
  intros Hlock HF. unfold execute_task.
  destruct (F_meanwhile (iv AtFunc) Awaiting t (tr ++ [Invoke t]) h m)
    as [HF1 Hl1]; [apply iv_ok|done|by apply F_invoke|].
  destruct (meanwhile_frame reenter reenter_respects_lock (iv AtFunc) h m Hlock)
    as (Hh1 & _ & _).
  destruct (meanwhile reenter (iv AtFunc) h m) as [[h1 m1] tr1]. simpl in *.
  subst h1. norm_tr_in HF1.
  destruct (await_func e (func (h t))) as [res|] eqn:Eo.
  - pose proof (F_returns t _ h m1 res (time_ms e k) Eo HF1) as HF2.
    assert (_lock (set_last_execute_at m1 (time_ms e k)) = true) as Hl2 by done.
    change (_callback (set_last_execute_at m1 (time_ms e k)))
      with (_callback m1).
    set (m2 := set_last_execute_at m1 (time_ms e k)) in *.
    destruct (_callback m1) eqn:Ecb.
    + assert (F Returned t (tr ++ Invoke t :: tr1 ++ [Callback res]) h m2) as HF3.
      { replace (tr ++ Invoke t :: tr1 ++ [Callback res])
          with ((tr ++ Invoke t :: tr1) ++ [Callback res])
          by (by rewrite <- app_assoc).
        by apply F_quiet. }
      destruct (call_callback e res) as [| |raises].
      * simpl. apply F_completed in HF3.
        norm_tr_in HF3. by norm_tr.
      * pose proof (F_exception Returned t _ h m2 (or_intror eq_refl) HF3) as HP.
        destruct (on_exception h m2 t) as [[h3 m3] tr3]. simpl in *.
        norm_tr_in HP. by norm_tr.
      * destruct (F_meanwhile (iv AtCallback) Returned t _ h m2 (iv_ok _) Hl2 HF3)
          as [HF4 _].
        destruct (meanwhile_frame reenter reenter_respects_lock
                    (iv AtCallback) h m2 Hl2) as (Hh4 & _ & _).
        destruct (meanwhile reenter (iv AtCallback) h m2) as [[h4 m4] tr4].
        simpl in *. subst h4. destruct raises.
        -- pose proof (F_exception Returned t _ h m4 (or_intror eq_refl) HF4) as HP.
           destruct (on_exception h m4 t) as [[h5 m5] tr5]. simpl in *.
           norm_tr_in HP. by norm_tr.
        -- simpl. apply F_completed in HF4. norm_tr_in HF4. by norm_tr.
    + simpl. apply F_completed in HF2. norm_tr_in HF2. by norm_tr.
  - pose proof (F_exception Awaiting t _ h m1
                  (or_introl (conj eq_refl Eo)) HF1) as HP.
    destruct (on_exception h m1 t) as [[h3 m3] tr3]. simpl in *.
    norm_tr_in HP. by norm_tr.
Qed.

Lemma Post_pace_and_execute k now t tr h m :
  _lock m = true -> F Pacing t tr h m ->
  Post (tr ++ (pace_and_execute reenter e iv k now h m t).2)
    (pace_and_execute reenter e iv k now h m t).1.1
    (pace_and_execute reenter e iv k now h m t).1.2.
Proof.
  intros Hlock HF. unfold pace_and_execute.
  destruct (F_gap_sleep now Pacing t tr h m Hlock HF) as [HF1 Hl1].
  destruct (gap_sleep reenter iv now h m) as [[[h1 m1] tr1] [exc|]];
    cbn [fst snd] in *.
  { rewrite app_assoc. by apply (F_raise t). }
  destruct (F_delay 0 (_bias m1) "(Task Bias)" Pacing t _ h1 m1 Hl1 HF1)
    as [HF2 Hl2].
  destruct (_delay reenter e iv 0 (_bias m1) "(Task Bias)" h1 m1)
    as [[[h2 m2] tr2] [exc|]]; cbn [fst snd] in *.
  { rewrite !app_assoc. by apply (F_raise t). }
  pose proof (Post_execute_task k t _ h2 m2 Hl2 HF2) as HP.
  destruct (execute_task reenter e iv k h2 m2 t) as [[h3 m3] tr3].
  cbn [fst snd] in *. norm_tr_in HP. by norm_tr.
Qed.

Lemma popped_lock h m task rest :
  _lock (popped h m task rest).2 = _lock m.
Proof. done. Qed.

Lemma popped_queue h m task rest :
  _queue (popped h m task rest).2 = rest.
Proof. done. Qed.

(** The rule. *)
Lemma cycle_rule fuel : forall k tr h m,
  (length (_queue m) <= fuel)%nat -> _lock m = true -> L tr h m ->
  Post (tr ++ (execute_loop reenter fuel e iv k h m).2)
    (execute_loop reenter fuel e iv k h m).1.1
    (execute_loop reenter fuel e iv k h m).1.2.
Proof.
  induction fuel as [|fuel IH]; intros k tr h m Hfuel Hlock HL.
  - simpl. rewrite app_nil_r. apply L_exit; [|done].
    destruct (_queue m); [done|simpl in Hfuel; lia].
  - destruct (sort h (_queue m)) as [|task rest] eqn:Hs.
    + apply sort_nil in Hs. rewrite execute_loop_nil by done. simpl.
      rewrite app_nil_r. by apply L_exit.
    + rewrite (execute_loop_S reenter fuel e iv k h m task rest Hs).
      destruct (popped h m task rest) as [h1 m1] eqn:Ep. cbv zeta.
      assert (_lock m1 = true) as Hl1
        by (by rewrite <- Hlock, <- (popped_lock h m task rest), Ep).
      assert (length (_queue m1) <= fuel)%nat as Hfuel1.
      { pose proof (popped_queue h m task rest) as Hq. rewrite Ep in Hq.
        simpl in Hq. rewrite Hq.
        pose proof (sort_length h (_queue m)) as Hlen. rewrite Hs in Hlen.
        simpl in Hlen. lia. }
      pose proof (L_quiets _ tr h m (status_quiet h (task :: rest)) HL) as HL1.
      destruct (is_expired (h1 task) (time_ms e k)) eqn:Ex1;
        [|destruct (expected_execute_time m1) as [t|] eqn:Et;
          [destruct (is_expired (h1 task) t) eqn:Ex2|]].
      * pose proof (L_discard _ h m task rest h1 m1 (TaskExpired task) HL1 Hs Ep
                      (or_introl (conj eq_refl (ex_intro _ k Ex1)))) as HL2.
        pose proof (IH (S k) _ h1 m1 Hfuel1 Hl1 HL2) as HP.
        destruct (execute_loop reenter fuel e iv (S k) h1 m1) as [[h2 m2] tr2].
        cbn [fst snd] in *. norm_tr_in HP. by norm_tr.
      * pose proof (L_discard _ h m task rest h1 m1 (TaskWillExpire task) HL1 Hs Ep
                      (or_intror (conj eq_refl
                                    (ex_intro _ t (conj Et Ex2))))) as HL2.
        pose proof (IH (S k) _ h1 m1 Hfuel1 Hl1 HL2) as HP.
        destruct (execute_loop reenter fuel e iv (S k) h1 m1) as [[h2 m2] tr2].
        cbn [fst snd] in *. norm_tr_in HP. by norm_tr.
      * assert (forall t', expected_execute_time m1 = Some t' ->
                           is_expired (h1 task) t' = false) as Hne
          by (intros t' Ht'; congruence).
        pose proof (L_dispatch _ h m task rest h1 m1 HL1 Hs Ep Hne) as HF.
        pose proof (Post_pace_and_execute (S k) (time_ms e k) task _ h1 m1 Hl1 HF)
          as HP.
        destruct (pace_and_execute reenter e iv (S k) (time_ms e k) h1 m1 task)
          as [[h2 m2] tr2]. cbn [fst snd] in *. norm_tr_in HP. by norm_tr.
      * assert (forall t', expected_execute_time m1 = Some t' ->
                           is_expired (h1 task) t' = false) as Hne
          by (intros t' Ht'; congruence).
        pose proof (L_dispatch _ h m task rest h1 m1 HL1 Hs Ep Hne) as HF.
        pose proof (F_raise task _ h1 m1 OverflowError HF) as HP.
        cbn [fst snd]. norm_tr_in HP. by norm_tr.
Qed.

End CycleRule.

(** ** Mutual exclusion *)

Lemma check_and_execute_with_locked reenter e iv h m :
  _lock m = true -> check_and_execute_with reenter e iv h m = (h, m, []).
Proof. intros Hl. unfold check_and_execute_with. by rewrite Hl. Qed.

Lemma check_and_execute_inner_respects_lock :
  respects_lock check_and_execute_inner.
Proof. intros e h m Hl. by apply check_and_execute_with_locked. Qed.

Lemma check_and_execute_free e iv h m :
  _lock m = false ->
  check_and_execute e iv h m
  = let '(h', m', tr) :=
      _execute_next check_and_execute_inner e iv h
        (set_running (set_lock m true) true) in
    (h', set_lock (set_running m' false) false, tr).
Proof.
  intros Hl. unfold check_and_execute, check_and_execute_with. by rewrite Hl.
Qed.

Section WithoutChecks.
Variable reenter : Env -> Heap -> TaskManager -> Heap * TaskManager * list Event.
Hypothesis reenter_respects_lock : respects_lock reenter.

Lemma sleep_frame iv p ms h m :
  _lock m = true ->
  (sleep reenter iv p ms h m).1.1 = h
  /\ same_config m (sleep reenter iv p ms h m).1.2
  /\ _last_execute_at (sleep reenter iv p ms h m).1.2 = _last_execute_at m.
Proof.
  intros Hl. unfold sleep.
  pose proof (meanwhile_frame reenter reenter_respects_lock (iv p) h m Hl) as HF.
  by destruct (meanwhile reenter (iv p) h m) as [[??]?].
Qed.

Lemma delay_frame e iv min_ms max_delta_ms reason h m :
  _lock m = true ->
  (_delay reenter e iv min_ms max_delta_ms reason h m).1.1.1 = h
  /\ same_config m (_delay reenter e iv min_ms max_delta_ms reason h m).1.1.2
  /\ _last_execute_at (_delay reenter e iv min_ms max_delta_ms reason h m).1.1.2
     = _last_execute_at m.
Proof.
  intros Hl. unfold _delay.
  assert (h = h /\ same_config m m /\ _last_execute_at m = _last_execute_at m)
    as Hsame by (split; [done|]; split; [apply same_config_refl|done]).
  destruct (random_randint e 0 max_delta_ms) as [n|]; [|done].
  destruct (0 <? _); [|done].
  destruct (Float.int_truediv (min_ms + n) 1000) as [seconds|]; [|done].
  pose proof (sleep_frame iv AtBiasDelay seconds h m Hl) as HF.
  by destruct (sleep reenter iv AtBiasDelay _ h m) as [[??]?].
Qed.

Lemma gap_sleep_frame iv now h m :
  _lock m = true ->
  (gap_sleep reenter iv now h m).1.1.1 = h
  /\ same_config m (gap_sleep reenter iv now h m).1.1.2
  /\ _last_execute_at (gap_sleep reenter iv now h m).1.1.2 = _last_execute_at m.
Proof.
  intros Hl. unfold gap_sleep.
  assert (h = h /\ same_config m m /\ _last_execute_at m = _last_execute_at m)
    as Hsame by (split; [done|]; split; [apply same_config_refl|done]).
  destruct (Float.ltb_int _ _); [|done].
  destruct (Float.of_int (_gap m)) as [gap|]; [|done].
  set (seconds := Float.div _ _).
  pose proof (sleep_frame iv AtGapSleep seconds h m Hl) as HF.
  by destruct (sleep reenter iv AtGapSleep _ h m) as [[??]?].
Qed.

Lemma sleep_without_checks iv p ms h m :
  _lock m = true ->
  sleep reenter iv p ms h m = sleep reenter (without_checks iv) p ms h m.
Proof.
  intros Hl. unfold sleep, without_checks.
  by rewrite (meanwhile_without_checks reenter reenter_respects_lock).
Qed.

Lemma delay_without_checks e iv min_ms max_delta_ms reason h m :
  _lock m = true ->
  _delay reenter e iv min_ms max_delta_ms reason h m
  = _delay reenter e (without_checks iv) min_ms max_delta_ms reason h m.
Proof.
  intros Hl. unfold _delay.
  destruct (random_randint e 0 max_delta_ms) as [n|]; [|done].
  destruct (0 <? _); [|done].
  destruct (Float.int_truediv (min_ms + n) 1000) as [seconds|]; [|done].
  by rewrite sleep_without_checks.
Qed.

Lemma gap_sleep_without_checks iv now h m :
  _lock m = true ->
  gap_sleep reenter iv now h m = gap_sleep reenter (without_checks iv) now h m.
Proof.
  intros Hl. unfold gap_sleep.
  destruct (Float.ltb_int _ _); [|done].
  destruct (Float.of_int (_gap m)) as [gap|]; [|done].
  by rewrite sleep_without_checks.
Qed.

Lemma execute_task_without_checks e iv k h m task :
  _lock m = true ->
  execute_task reenter e iv k h m task
  = execute_task reenter e (without_checks iv) k h m task.
Proof.
  intros Hl. unfold execute_task.
  rewrite (meanwhile_without_checks reenter reenter_respects_lock (iv AtFunc))
    by done.
  change (filter (fun c => is_check c = false) (iv AtFunc))
    with (without_checks iv AtFunc).
  pose proof (meanwhile_frame reenter reenter_respects_lock
                (without_checks iv AtFunc) h m Hl) as (_ & Hcfg & _).
  destruct (meanwhile reenter (without_checks iv AtFunc) h m) as [[h1 m1] tr1].
  simpl in Hcfg.
  assert (_lock m1 = true) as Hl1 by (destruct Hcfg as (?&?&?&?&?&?); congruence).
  destruct (await_func e (func (h1 task))); [|done].
  destruct (_callback _); [|done].
  destruct (call_callback e result); [done|done|].
  by rewrite (meanwhile_without_checks reenter reenter_respects_lock
                (iv AtCallback)) by done.
Qed.

Lemma pace_and_execute_without_checks e iv k now h m task :
  _lock m = true ->
  pace_and_execute reenter e iv k now h m task
  = pace_and_execute reenter e (without_checks iv) k now h m task.
Proof.
  intros Hl. unfold pace_and_execute.
  rewrite (gap_sleep_without_checks iv) by done.
  pose proof (gap_sleep_frame (without_checks iv) now h m Hl) as (_ & Hcfg & _).
  destruct (gap_sleep reenter (without_checks iv) now h m)
    as [[[h1 m1] tr1] [exc|]]; [done|]. cbn [fst snd] in Hcfg.
  assert (_lock m1 = true) as Hl1 by (destruct Hcfg as (?&?&?&?&?&?); congruence).
  rewrite (delay_without_checks e iv) by done.
  pose proof (delay_frame e (without_checks iv) 0 (_bias m1) "(Task Bias)" h1 m1 Hl1)
    as (_ & Hcfg2 & _).
  destruct (_delay reenter e (without_checks iv) 0 (_bias m1) "(Task Bias)" h1 m1)
    as [[[h2 m2] tr2] [exc|]]; [done|]. cbn [fst snd] in Hcfg2.
  rewrite (execute_task_without_checks e iv); [done|].
  destruct Hcfg2 as (?&?&?&?&?&?); congruence.
Qed.

Lemma execute_loop_without_checks e iv fuel : forall k h m,
  _lock m = true ->
  execute_loop reenter fuel e iv k h m
  = execute_loop reenter fuel e (without_checks iv) k h m.
Proof.
  induction fuel as [|fuel IH]; intros k h m Hl; [done|].
  destruct (sort h (_queue m)) as [|task rest] eqn:Hs.
  - apply sort_nil in Hs. by rewrite !execute_loop_nil.
  - rewrite !(execute_loop_S reenter fuel e _ k h m task rest Hs).
    destruct (popped h m task rest) as [h1 m1] eqn:Ep. cbv zeta.
    assert (_lock m1 = true) as Hl1
      by (by rewrite <- Hl, <- (popped_lock h m task rest), Ep).
    rewrite (IH (S k) h1 m1 Hl1).
    by rewrite (pace_and_execute_without_checks e iv).
Qed.

End WithoutChecks.

(** C9. A call of [check_and_execute] that finds the lock taken returns at
    once: same objects, same manager, no event (so no sort, no aging, no
    sleep, no action). [check_and_execute] holds the lock for the whole
    cycle, so the invocations other coroutines make during its awaits are
    exactly such calls: dropping them from the interference changes
    neither the result nor the trace of the cycle. The lock is free again
    when the cycle returns. *)
Theorem check_and_execute_mutual_exclusion (e : Env) (iv : Interference)
    (h : Heap) (m : TaskManager) :
  (_lock m = true -> check_and_execute e iv h m = (h, m, []))
  /\ check_and_execute e iv h m = check_and_execute e (without_checks iv) h m
  /\ (_lock m = false -> _lock (check_and_execute e iv h m).1.2 = false).
Proof.
  split; [apply check_and_execute_with_locked|]. split.
  - destruct (_lock m) eqn:Hl.
    + unfold check_and_execute. by rewrite !check_and_execute_with_locked.
    + rewrite !check_and_execute_free by done. unfold _execute_next.
      by rewrite (execute_loop_without_checks _
                    check_and_execute_inner_respects_lock e iv).
  - intros Hl. rewrite check_and_execute_free by done.
    by destruct (_execute_next _ _ _ _ _) as [[??]?].
Qed.

Lemma check_and_execute_mutual_exclusion_witness :
  let iv : Interference := fun _ => [CallCheckAndExecute (ex_env Raises CbReturns)] in
  let m := set_lock (enqueue ex_heap ex_manager [1%nat; 2%nat]) true in
  _lock m = true
  /\ check_and_execute (ex_env (Returns 0%nat) CbReturns) iv ex_heap m
     = (ex_heap, m, []).
Proof.
  intros iv m. split; [done|].
  apply (proj1 (check_and_execute_mutual_exclusion
                  (ex_env (Returns 0%nat) CbReturns) iv ex_heap m)).
  done.
Defined.

(** ** The counters *)

Lemma count_tag_cons h c x q :
  count_tag h c (x :: q)
  = ((if decide (tag (h x) = c) then 1 else 0) + count_tag h c q)%nat.
Proof.
  unfold count_tag. rewrite filter_cons. by destruct (decide (tag (h x) = c)).
Qed.

Lemma count_tag_app h c q1 q2 :
  count_tag h c (q1 ++ q2) = (count_tag h c q1 + count_tag h c q2)%nat.
Proof. unfold count_tag. by rewrite filter_app, length_app. Qed.

Lemma count_tag_perm h c q1 q2 : q1 ≡ₚ q2 -> count_tag h c q1 = count_tag h c q2.
Proof. intros Hp. unfold count_tag. by rewrite Hp. Qed.

Lemma count_tag_same_static h h' c q :
  same_static h h' -> count_tag h' c q = count_tag h c q.
Proof.
  intros Hs. induction q as [|x q IH]; [done|].
  rewrite !count_tag_cons, IH. destruct (Hs x) as (_&_&_&->). done.
Qed.

Lemma count_tag_filter_ne h c c0 q :
  count_tag h c (filter (fun t => tag (h t) ≠ c0) q)
  = if decide (c = c0) then 0%nat else count_tag h c q.
Proof.
  induction q as [|x q IH]; [by destruct (decide (c = c0))|].
  rewrite filter_cons. destruct (decide (tag (h x) ≠ c0)) as [Hne|Heq].
  - rewrite !count_tag_cons, IH. destruct (decide (c = c0)) as [->|]; [|done].
    by rewrite decide_False.
  - apply dec_stable in Heq. rewrite IH, count_tag_cons.
    destruct (decide (c = c0)) as [->|Hc]; [done|].
    rewrite decide_False; [done|congruence].
Qed.

Lemma counter_get_present m c v dflt :
  counter_get m c 0 = v -> v <> 0 -> counter_get m c dflt = v.
Proof.
  unfold counter_get. destruct (_task_type_counter m !! c); simpl; congruence.
Qed.

Lemma counters_exact_add_task h m task :
  counters_exact h m -> counters_exact h (add_task h m task).1.1.
Proof.
  intros Hinv c. unfold add_task. destruct (_ <=? _); simpl; [apply Hinv|].
  rewrite counter_get_insert, count_tag_app, count_tag_cons.
  destruct (decide (tag (h task) = c)) as [->|Hne].
  - rewrite (Hinv c). change (count_tag h c []) with 0%nat. lia.
  - change (default 0 (_task_type_counter m !! c)) with (counter_get m c 0).
    rewrite (Hinv c). change (count_tag h c []) with 0%nat. lia.
Qed.

Lemma counters_exact_clear h m : counters_exact h (clear m).1.
Proof. intros c. done. Qed.

Lemma counters_exact_remove_by_type h m task_type :
  counters_exact h m -> counters_exact h (remove_by_type h m task_type).1.1.
Proof.
  intros Hinv c. unfold remove_by_type. simpl.
  rewrite counter_get_insert, count_tag_filter_ne.
  destruct (decide (task_type = c)) as [->|Hne].
  - by rewrite decide_True.
  - rewrite decide_False by done. apply Hinv.
Qed.

Lemma counters_exact_plain_call c h m :
  is_check c = false -> counters_exact h m ->
  counters_exact (plain_call c h m).1.1 (plain_call c h m).1.2.
Proof.
  intros Hc Hinv. destruct c as [task| |ty|e]; simpl.
  - pose proof (counters_exact_add_task h m task Hinv) as H.
    by destruct (add_task h m task) as [[??]?].
  - apply counters_exact_clear.
  - by apply counters_exact_remove_by_type.
  - done.
Qed.

Lemma counters_exact_same_static h h' m :
  same_static h h' -> counters_exact h m -> counters_exact h' m.
Proof. intros Hs Hinv c. rewrite (count_tag_same_static h h') by done. apply Hinv. Qed.

Lemma counters_exact_popped h m task rest :
  counters_exact h m -> sort h (_queue m) = task :: rest ->
  counters_exact (popped h m task rest).1 (popped h m task rest).2.
Proof.
  intros Hinv Hs c. unfold popped. cbn [fst snd].
  rewrite (count_tag_same_static h) by apply aging_same_static.
  rewrite aging_tag, counter_get_insert. cbn [_queue set_queue set_counter].
  pose proof (count_tag_perm h c _ _ (sort_perm h (_queue m))) as Hc.
  rewrite Hs, count_tag_cons in Hc.
  destruct (decide (tag (h task) = c)) as [->|Hne].
  - pose proof (Hinv c) as Hi. rewrite <- Hc in Hi.
    rewrite (counter_get_present m _ _ 1 Hi) by lia. lia.
  - change (default 0 (_task_type_counter m !! c)) with (counter_get m c 0).
    rewrite (Hinv c). lia.
Qed.

Lemma counters_exact_on_exception h m task :
  counters_exact h m ->
  counters_exact (on_exception h m task).1.1 (on_exception h m task).1.2.
Proof.
  intros Hinv. unfold on_exception. destruct (_ <? _); [|done].
  set (h' := store h task (set_retry (h task) (retry (h task) + 1))).
  assert (counters_exact h' m) as Hinv'.
  { eapply counters_exact_same_static; [|done]. by apply store_same_static. }
  pose proof (counters_exact_add_task h' m task Hinv') as H.
  by destruct (add_task h' m task) as [[??]?].
Qed.

Lemma counters_exact_config h m m' :
  _queue m' = _queue m -> _task_type_counter m' = _task_type_counter m ->
  counters_exact h m -> counters_exact h m'.
Proof. intros Hq Hc Hinv c. unfold counter_get. rewrite Hq, Hc. apply Hinv. Qed.

Lemma counters_exact_cycle reenter e iv h m :
  respects_lock reenter -> counters_exact h m ->
  counters_exact (check_and_execute_with reenter e iv h m).1.1
    (check_and_execute_with reenter e iv h m).1.2.
Proof.
  intros Hre Hinv. unfold check_and_execute_with.
  destruct (_lock m) eqn:Hl; [done|]. unfold _execute_next.
  set (m0 := set_running (set_lock m true) true).
  assert (counters_exact (execute_loop reenter (length (_queue m0)) e iv 0 h m0).1.1
            (execute_loop reenter (length (_queue m0)) e iv 0 h m0).1.2) as HP.
  { refine (cycle_rule reenter Hre e iv (fun _ => True)
              (fun p => Forall_true _ (iv p) (fun _ => I))
              (fun _ h m => counters_exact h m)
              (fun _ _ _ h m => counters_exact h m)
              (fun _ h m => counters_exact h m)
              _ _ _ _ _ _ _ _ _ _ _ (length (_queue m0)) 0%nat [] h m0 _ _ _);
      try done.
    - intros tr h0 m1 task rest h1 m1' msg H0 Hs Ep _.
      pose proof (counters_exact_popped h0 m1 task rest H0 Hs) as H.
      by rewrite Ep in H.
    - intros tr h0 m1 task rest h1 m1' H0 Hs Ep _.
      pose proof (counters_exact_popped h0 m1 task rest H0 Hs) as H.
      by rewrite Ep in H.
    - intros s t tr h0 m1 c _ Hc H0. by apply counters_exact_plain_call.
    - intros s t tr h0 m1 _ H0. by apply counters_exact_on_exception. }
  by destruct (execute_loop reenter (length (_queue m0)) e iv 0 h m0) as [[h' m'] tr'].
Qed.

Lemma counters_exact_step s h m :
  counters_exact h m -> counters_exact (step s h m).1.1 (step s h m).1.2.
Proof.
  intros Hinv. destruct s as [c|e iv]; simpl.
  - destruct (is_check c) eqn:Ec.
    + destruct c; try done. simpl.
      by apply counters_exact_cycle.
    + rewrite call_plain by done. by apply counters_exact_plain_call.
  - apply counters_exact_cycle; [|done].
    apply check_and_execute_inner_respects_lock.
Qed.

Lemma counters_exact_run steps : forall h m,
  counters_exact h m -> counters_exact (run steps h m).1.1 (run steps h m).1.2.
Proof.
  induction steps as [|s steps IH]; intros h m Hinv; [done|]. simpl.
  pose proof (counters_exact_step s h m Hinv) as H1.
  destruct (step s h m) as [[h1 m1] tr1]. simpl in H1.
  pose proof (IH h1 m1 H1) as H2.
  by destruct (run steps h1 m1) as [[h2 m2] tr2].
Qed.

(** C4. Every counter equals the number of queued tasks of its category:
    this holds of a new manager, every step ([add_task], [clear],
    [remove_by_type], [check_and_execute] under any environment and any
    interference during its awaits) preserves it, hence it holds after
    every run. Popping a task takes exactly one off the counter of its
    category and leaves the others; admission adds exactly one (C3). *)
Theorem counters_always_exact :
  (forall cb gap bias rc h, counters_exact h (TaskManager_init cb gap bias rc))
  /\ (forall s h m,
        counters_exact h m -> counters_exact (step s h m).1.1 (step s h m).1.2)
  /\ (forall steps cb gap bias rc h,
        let r := run steps h (TaskManager_init cb gap bias rc) in
        counters_exact r.1.1 r.1.2)
  /\ (forall h m task rest,
        counters_exact h m -> sort h (_queue m) = task :: rest ->
        let m1 := (popped h m task rest).2 in
        counter_get m1 (tag (h task)) 0 = counter_get m (tag (h task)) 0 - 1
        /\ forall c, c <> tag (h task) -> counter_get m1 c 0 = counter_get m c 0).
Proof.
  split; [by intros ????? c|]. split; [apply counters_exact_step|].
  split; [intros; by apply counters_exact_run|].
  intros h m task rest Hinv Hs m1.
  pose proof (counters_exact_popped h m task rest Hinv Hs) as H1.
  fold m1 in H1. split.
  - rewrite (H1 (tag (h task))), (Hinv (tag (h task))).
    rewrite (count_tag_same_static h) by apply aging_same_static.
    rewrite (count_tag_perm h _ _ _ (symmetry (sort_perm h (_queue m)))), Hs.
    subst m1. cbn [popped snd _queue set_counter set_queue].
    rewrite count_tag_cons, decide_True by done. lia.
  - intros c Hne. subst m1. unfold popped. cbn [snd].
    rewrite counter_get_insert, aging_tag, decide_False by done. done.
Qed.

Lemma counters_always_exact_witness :
  let m := enqueue ex_heap ex_manager [3%nat; 1%nat] in
  counters_exact ex_heap m
  /\ counters_exact
       (step (Cycle (ex_env Raises CbReturns) undisturbed) ex_heap m).1.1
       (step (Cycle (ex_env Raises CbReturns) undisturbed) ex_heap m).1.2.
Proof.
  intros m.
  assert (counters_exact ex_heap m) as Hinv by (by intros []).
  split; [done|].
  by apply (proj1 (proj2 counters_always_exact)).
Defined.

(** ** The controller *)

Lemma PlayerState_of_BotState_value (s : BotState.t) :
  exists ps, PlayerState.of_value (BotState.value s) = Some ps
             /\ PlayerState.value ps = BotState.value s.
Proof. destruct s; eexists; split; reflexivity. Qed.

(** C8. [update_state] with the state the controller already has changes
    nothing: the controller is returned as it was and only the
    "current player state" line is logged, so no emit is scheduled and no
    handler runs. With any other state it sets the player state to the
    member of the same value, records the new state, and schedules one
    emit of it. *)
Theorem update_state_idempotent (c : Controller.t) (new_state : BotState.t) :
  (Controller._current_state c = Some new_state ->
   Controller.update_state c new_state
   = Some (c, [Controller.LogCurrentPlayerState
                 (PlayerState.value (Controller.player_state c))]))
  /\ (Controller._current_state c <> Some new_state ->
      exists ps,
        PlayerState.value ps = BotState.value new_state
        /\ Controller.update_state c new_state
           = Some ({| Controller.player_state := ps;
                      Controller._current_state := Some new_state |},
                   [Controller.LogCurrentPlayerState
                      (PlayerState.value (Controller.player_state c));
                    Controller.LogChangingState (BotState.value new_state);
                    Controller.CreateTaskEmit new_state])).
Proof.
  unfold Controller.update_state. split; intros Hc.
  - by rewrite decide_False by (by intros ?).
  - rewrite decide_True by done.
    destruct (PlayerState_of_BotState_value new_state) as (ps & -> & Hv).
    by exists ps.
Qed.

Lemma update_state_idempotent_witness :
  let c := {| Controller.player_state := PlayerState.RUNNING;
              Controller._current_state := Some BotState.RUNNING |} in
  Controller._current_state c = Some BotState.RUNNING
  /\ Controller.update_state c BotState.RUNNING
     = Some (c, [Controller.LogCurrentPlayerState "running"]).
Proof.
  intros c. split; [done|].
  by apply (proj1 (update_state_idempotent c BotState.RUNNING)).
Defined.

(** ** A completion callback that raises *)

(** Without interference, the [try] statement on a task whose action
    returns and whose callback (if any) does not raise only records the
    time and logs the completion. *)
Lemma execute_task_completed reenter e k h m task res :
  await_func e (func (h task)) = Returns res ->
  (_callback m = false \/ call_callback e res = CbReturns
   \/ call_callback e res = CbCoroutine false) ->
  exists tr,
    execute_task reenter e undisturbed k h m task
    = (h, set_last_execute_at m (time_ms e k),
       Invoke task :: tr ++ [Log INFO (TaskCompleted task)]).
Proof.
  intros Hret Hcb. unfold execute_task. simpl. rewrite Hret.
  destruct (_callback m) eqn:Ecb.
  - destruct Hcb as [?|[-> | ->]]; [done|by exists [Callback res]..].
  - by exists [].
Qed.

(** When the action returns and the callback raises, at the call or when
    awaited, the [except] handler runs on the task. *)
Lemma execute_task_callback_raises reenter e k h m task res :
  await_func e (func (h task)) = Returns res -> _callback m = true ->
  (call_callback e res = CbRaises \/ call_callback e res = CbCoroutine true) ->
  execute_task reenter e undisturbed k h m task
  = let '(h', m', tr) :=
      on_exception h (set_last_execute_at m (time_ms e k)) task in
    (h', m', Invoke task :: Callback res :: tr).
Proof.
  intros Hret Hcb Hraise. unfold execute_task. simpl. rewrite Hret, Hcb.
  destruct Hraise as [-> | ->]; simpl;
    by destruct (on_exception h _ task) as [[??]?].
Qed.

(** C1. The completion callback is called inside the [try] whose handler
    retries the task. Here the queue holds the one task [2], its action
    returns, and the callback raises: the failure is logged as a task
    failure, the retry counter goes from 0 to 1 and the task, whose action
    has completed, is back in the queue. *)
Theorem callback_failure_triggers_retry :
  let m := enqueue ex_heap ex_manager [2%nat] in
  let r := check_and_execute (ex_env (Returns 0%nat) CbRaises) undisturbed
             ex_heap m in
  _queue m = [2%nat] /\ retry (ex_heap 2%nat) = 0
  /\ _queue r.1.2 = [2%nat] /\ retry (r.1.1 2%nat) = 1
  /\ r.2 = [Log DEBUG QueueInfo; Log DEBUG (QueueLine (-999) 2%nat);
            Log INFO (Checking 2%nat);
            Log DEBUG (Delaying 10 "(Task Bias)");
            Sleep (S754_finite false 5764607523034235 (-59)); (* 10 / 1000 *)
            Invoke 2%nat; Callback 0%nat;
            Log ERROR (TaskFailed 2%nat); Log INFO (Retrying 2 2%nat);
            Log INFO (TryAddTask 2%nat); Log INFO (AddSuccess 2%nat)].
Proof. vm_compute. by repeat split. Qed.

(** ** Expiry *)

Lemma is_expired_aged h q task t :
  is_expired (_priority_aging h q task) t = is_expired (h task) t.
Proof. unfold is_expired. by rewrite aging_expire_at. Qed.

Lemma add_task_logs h m task : Forall is_log (add_task h m task).2.
Proof. unfold add_task. destruct (_ <=? _); simpl; by repeat constructor. Qed.

Lemma plain_call_logs c h m :
  is_check c = false -> Forall is_log (plain_call c h m).2.
Proof.
  intros Hc. destruct c as [task| |ty|e]; simpl; try done.
  - pose proof (add_task_logs h m task). by destruct (add_task h m task) as [[??]?].
  - by repeat constructor.
  - by repeat constructor.
Qed.

Lemma plain_call_heap c h m : is_check c = false -> (plain_call c h m).1.1 = h.
Proof.
  intros Hc. destruct c as [task| |ty|e]; simpl; try done.
  by destruct (add_task h m task) as [[??]?].
Qed.

Lemma on_exception_logs h m task : Forall is_log (on_exception h m task).2.
Proof.
  unfold on_exception. destruct (_ <? _); [|by repeat constructor].
  set (h' := store _ _ _). pose proof (add_task_logs h' m task).
  destruct (add_task h' m task) as [[??]?]. by repeat constructor.
Qed.

Lemma on_exception_heap_other h m task x :
  x <> task -> (on_exception h m task).1.1 x = h x.
Proof.
  intros Hne. unfold on_exception. destruct (_ <? _); [|done].
  set (h' := store _ _ _). destruct (add_task h' m task) as [[??]?]. simpl.
  subst h'. by rewrite store_ne.
Qed.

Lemma logs_no_invoke tr x : Forall is_log tr -> Invoke x ∉ tr.
Proof.
  intros Hl Hin. rewrite Forall_forall in Hl. by apply Hl in Hin.
Qed.

Lemma quiet_no_invoke ev x : quiet ev -> Invoke x ∉ [ev].
Proof. intros Hq Hin. apply list_elem_of_singleton in Hin. by subst. Qed.

(** Only tasks that are in the queue when the loop starts are invoked,
    and only they have their retry counter changed. *)
Lemma execute_loop_touches_queued reenter e iv fuel k h m :
  respects_lock reenter -> _lock m = true ->
  (length (_queue m) <= fuel)%nat ->
  forall x, x ∉ _queue m ->
    (Invoke x ∉ (execute_loop reenter fuel e iv k h m).2)
    /\ retry ((execute_loop reenter fuel e iv k h m).1.1 x) = retry (h x).
Proof.
  intros Hre Hl Hfuel x Hx.
  refine (cycle_rule reenter Hre e iv (fun _ => True)
            (fun p => Forall_true _ (iv p) (fun _ => I))
            (fun tr h' m' =>
               (x ∉ _queue m') /\ (Invoke x ∉ tr) /\ retry (h' x) = retry (h x))
            (fun _ t tr h' _ =>
               t <> x /\ (Invoke x ∉ tr) /\ retry (h' x) = retry (h x))
            (fun tr h' _ => (Invoke x ∉ tr) /\ retry (h' x) = retry (h x))
            _ _ _ _ _ _ _ _ _ _ _ fuel k [] h m Hfuel Hl _).
  - intros tr h0 m0 ev Hq (Hq0 & Hi & Hr). split; [done|]. split; [|done].
    rewrite not_elem_of_app. split; [done|by apply quiet_no_invoke].
  - by intros tr h0 m0 _ (Hq0 & Hi & Hr).
  - intros tr h0 m0 task rest h1 m1 msg (Hq & Hi & Hr) Hs Ep _.
    apply popped_inv in Ep as (-> & Hq1 & _). rewrite Hq1. split; [|split].
    + intros Hin. apply Hq. rewrite <- (sort_perm h0), Hs. by right.
    + rewrite not_elem_of_app. split; [done|].
      apply logs_no_invoke. by repeat constructor.
    + by rewrite aging_retry.
  - intros tr h0 m0 task rest h1 m1 (Hq & Hi & Hr) Hs Ep _.
    apply popped_inv in Ep as (-> & Hq1 & _). split; [|split].
    + intros ->. apply Hq. rewrite <- (sort_perm h0), Hs. by left.
    + rewrite not_elem_of_app. split; [done|].
      apply logs_no_invoke. by repeat constructor.
    + by rewrite aging_retry.
  - intros s t tr h0 m0 ev Hq (Hq0 & Hi & Hr). split; [done|]. split; [|done].
    rewrite not_elem_of_app. split; [done|by apply quiet_no_invoke].
  - intros s t tr h0 m0 c _ Hc (Hq0 & Hi & Hr). rewrite plain_call_heap by done.
    split; [done|]. split; [|done]. rewrite not_elem_of_app. split; [done|].
    by apply logs_no_invoke, plain_call_logs.
  - intros t tr h0 m0 (Hq0 & Hi & Hr). split; [done|]. split; [|done].
    rewrite not_elem_of_app. split; [done|].
    intros Hin%list_elem_of_singleton. congruence.
  - intros t tr h0 m0 res ts _ (Hq0 & Hi & Hr). by repeat split.
  - intros t tr h0 m0 (Hq0 & Hi & Hr). split; [|done].
    rewrite not_elem_of_app. split; [done|].
    apply logs_no_invoke. by repeat constructor.
  - intros s t tr h0 m0 _ (Hq0 & Hi & Hr).
    rewrite on_exception_heap_other by done.
    split; [|done]. rewrite not_elem_of_app. split; [done|].
    apply logs_no_invoke, on_exception_logs.
  - intros t tr h0 m0 exc (Hq0 & Hi & Hr). split; [|done].
    rewrite not_elem_of_app. split; [done|].
    intros Hin%list_elem_of_singleton. congruence.
  - split; [done|]. split; [apply not_elem_of_nil|done].
Qed.

(** C6. When the task popped by an iteration of the loop has [expire_at]
    earlier than the clock reading, or earlier than
    [_last_execute_at + _gap + _bias / 2] (the sum the code computes, in
    [float]s), the iteration only logs the discard and the loop goes round
    again, in the same cycle, on the remaining tasks: the queue is one
    shorter, nothing is slept, and, the object not being queued a second
    time, its action is not invoked in this cycle and its retry counter
    stays as it was. *)
Theorem expired_task_discarded (e : Env) (iv : Interference) (fuel k : nat)
    (h : Heap) (m : TaskManager) (task : ref) (rest : list ref) :
  _lock m = true ->
  sort h (_queue m) = task :: rest ->
  (length rest <= fuel)%nat ->
  (Float.ltb (expire_at (h task)) (time_ms e k) = true
   \/ exists t, expected_execute_time m = Some t
                /\ Float.ltb (expire_at (h task)) t = true) ->
  let '(h1, m1) := popped h m task rest in
  let '(h', m', tr) :=
    execute_loop check_and_execute_inner fuel e iv (S k) h1 m1 in
  exists msg,
    (msg = TaskExpired task \/ msg = TaskWillExpire task)
    /\ execute_loop check_and_execute_inner (S fuel) e iv k h m
       = (h', m', _log_queue_status h (task :: rest)
                  ++ Log INFO (Checking task) :: Log WARNING msg :: tr)
    /\ _queue m1 = rest
    /\ queue_size m1 = queue_size m - 1
    /\ (task ∉ rest ->
        (Invoke task ∉ _log_queue_status h (task :: rest)
                       ++ Log INFO (Checking task) :: Log WARNING msg :: tr)
        /\ retry (h' task) = retry (h task)).
Proof.
  intros Hl Hs Hfuel Hexp.
  rewrite (execute_loop_S check_and_execute_inner fuel e iv k h m task rest Hs).
  destruct (popped h m task rest) as [h1 m1] eqn:Ep. cbv zeta.
  pose proof Ep as Ep'.
  apply popped_inv in Ep' as (Hh1 & Hq1 & Hcfg & Hlast).
  assert (_lock m1 = true) as Hl1 by (destruct Hcfg as (?&?&?&?&?&?); congruence).
  assert (expected_execute_time m1 = expected_execute_time m) as Hexp_time.
  { unfold expected_execute_time. destruct Hcfg as (-> & -> & _). by rewrite Hlast. }
  assert (forall t, is_expired (h1 task) t = is_expired (h task) t) as Hsame.
  { intros t. rewrite Hh1. apply is_expired_aged. }
  assert (queue_size m1 = queue_size m - 1) as Hsize.
  { unfold queue_size. rewrite Hq1, <- (sort_length h (_queue m)), Hs. simpl. lia. }
  destruct (execute_loop check_and_execute_inner fuel e iv (S k) h1 m1)
    as [[h' m'] tr] eqn:Eloop.
  assert (task ∉ rest -> (Invoke task ∉ tr) /\ retry (h' task) = retry (h task))
    as Hrest.
  { intros Hnin.
    destruct (execute_loop_touches_queued check_and_execute_inner e iv fuel
                (S k) h1 m1 check_and_execute_inner_respects_lock Hl1
                ltac:(by rewrite Hq1) task ltac:(by rewrite Hq1)) as [Hi Hr].
    rewrite Eloop in Hi, Hr. simpl in Hi, Hr. split; [done|].
    by rewrite Hr, Hh1, aging_retry. }
  assert (forall msg, task ∉ rest ->
            Invoke task ∉ _log_queue_status h (task :: rest)
                          ++ Log INFO (Checking task) :: Log WARNING msg :: tr)
    as Hninv.
  { intros msg Hnin. rewrite not_elem_of_app. split.
    - intros Hin. pose proof (status_quiet h (task :: rest)) as Hq.
      rewrite Forall_forall in Hq. by apply Hq in Hin.
    - rewrite !not_elem_of_cons. split; [done|]. split; [done|].
      by apply Hrest. }
  rewrite !Hsame. destruct (is_expired (h task) (time_ms e k)) eqn:E1.
  - exists (TaskExpired task). split; [by left|]. split.
    { by rewrite <- app_assoc. }
    split; [done|]. split; [done|]. intros Hnin. split; [by apply Hninv|].
    by apply Hrest.
  - rewrite Hexp_time.
    destruct Hexp as [Hexp|(t & -> & Hexp)]; unfold is_expired in *;
      [congruence|]. rewrite Hsame. unfold is_expired. rewrite Hexp.
    exists (TaskWillExpire task). split; [by right|]. split.
    { by rewrite <- app_assoc. }
    split; [done|]. split; [done|]. intros Hnin. split; [by apply Hninv|].
    by apply Hrest.
Qed.

Lemma expired_task_discarded_witness :
  let m := set_lock (enqueue ex_heap ex_manager [0%nat; 1%nat]) true in
  let e := ex_env (Returns 0%nat) CbReturns in
  _lock m = true
  /\ sort ex_heap (_queue m) = [0%nat; 1%nat]
  /\ (length [1%nat] <= 1)%nat
  /\ Float.ltb (expire_at (ex_heap 0%nat)) (time_ms e 0) = true
  /\ exists h' m' tr,
       execute_loop check_and_execute_inner 2 e undisturbed 0 ex_heap m
       = (h', m', tr)
       /\ (Invoke 0%nat ∉ tr) /\ retry (h' 0%nat) = retry (ex_heap 0%nat).
Proof.
  intros m e.
  assert (_lock m = true) as H1 by done.
  assert (sort ex_heap (_queue m) = [0%nat; 1%nat]) as H2 by done.
  assert (length [1%nat] <= 1)%nat as H3 by (simpl; lia).
  assert (Float.ltb (expire_at (ex_heap 0%nat)) (time_ms e 0) = true) as H4
    by done.
  do 4 (split; [done|]).
  pose proof (expired_task_discarded e undisturbed 1 0 ex_heap m 0%nat [1%nat]
                H1 H2 H3 (or_introl H4)) as W.
  destruct (popped ex_heap m 0%nat [1%nat]) as [h1 m1].
  destruct (execute_loop check_and_execute_inner 1 e undisturbed 1 h1 m1)
    as [[h' m'] tr].
  destruct W as (msg & _ & E & _ & _ & Hno).
  eexists _, _, _. split; [exact E|]. apply Hno.
  intros Hin%list_elem_of_singleton. discriminate.
Defined.

(** The projected time of the second check is the rounded sum. With a gap
    of 2^53 + 1, no bias and [_last_execute_at] at 0 it is 2^53, so a task
    that expires at 2^53 is not discarded, though 2^53 is earlier than the
    exact sum, and its action is awaited. *)
Lemma projected_time_is_rounded :
  let h : Heap := fun _ => Task_new 0%nat (Float.of_Z (2 ^ 53)) "" CMD 0 0 in
  let m := enqueue h (TaskManager_init false (2 ^ 53 + 1) 0 2) [0%nat] in
  let e := ex_env_at 0 (Returns 0%nat) CbReturns in
  expected_execute_time m = Some (Float.of_Z (2 ^ 53))
  /\ discards (check_and_execute e undisturbed h m).2 = 0%nat
  /\ dispatches 0%nat (check_and_execute e undisturbed h m).2 = 1%nat.
Proof. vm_compute. by repeat split. Qed.

(** ** Traces *)

Lemma count_events_app p tr1 tr2 :
  count_events p (tr1 ++ tr2) = (count_events p tr1 + count_events p tr2)%nat.
Proof. induction tr1 as [|ev tr1 IH]; simpl; [done|]. rewrite IH. lia. Qed.

Lemma count_events_none p tr :
  Forall (fun ev => p ev = false) tr -> count_events p tr = 0%nat.
Proof. induction 1 as [|ev tr Hev _ IH]; simpl; [done|]. by rewrite Hev, IH. Qed.



Lemma logs_count p tr :
  (forall lvl msg, p (Log lvl msg) = false) -> Forall is_log tr ->
  count_events p tr = 0%nat.
Proof.
  intros Hp Hl. apply count_events_none. eapply Forall_impl; [exact Hl|].
  intros [lvl msg|?|?|?|?] Hx; simpl in *; [apply Hp|done..].
Qed.

Lemma quiet_count p ev :
  (forall msg, p (Log DEBUG msg) = false) -> (forall ms, p (Sleep ms) = false) ->
  (forall res, p (Callback res) = false) ->
  quiet ev -> count_events p [ev] = 0%nat.
Proof.
  intros H1 H2 H3 Hq. destruct ev as [[] msg|ms|t|res|exc]; simpl in *; try done.
  - by rewrite H1.
  - by rewrite H2.
  - by rewrite H3.
Qed.

(** ** Effects of the public calls on the queue *)

Lemma add_task_cases h m x :
  add_task h m x
  = (m, false, [Log INFO (TryAddTask x); Log WARNING (AddFail (tag (h x)))])
  \/ exists m', add_task h m x
                = (m', true, [Log INFO (TryAddTask x); Log INFO (AddSuccess x)])
       /\ _queue m' = _queue m ++ [x].
Proof.
  unfold add_task. destruct (_ <=? _); [by left|]. right. by eexists.
Qed.

Lemma occurrences_filter_tag h r ty q :
  occurrences r (filter (fun t => tag (h t) ≠ ty) q)
  = if decide (tag (h r) = ty) then 0%nat else occurrences r q.
Proof.
  induction q as [|x q IH]; [by destruct (decide _)|].
  rewrite filter_cons. destruct (decide (tag (h x) ≠ ty)) as [Hne|Heq].
  - rewrite !occurrences_cons, IH. destruct (decide (tag (h r) = ty)) as [Hr|]; [|done].
    rewrite decide_False; [done|]. intros ->. done.
  - apply dec_stable in Heq. rewrite IH, occurrences_cons.
    destruct (decide (tag (h r) = ty)) as [Hr|Hr]; [done|].
    rewrite decide_False; [done|]. intros ->. done.
Qed.


Lemma admin_count p tr :
  (forall ev, is_admin_log ev -> p ev = false) -> Forall is_admin_log tr ->
  count_events p tr = 0%nat.
Proof.
  intros Hp Hl. apply count_events_none. by eapply Forall_impl.
Qed.



Lemma admin_discard ev : is_admin_log ev -> is_discard ev = false.
Proof. by destruct ev as [[] []| | | |]. Qed.



Lemma quiet_discard ev : quiet ev -> is_discard ev = false.
Proof. by destruct ev as [[] []| | | |]. Qed.

Lemma quiet_drop r c ev : quiet ev -> is_drop r c ev = false.
Proof. by destruct ev as [[] []| | | |]. Qed.

Lemma add_task_admin h m x : Forall is_admin_log (add_task h m x).2.
Proof. unfold add_task. destruct (_ <=? _); simpl; by repeat constructor. Qed.

Lemma plain_call_admin c h m :
  is_check c = false -> Forall is_admin_log (plain_call c h m).2.
Proof.
  intros Hc. destruct c as [task| |ty|e]; simpl; try done.
  - pose proof (add_task_admin h m task). by destruct (add_task h m task) as [[??]?].
  - by repeat constructor.
  - by repeat constructor.
Qed.

(** What the [except] handler does to the objects and to the queue. *)
Lemma on_exception_effect h m t :
  same_static h (on_exception h m t).1.1
  /\ (forall x, rank ((on_exception h m t).1.1 x) = rank (h x))
  /\ (forall x, x <> t -> retry ((on_exception h m t).1.1 x) = retry (h x))
  /\ (_queue (on_exception h m t).1.2 = _queue m
      \/ _queue (on_exception h m t).1.2 = _queue m ++ [t])
  /\ Forall is_admin_log (on_exception h m t).2.
Proof.
  unfold on_exception. destruct (_ <? _).
  - set (h' := store h t (set_retry (h t) (retry (h t) + 1))).
    assert (same_static h h') as Hs by (by apply store_same_static).
    assert (forall x, rank (h' x) = rank (h x)) as Hr.
    { intros x. subst h'. unfold store. by destruct (decide (x = t)) as [->|]. }
    assert (forall x, x <> t -> retry (h' x) = retry (h x)) as Hrt.
    { intros x Hx. subst h'. by rewrite store_ne. }
    pose proof (add_task_admin h' m t) as Hadm.
    destruct (add_task_cases h' m t) as [E|(m' & E & Hq)]; rewrite E in *;
      simpl in *.
    + do 3 (split; [done|]). split; [by left|]. by repeat constructor.
    + do 3 (split; [done|]). split; [by right|]. by repeat constructor.
  - simpl. split; [apply same_static_refl|]. do 2 (split; [done|]).
    split; [by left|]. by repeat constructor.
Qed.

Lemma sort_cons_perm h q task rest : sort h q = task :: rest -> q ≡ₚ task :: rest.
Proof. intros <-. by rewrite sort_perm. Qed.

Lemma plain_call_config c h m :
  is_check c = false -> same_config m (plain_call c h m).1.2.
Proof.
  intros Hc. destruct c as [task| |ty|e]; simpl; try done.
  pose proof (add_task_frame h m task) as [H _].
  by destruct (add_task h m task) as [[??]?].
Qed.

(** ** Priority order *)

Section PriorityOrder.
Variables r1 r2 : ref.
Variable c1 : TaskType.











End PriorityOrder.




(** ** Aging *)

Section Aging.
Variable r : ref.
Variable rank0 : Z.

Lemma aging_inv_popped n tr h m task rest tr' :
  (aging_inv r rank0) n tr h m -> sort h (_queue m) = task :: rest ->
  selections r tr' = (if decide (task = r) then 1 else 0)%nat ->
  (0 < selections r (tr ++ tr'))%nat
  \/ (task <> r
      /\ (r ∉ rest
          \/ (occurrences r rest = 1%nat
              /\ rank ((popped h m task rest).1 r)
                 = rank0 - Z.of_nat n - Z.of_nat (discards tr) - 1))).
Proof.
  intros HK Hs Hsel. pose proof (sort_cons_perm h _ task rest Hs) as Hperm.
  unfold aging_inv, aged in HK.
  unfold selections in *. rewrite count_events_app.
  destruct (decide (task = r)) as [->|Hne]; [left; lia|].
  destruct HK as [Hsel0|[Hnin|[Hocc Hrank]]]; [left; lia|right..].
  - split; [done|]. left. rewrite Hperm in Hnin. set_solver.
  - split; [done|]. right.
    rewrite (occurrences_perm r _ _ Hperm) in Hocc.
    unfold popped. cbn [fst]. rewrite aging_rank, Hocc.
    rewrite occurrences_cons, decide_False in Hocc by done.
    split; lia.
Qed.

Lemma aged_plain_call n c tr h m :
  not_adding r c -> is_check c = false ->
  r ∉ _queue m \/ (aged r rank0) n tr h m ->
  r ∉ _queue (plain_call c h m).1.2
  \/ (aged r rank0) n (tr ++ (plain_call c h m).2) (plain_call c h m).1.1
       (plain_call c h m).1.2.
Proof.
  intros Hok Hc Hd. unfold aged, discards in *. rewrite count_events_app.
  rewrite (admin_count is_discard (plain_call c h m).2 admin_discard
             (plain_call_admin c h m Hc)).
  rewrite plain_call_heap by done.
  destruct c as [x| |ty|e]; simpl in *; try done.
  - destruct (add_task_cases h m x) as [E|(m' & E & Hq)]; rewrite E; simpl.
    + destruct Hd as [?|[??]]; [by left|right]. split; [done|lia].
    + rewrite Hq. destruct Hd as [?|[Hocc Hrank]]; [left; set_solver|right].
      split; [|lia].
      rewrite occurrences_app, occurrences_cons, decide_False by done.
      unfold occurrences at 2. simpl. lia.
  - left. apply not_elem_of_nil.
  - destruct Hd as [Hnin|[Hocc Hrank]].
    + left. rewrite list_elem_of_filter. tauto.
    + destruct (decide (tag (h r) = ty)) as [Ht|Ht].
      * left. rewrite list_elem_of_filter. tauto.
      * right. rewrite occurrences_filter_tag, decide_False by done.
        split; [done|lia].
Qed.

Lemma aged_on_exception n tr h m t :
  t <> r -> r ∉ _queue m \/ (aged r rank0) n tr h m ->
  r ∉ _queue (on_exception h m t).1.2
  \/ (aged r rank0) n (tr ++ (on_exception h m t).2) (on_exception h m t).1.1
       (on_exception h m t).1.2.
Proof.
  intros Hne Hd. unfold aged, discards in *. rewrite count_events_app.
  destruct (on_exception_effect h m t) as (_ & Hr & _ & Hq & Hadm).
  rewrite (admin_count is_discard _ admin_discard Hadm), Hr.
  destruct Hq as [->| ->].
  - destruct Hd as [?|[??]]; [by left|right]. split; [done|lia].
  - destruct Hd as [?|[Hocc Hrank]]; [left; set_solver|right]. split; [|lia].
    rewrite occurrences_app, occurrences_cons, decide_False by done.
    unfold occurrences at 2. simpl. lia.
Qed.

Lemma aging_inv_cycle reenter e iv fuel k n tr h m :
  respects_lock reenter -> (forall p, Forall (not_adding r) (iv p)) ->
  (length (_queue m) <= fuel)%nat -> _lock m = true -> (aging_inv r rank0) n tr h m ->
  (aging_inv r rank0) (S n) (tr ++ (execute_loop reenter fuel e iv k h m).2)
    (execute_loop reenter fuel e iv k h m).1.1
    (execute_loop reenter fuel e iv k h m).1.2.
Proof.
  intros Hre Hiv Hfuel Hl HK.
  assert (forall tr0 tr', (0 < selections r tr0)%nat ->
            (0 < selections r (tr0 ++ tr'))%nat) as Hmono.
  { intros tr0 tr'. unfold selections. rewrite count_events_app. lia. }
  refine (cycle_rule reenter Hre e iv (not_adding r) Hiv
            ((aging_inv r rank0) n) (fun _ t => (aging_inv_in_flight r rank0) (S n) t) ((aging_inv r rank0) (S n))
            _ _ _ _ _ _ _ _ _ _ _ fuel k tr h m Hfuel Hl HK);
    unfold aging_inv, aging_inv_in_flight, aged.
  - intros tr0 h0 m0 ev Hq [?|[?|[Hocc Hrank]]];
      [left; by apply Hmono|by right; left|right; right].
    split; [done|]. unfold discards in *. rewrite count_events_app.
    cbn [count_events]. rewrite quiet_discard by done. lia.
  - intros tr0 h0 m0 Hq0 [?|[?|[Hocc Hrank]]]; [by left|by right; left|].
    rewrite Hq0 in Hocc. done.
  - intros tr0 h0 m0 task rest h1 m1 msg HK0 Hs Ep Hmsg.
    assert (is_discard (Log WARNING msg) = true) as Hdisc
      by (by destruct Hmsg as [[-> _]|[-> _]]).
    destruct (aging_inv_popped n tr0 h0 m0 task rest
                [Log INFO (Checking task); Log WARNING msg] HK0 Hs)
      as [Hsel|(Hne & Hd)].
    { unfold selections. simpl. destruct (decide (task = r)) as [->|];
        [by rewrite bool_decide_eq_true_2|by rewrite bool_decide_eq_false_2]. }
    + by left.
    + right. rewrite Ep in Hd. apply popped_inv in Ep as (_ & Hq1 & _).
      rewrite Hq1. destruct Hd as [?|[Hocc Hrank]]; [by left|right].
      split; [done|]. unfold discards in *. rewrite count_events_app.
      cbn [count_events]. rewrite Hdisc. simpl in *. lia.
  - intros tr0 h0 m0 task rest h1 m1 HK0 Hs Ep _.
    destruct (aging_inv_popped n tr0 h0 m0 task rest [Log INFO (Checking task)] HK0 Hs)
      as [Hsel|(Hne & Hd)].
    { unfold selections. simpl. destruct (decide (task = r)) as [->|];
        [by rewrite bool_decide_eq_true_2|by rewrite bool_decide_eq_false_2]. }
    + by left.
    + right. split; [done|]. rewrite Ep in Hd.
      apply popped_inv in Ep as (_ & Hq1 & _).
      rewrite Hq1. destruct Hd as [?|[Hocc Hrank]]; [by left|right].
      split; [done|]. unfold discards in *. rewrite count_events_app. simpl.
      simpl in Hrank. lia.
  - intros s t tr0 h0 m0 ev Hq [?|(Hne & [?|[Hocc Hrank]])];
      [left; by apply Hmono|right; split; [done|by left]|right].
    split; [done|]. right. split; [done|].
    unfold discards in *. rewrite count_events_app.
    cbn [count_events]. rewrite quiet_discard by done. lia.
  - intros s t tr0 h0 m0 c Hok Hc [?|(Hne & Hd)]; [left; by apply Hmono|right].
    split; [done|]. by apply aged_plain_call.
  - intros t tr0 h0 m0 [?|(Hne & [?|[Hocc Hrank]])];
      [left; by apply Hmono|right; split; [done|by left]|right].
    split; [done|]. right. split; [done|].
    unfold discards in *. rewrite count_events_app. simpl. lia.
  - intros t tr0 h0 m0 res ts _ HKF. exact HKF.
  - intros t tr0 h0 m0 [?|(Hne & [?|[Hocc Hrank]])];
      [left; by apply Hmono|by right; left|right; right].
    split; [done|]. unfold discards in *. rewrite count_events_app. simpl. lia.
  - intros s t tr0 h0 m0 _ [?|(Hne & Hd)]; [left; by apply Hmono|right].
    by apply aged_on_exception.
  - intros t tr0 h0 m0 exc [?|(Hne & [?|[Hocc Hrank]])];
      [left; by apply Hmono|by right; left|right; right].
    split; [done|]. unfold discards in *. rewrite count_events_app. simpl. lia.
Qed.

Lemma aging_inv_check reenter e iv n tr h m :
  respects_lock reenter -> (forall p, Forall (not_adding r) (iv p)) ->
  _lock m = false -> (aging_inv r rank0) n tr h m ->
  (aging_inv r rank0) (S n) (tr ++ (check_and_execute_with reenter e iv h m).2)
    (check_and_execute_with reenter e iv h m).1.1
    (check_and_execute_with reenter e iv h m).1.2
  /\ _lock (check_and_execute_with reenter e iv h m).1.2 = false.
Proof.
  intros Hre Hiv Hl HK. unfold check_and_execute_with, _execute_next.
  rewrite Hl. set (m0 := set_running (set_lock m true) true).
  pose proof (aging_inv_cycle reenter e iv (length (_queue m0)) 0 n tr h m0 Hre Hiv
                ltac:(done) ltac:(done) HK) as HP.
  by destruct (execute_loop reenter (length (_queue m0)) e iv 0 h m0)
    as [[h' m'] tr'].
Qed.

Lemma cycles_cons s steps :
  cycles (s :: steps) = ((if is_cycle s then 1 else 0) + cycles steps)%nat.
Proof. unfold cycles. simpl. by destruct (is_cycle s). Qed.

Lemma aging_inv_step s n tr h m :
  Forall (not_adding r) (calls_of s) -> _lock m = false -> (aging_inv r rank0) n tr h m ->
  (aging_inv r rank0) ((if is_cycle s then 1 else 0) + n) (tr ++ (step s h m).2)
    (step s h m).1.1 (step s h m).1.2
  /\ _lock (step s h m).1.2 = false.
Proof.
  intros Hok Hl HK. destruct s as [c|e iv]; simpl in *.
  - rewrite Forall_singleton in Hok. destruct (is_check c) eqn:Ec.
    + destruct c; try done. simpl. by apply aging_inv_check.
    + rewrite call_plain by done.
      change (match c with CallCheckAndExecute _ => true | _ => false end)
        with (is_check c).
      rewrite Ec. split.
      * destruct HK as [Hsel|Hd].
        -- left. unfold selections in *. rewrite count_events_app. lia.
        -- right. by apply aged_plain_call.
      * destruct (plain_call_config c h m Ec) as (_&_&_&_&->&_). done.
  - rewrite !Forall_app in Hok. destruct Hok as (H1 & H2 & H3 & H4).
    apply aging_inv_check; try done.
    + apply check_and_execute_inner_respects_lock.
    + by intros [].
Qed.

Lemma aging_inv_run steps : forall n tr h m,
  Forall (fun s => Forall (not_adding r) (calls_of s)) steps ->
  _lock m = false -> (aging_inv r rank0) n tr h m ->
  (aging_inv r rank0) (cycles steps + n) (tr ++ (run steps h m).2)
    (run steps h m).1.1 (run steps h m).1.2.
Proof.
  induction steps as [|s steps IH]; intros n tr h m Hok Hl HK; simpl.
  - by rewrite app_nil_r.
  - apply Forall_cons in Hok as [Hs Hok].
    destruct (aging_inv_step s n tr h m Hs Hl HK) as [HK1 Hl1].
    destruct (step s h m) as [[h1 m1] tr1]. simpl in *.
    pose proof (IH _ _ h1 m1 Hok Hl1 HK1) as HK2.
    destruct (run steps h1 m1) as [[h2 m2] tr2]. simpl in *.
    rewrite cycles_cons, app_assoc.
    by replace ((if is_cycle s then 1 else 0) + cycles steps + n)%nat
      with (cycles steps + ((if is_cycle s then 1 else 0) + n))%nat by lia.
Qed.

Lemma rank_after_run steps h m :
  Forall (fun s => Forall (not_adding r) (calls_of s)) steps ->
  _lock m = false -> occurrences r (_queue m) = 1%nat -> rank (h r) = rank0 ->
  r ∈ _queue (run steps h m).1.2 -> selections r (run steps h m).2 = 0%nat ->
  rank ((run steps h m).1.1 r)
  = rank0 - Z.of_nat (cycles steps) - Z.of_nat (discards (run steps h m).2).
Proof.
  intros Hok Hl Hocc Hrank Hin Hsel.
  assert ((aging_inv r rank0) 0 [] h m) as HK.
  { right; right. split; [done|]. unfold discards. simpl. lia. }
  pose proof (aging_inv_run steps 0 [] h m Hok Hl HK) as [Hs|[Hn|[_ Hr]]];
    cbn [app] in *; [lia|done|].
  rewrite Hr. lia.
Qed.

End Aging.

(** C2, as the code has it. A task that stays in the queue and is not
    selected loses one rank per iteration of the selection loop, and a
    cycle iterates once, plus once more for every task it discards as
    expired. So over a run with N calls of [check_and_execute], started
    with the lock free, during which the object is queued once, is never
    popped and is not enqueued a second time, its rank falls by N plus the
    number of discards logged in the run; by exactly N when none is. *)
Theorem aging_per_iteration (steps : list Step) (h : Heap) (m : TaskManager)
    (r : ref) :
  _lock m = false -> occurrences r (_queue m) = 1%nat ->
  Forall (fun s => Forall (not_adding r) (calls_of s)) steps ->
  r ∈ _queue (run steps h m).1.2 -> selections r (run steps h m).2 = 0%nat ->
  rank ((run steps h m).1.1 r)
  = rank (h r) - Z.of_nat (cycles steps)
    - Z.of_nat (discards (run steps h m).2)
  /\ (discards (run steps h m).2 = 0%nat ->
      rank ((run steps h m).1.1 r) = rank (h r) - Z.of_nat (cycles steps)).
Proof.
  intros Hl Hocc Hok Hin Hsel.
  pose proof (rank_after_run r (rank (h r)) steps h m Hok Hl Hocc eq_refl Hin Hsel)
    as Hr.
  split; [done|]. intros Hd. rewrite Hr, Hd. lia.
Qed.

Lemma aging_per_iteration_witness :
  let e := ex_env (Returns 0%nat) CbReturns in
  let m := enqueue ex_heap ex_manager [0%nat; 1%nat; 3%nat] in
  let steps := [Cycle e undisturbed] in
  _lock m = false /\ occurrences 1%nat (_queue m) = 1%nat
  /\ Forall (fun s => Forall (not_adding 1%nat) (calls_of s)) steps
  /\ 1%nat ∈ _queue (run steps ex_heap m).1.2
  /\ selections 1%nat (run steps ex_heap m).2 = 0%nat
  /\ rank ((run steps ex_heap m).1.1 1%nat)
     = rank (ex_heap 1%nat) - Z.of_nat (cycles steps)
       - Z.of_nat (discards (run steps ex_heap m).2).
Proof.
  intros e m steps.
  assert (_lock m = false) as H1 by done.
  assert (occurrences 1%nat (_queue m) = 1%nat) as H2 by done.
  assert (Forall (fun s => Forall (not_adding 1%nat) (calls_of s)) steps) as H3
    by (repeat constructor).
  assert (1%nat ∈ _queue (run steps ex_heap m).1.2) as H4 by (vm_compute; left).
  assert (selections 1%nat (run steps ex_heap m).2 = 0%nat) as H5 by done.
  do 5 (split; [done|]).
  exact (proj1 (aging_per_iteration steps ex_heap m 1%nat H1 H2 H3 H4 H5)).
Defined.

(** C2, as stated, fails. The queue holds the expired task [0] and the
    tasks [3] and [1]; one cycle discards [0], goes round again and
    dispatches [3]. Task [1] was in the queue throughout and was never
    selected, yet after this one cycle its rank has fallen by 2. *)
Lemma aging_exactly_N_counterexample :
  let e := ex_env (Returns 0%nat) CbReturns in
  let m := enqueue ex_heap ex_manager [0%nat; 1%nat; 3%nat] in
  let steps := [Cycle e undisturbed] in
  _queue m = [0%nat; 1%nat; 3%nat]
  /\ cycles steps = 1%nat
  /\ _queue (run steps ex_heap m).1.2 = [1%nat]
  /\ selections 1%nat (run steps ex_heap m).2 = 0%nat
  /\ rank (ex_heap 1%nat) = 4
  /\ rank ((run steps ex_heap m).1.1 1%nat) = 2
  /\ rank ((run steps ex_heap m).1.1 1%nat)
     <> rank (ex_heap 1%nat) - Z.of_nat (cycles steps).
Proof. vm_compute. by repeat split. Qed.

(** ** Retry *)



Section Retry.
Variable r : ref.
Variable f : FuncId.
Variable c : TaskType.
Variable rc : Z.



















End Retry.

Section LoneRetry.
Variable r : ref.
Variable f : FuncId.
Variable c : TaskType.
Variable rc : Z.








End LoneRetry.

(** A negative [_bias]: the cycle pops the task, [random.randint] raises,
    and the task is gone, never awaited, with no discard and no refusal
    logged. *)
Lemma negative_bias_loses_the_task :
  let m := enqueue ex_heap (TaskManager_init true 100 (-1) 2) [1%nat] in
  let r := check_and_execute (ex_env Raises CbReturns) undisturbed ex_heap m in
  _queue m = [1%nat] /\ _queue r.1.2 = [] /\ _lock r.1.2 = false
  /\ _running r.1.2 = false /\ last r.2 = Some (Raise ValueError)
  /\ dispatches 1%nat r.2 = 0%nat /\ losses 1%nat NBW r.2 = 0%nat.
Proof. vm_compute. by repeat split. Qed.




(** * Further properties *)

(** ** Limits, dispatch and expiry *)

Lemma bounded_add_task h m task :
  bounded h m -> bounded h (add_task h m task).1.1.
Proof.
  intros [Hc Hw]. split; [by apply counters_exact_add_task|]. intros c.
  destruct (Z.le_gt_cases (get_task_limit (tag (h task)))
              (counter_get m (tag (h task)) 0)) as [Hle|Hlt].
  - rewrite add_task_reject by done. apply Hw.
  - rewrite add_task_accept by lia. cbn [fst _queue set_counter set_queue].
    rewrite count_tag_app, count_tag_cons.
    change (count_tag h c []) with 0%nat.
    destruct (decide (tag (h task) = c)) as [<-|Hne].
    + rewrite (Hc (tag (h task))) in Hlt. lia.
    + specialize (Hw c). lia.
Qed.

Lemma within_limits_sub h m m' :
  (forall c, (count_tag h c (_queue m') <= count_tag h c (_queue m))%nat) ->
  within_limits h m -> within_limits h m'.
Proof. intros Hsub Hw c. specialize (Hsub c). specialize (Hw c). lia. Qed.

Lemma bounded_plain_call c h m :
  is_check c = false -> bounded h m ->
  bounded (plain_call c h m).1.1 (plain_call c h m).1.2.
Proof.
  intros Hc [Hce Hw]. split; [by apply counters_exact_plain_call|].
  destruct c as [task| |ty|e]; simpl.
  - pose proof (bounded_add_task h m task (conj Hce Hw)) as [_ H].
    by destruct (add_task h m task) as [[??]?].
  - intros c. pose proof (get_task_limit_pos c). simpl.
    change (count_tag h c []) with 0%nat. lia.
  - intros c. simpl. rewrite count_tag_filter_ne. specialize (Hw c).
    destruct (decide (c = ty)); lia.
  - done.
Qed.

Lemma bounded_same_static h h' m :
  same_static h h' -> bounded h m -> bounded h' m.
Proof.
  intros Hs [Hc Hw]. split; [by eapply counters_exact_same_static|].
  intros c. rewrite (count_tag_same_static h h') by done. apply Hw.
Qed.

Lemma bounded_popped h m task rest :
  bounded h m -> sort h (_queue m) = task :: rest ->
  bounded (popped h m task rest).1 (popped h m task rest).2.
Proof.
  intros [Hc Hw] Hs. split; [by apply counters_exact_popped|]. intros c.
  unfold popped. cbn [fst snd _queue set_counter set_queue].
  rewrite (count_tag_same_static h) by apply aging_same_static.
  pose proof (count_tag_perm h c _ _ (sort_perm h (_queue m))) as Hp.
  rewrite Hs, count_tag_cons in Hp. specialize (Hw c). lia.
Qed.

Lemma bounded_on_exception h m task :
  bounded h m ->
  bounded (on_exception h m task).1.1 (on_exception h m task).1.2.
Proof.
  intros Hb. unfold on_exception. destruct (_ <? _); [|done].
  set (h' := store h task (set_retry (h task) (retry (h task) + 1))).
  assert (bounded h' m) as Hb'.
  { eapply bounded_same_static; [|done]. by apply store_same_static. }
  pose proof (bounded_add_task h' m task Hb') as H.
  by destruct (add_task h' m task) as [[??]?].
Qed.

Lemma bounded_config h m m' :
  _queue m' = _queue m -> _task_type_counter m' = _task_type_counter m ->
  bounded h m -> bounded h m'.
Proof.
  intros Hq Hc [Hce Hw]. split; [by eapply counters_exact_config|].
  intros c. rewrite Hq. apply Hw.
Qed.

Lemma bounded_cycle reenter e iv h m :
  respects_lock reenter -> bounded h m ->
  bounded (check_and_execute_with reenter e iv h m).1.1
    (check_and_execute_with reenter e iv h m).1.2.
Proof.
  intros Hre Hinv. unfold check_and_execute_with.
  destruct (_lock m) eqn:Hl; [done|]. unfold _execute_next.
  set (m0 := set_running (set_lock m true) true).
  assert (bounded (execute_loop reenter (length (_queue m0)) e iv 0 h m0).1.1
            (execute_loop reenter (length (_queue m0)) e iv 0 h m0).1.2) as HP.
  { refine (cycle_rule reenter Hre e iv (fun _ => True)
              (fun p => Forall_true _ (iv p) (fun _ => I))
              (fun _ h m => bounded h m)
              (fun _ _ _ h m => bounded h m)
              (fun _ h m => bounded h m)
              _ _ _ _ _ _ _ _ _ _ _ (length (_queue m0)) 0%nat [] h m0 _ _ _);
      try done.
    - intros tr h0 m1 task rest h1 m1' msg H0 Hs Ep _.
      pose proof (bounded_popped h0 m1 task rest H0 Hs) as H.
      by rewrite Ep in H.
    - intros tr h0 m1 task rest h1 m1' H0 Hs Ep _.
      pose proof (bounded_popped h0 m1 task rest H0 Hs) as H.
      by rewrite Ep in H.
    - intros s t tr h0 m1 c _ Hc H0. by apply bounded_plain_call.
    - intros s t tr h0 m1 _ H0. by apply bounded_on_exception. }
  by destruct (execute_loop reenter (length (_queue m0)) e iv 0 h m0) as [[h' m'] tr'].
Qed.

Lemma bounded_step s h m :
  bounded h m -> bounded (step s h m).1.1 (step s h m).1.2.
Proof.
  intros Hinv. destruct s as [c|e iv]; simpl.
  - destruct (is_check c) eqn:Ec.
    + destruct c; try done. simpl. by apply bounded_cycle.
    + rewrite call_plain by done. by apply bounded_plain_call.
  - apply bounded_cycle; [|done].
    apply check_and_execute_inner_respects_lock.
Qed.

Lemma bounded_run steps : forall h m,
  bounded h m -> bounded (run steps h m).1.1 (run steps h m).1.2.
Proof.
  induction steps as [|s steps IH]; intros h m Hinv; [done|]. simpl.
  pose proof (bounded_step s h m Hinv) as H1.
  destruct (step s h m) as [[h1 m1] tr1]. simpl in H1.
  pose proof (IH h1 m1 H1) as H2.
  by destruct (run steps h1 m1) as [[h2 m2] tr2].
Qed.

(** X1. Whatever is done to a new manager ([add_task], [clear],
    [remove_by_type], calls of [check_and_execute] under any environment
    and any interference during their awaits), the queue never holds more
    tasks of a category than [get_task_limit] allows for it. *)
Theorem category_limit_never_exceeded (steps : list Step) (cb : bool)
    (gap bias rc : Z) (h : Heap) (c : TaskType) :
  let r := run steps h (TaskManager_init cb gap bias rc) in
  Z.of_nat (count_tag r.1.1 c (_queue r.1.2)) <= get_task_limit c.
Proof.
  intros r. subst r.
  assert (bounded h (TaskManager_init cb gap bias rc)) as H0.
  { split; [by intros c'|]. intros c'. pose proof (get_task_limit_pos c').
    change (count_tag h c' (_queue (TaskManager_init cb gap bias rc))) with 0%nat.
    lia. }
  apply (bounded_run steps) in H0 as [_ Hw]. apply Hw.
Qed.


Lemma invocations_app tr tr' :
  invocations (tr ++ tr') = (invocations tr + invocations tr')%nat.
Proof. apply count_events_app. Qed.

Lemma invocations_logs tr : Forall is_log tr -> invocations tr = 0%nat.
Proof. by apply logs_count. Qed.

Lemma invocations_quiet ev : quiet ev -> invocations [ev] = 0%nat.
Proof. by apply quiet_count. Qed.

Lemma raises_app tr tr' : raises (tr ++ tr') = (raises tr + raises tr')%nat.
Proof. apply count_events_app. Qed.

Lemma raises_logs tr : Forall is_log tr -> raises tr = 0%nat.
Proof. by apply logs_count. Qed.

Lemma raises_quiet ev : quiet ev -> raises [ev] = 0%nat.
Proof. by apply quiet_count. Qed.

Lemma invocations_cycle reenter e iv h m :
  respects_lock reenter -> _lock m = true ->
  let r := execute_loop reenter (length (_queue m)) e iv 0 h m in
  (invocations r.2 = 1%nat /\ raises r.2 = 0%nat)
  \/ (invocations r.2 = 0%nat
      /\ ((_queue r.1.2 = [] /\ raises r.2 = 0%nat)
          \/ exists exc, last r.2 = Some (Raise exc))).
Proof.
  intros Hre Hl.
  refine (cycle_rule reenter Hre e iv (fun _ => True)
            (fun p => Forall_true _ (iv p) (fun _ => I))
            (fun tr _ _ => invocations tr = 0%nat /\ raises tr = 0%nat)
            (fun s _ tr _ _ =>
               invocations tr = match s with Pacing => 0 | _ => 1 end%nat
               /\ raises tr = 0%nat)
            (fun tr _ m =>
               (invocations tr = 1%nat /\ raises tr = 0%nat)
               \/ (invocations tr = 0%nat
                   /\ ((_queue m = [] /\ raises tr = 0%nat)
                       \/ exists exc, last tr = Some (Raise exc))))
            _ _ _ _ _ _ _ _ _ _ _ (length (_queue m)) 0%nat [] h m _ Hl _);
    try done.
  - intros tr h0 m1 ev Hq [H0 H1]. rewrite invocations_app, raises_app, H0, H1.
    by rewrite invocations_quiet, raises_quiet.
  - intros tr h0 m1 Hq [H0 H1]. right. split; [done|]. by left.
  - intros tr h0 m1 task rest h1 m2 msg [H0 H1] _ _ _.
    by rewrite invocations_app, raises_app, H0, H1.
  - intros tr h0 m1 task rest h1 m2 [H0 H1] _ _ _.
    by rewrite invocations_app, raises_app, H0, H1.
  - intros s t tr h0 m1 ev Hq [H0 H1]. rewrite invocations_app, raises_app, H0, H1.
    rewrite invocations_quiet, raises_quiet by done. split; lia.
  - intros s t tr h0 m1 c _ Hc [H0 H1]. rewrite invocations_app, raises_app, H0, H1.
    rewrite invocations_logs, raises_logs by (by apply plain_call_logs).
    split; lia.
  - intros t tr h0 m1 [H0 H1]. by rewrite invocations_app, raises_app, H0, H1.
  - intros t tr h0 m1 [H0 H1]. left. by rewrite invocations_app, raises_app, H0, H1.
  - intros s t tr h0 m1 Hr [H0 H1]. left.
    rewrite invocations_app, raises_app, H0, H1.
    rewrite invocations_logs, raises_logs by apply on_exception_logs.
    destruct Hr as [[-> _]| ->]; done.
  - intros t tr h0 m1 exc [H0 H1]. right. rewrite invocations_app, H0.
    split; [done|]. right. exists exc. apply last_snoc.
Qed.

(** X2. A call of [check_and_execute] that finds the lock free awaits the
    action of at most one task, whatever other coroutines do during its
    awaits. If it awaits none, it returns with the queue empty or it ends
    by raising: the loop goes past the tasks it discards and stops only
    for a task it dispatches, for want of tasks, or on the exception of
    its pacing arithmetic ([random.randint] on a negative [_bias], a gap
    or a bias too large for a [float]). A call that awaits an action does
    not raise. *)
Theorem one_action_per_cycle (e : Env) (iv : Interference) (h : Heap)
    (m : TaskManager) :
  _lock m = false ->
  let r := check_and_execute e iv h m in
  (invocations r.2 <= 1)%nat
  /\ (invocations r.2 = 0%nat ->
      _queue r.1.2 = [] \/ exists exc, last r.2 = Some (Raise exc))
  /\ (invocations r.2 = 1%nat -> raises r.2 = 0%nat).
Proof.
  intros Hl r. subst r. rewrite check_and_execute_free by done.
  pose proof (invocations_cycle check_and_execute_inner e iv h
                (set_running (set_lock m true) true)
                check_and_execute_inner_respects_lock eq_refl) as H.
  unfold _execute_next. cbv zeta in H.
  destruct (execute_loop _ _ _ _ _ _ _) as [[h' m'] tr]. cbn [fst snd] in *.
  destruct H as [[-> Hr]|[-> [[Hq Hr]|Hx]]].
  - split; [lia|]. by split.
  - split; [lia|]. split; [by left|done].
  - split; [lia|]. split; [by right|done].
Qed.

Lemma one_action_per_cycle_witness :
  let m := enqueue ex_heap ex_manager [0; 1; 2]%nat in
  let r := check_and_execute (ex_env (Returns 0%nat) CbReturns) undisturbed
             ex_heap m in
  _lock m = false /\ (invocations r.2 <= 1)%nat.
Proof.
  intros m r. split; [reflexivity|].
  apply (one_action_per_cycle (ex_env (Returns 0%nat) CbReturns) undisturbed
           ex_heap m). reflexivity.
Defined.


Lemma status_logs h q : Forall is_log (_log_queue_status h q).
Proof.
  destruct q as [|x q]; [constructor|]. simpl. constructor; [done|].
  constructor; [done|]. apply Forall_map. by apply Forall_true.
Qed.

Lemma discards_app tr tr' :
  discards (tr ++ tr') = (discards tr + discards tr')%nat.
Proof. apply count_events_app. Qed.

Lemma discards_status h q : discards (_log_queue_status h q) = 0%nat.
Proof.
  apply count_events_none, Forall_forall. intros ev Hev.
  pose proof (status_quiet h q) as Hq. rewrite Forall_forall in Hq.
  by apply quiet_discard, Hq.
Qed.

Lemma expired_loop reenter e iv fuel : forall k h m,
  (length (_queue m) <= fuel)%nat ->
  (forall r j, r ∈ _queue m -> is_expired (h r) (time_ms e j) = true) ->
  let r := execute_loop reenter fuel e iv k h m in
  _queue r.1.2 = [] /\ discards r.2 = length (_queue m)
  /\ Forall is_log r.2.
Proof.
  induction fuel as [|fuel IH]; intros k h m Hfuel Hexp.
  - destruct (_queue m) eqn:Hq; [|simpl in Hfuel; lia]. simpl. by rewrite Hq.
  - destruct (sort h (_queue m)) as [|task rest] eqn:Hs.
    + apply sort_nil in Hs. rewrite execute_loop_nil by done. simpl.
      by rewrite Hs.
    + rewrite (execute_loop_S reenter fuel e iv k h m task rest Hs).
      pose proof (sort_perm h (_queue m)) as Hp. rewrite Hs in Hp.
      pose proof (sort_length h (_queue m)) as Hlen. rewrite Hs in Hlen.
      simpl in Hlen.
      destruct (popped h m task rest) as [h1 m1] eqn:Ep. cbv zeta.
      apply popped_inv in Ep as (-> & Hq1 & _).
      rewrite is_expired_aged, Hexp by (rewrite <- Hp; left).
      specialize (IH (S k) (_priority_aging h (task :: rest)) m1).
      destruct (execute_loop reenter fuel e iv (S k) _ m1) as [[h2 m2] tr2].
      destruct IH as (Hq2 & Hd & Hlog).
      { rewrite Hq1. lia. }
      { intros r j Hr. rewrite is_expired_aged. apply Hexp.
        rewrite <- Hp. right. by rewrite <- Hq1. }
      cbn [fst snd] in *. split; [done|]. split.
      * rewrite !discards_app, discards_status.
        change (discards (Log WARNING (TaskExpired task) :: tr2))
          with (S (discards tr2)).
        rewrite Hd, Hq1. simpl. lia.
      * rewrite <- app_assoc. apply Forall_app. split; [apply status_logs|].
        by repeat constructor.
Qed.

(** X3. If every queued task is expired at every clock reading of a call
    of [check_and_execute], that one call discards them all: the queue is
    empty when it returns, one expiry warning was logged per queued task,
    and the call did nothing but log (no sleep, no action, no callback). *)
Theorem expired_queue_drained (e : Env) (iv : Interference) (h : Heap)
    (m : TaskManager) :
  _lock m = false ->
  (forall r k, r ∈ _queue m -> is_expired (h r) (time_ms e k) = true) ->
  let r := check_and_execute e iv h m in
  _queue r.1.2 = [] /\ discards r.2 = length (_queue m)
  /\ Forall is_log r.2.
Proof.
  intros Hl Hexp r. subst r. rewrite check_and_execute_free by done.
  pose proof (expired_loop check_and_execute_inner e iv
                (length (_queue m)) 0 h (set_running (set_lock m true) true)
                (le_n _) Hexp) as H.
  unfold _execute_next. cbv zeta in H.
  change (_queue (set_running (set_lock m true) true)) with (_queue m) in *.
  by destruct (execute_loop _ _ _ _ _ _ _) as [[h' m'] tr].
Qed.

Lemma expired_queue_drained_witness :
  let e := ex_env_at 100000 (Returns 0%nat) CbReturns in
  let m := enqueue ex_heap ex_manager [1; 0; 3]%nat in
  let r := check_and_execute e undisturbed ex_heap m in
  _queue m = [1; 0; 3]%nat
  /\ _queue r.1.2 = [] /\ discards r.2 = 3%nat /\ Forall is_log r.2.
Proof.
  intros e m r. split; [reflexivity|].
  apply (expired_queue_drained e undisturbed ex_heap m); [reflexivity|].
  intros x k Hx. change (_queue m) with [1; 0; 3]%nat in Hx.
  apply elem_of_cons in Hx as [->|Hx]; [reflexivity|].
  apply elem_of_cons in Hx as [->|Hx]; [reflexivity|].
  apply elem_of_cons in Hx as [->|Hx]; [reflexivity|].
  by apply elem_of_nil in Hx.
Defined.


Lemma length_filter_split {A} (P : A -> Prop) `{forall x, Decision (P x)}
    (l : list A) :
  length l = (length (filter P l) + length (filter (fun x => ~ P x) l))%nat.
Proof.
  induction l as [|x l IH]; [done|]. rewrite !filter_cons.
  destruct (decide (P x)); destruct (decide (~ P x)); simpl; try lia; tauto.
Qed.

Lemma filter_filter_same {A} (P : A -> Prop) `{forall x, Decision (P x)}
    (l : list A) :
  filter P (filter P l) = filter P l.
Proof.
  induction l as [|x l IH]; [done|]. rewrite filter_cons.
  destruct (decide (P x)) as [Hx|Hx]; [|done].
  by rewrite filter_cons, decide_True, IH.
Qed.

Lemma filter_tag_ne h c ty (q : list ref) :
  c <> ty ->
  filter (fun r => tag (h r) = c) (filter (fun t => tag (h t) ≠ ty) q)
  = filter (fun r => tag (h r) = c) q.
Proof.
  intros Hne. induction q as [|x q IH]; [done|]. rewrite !filter_cons.
  destruct (decide (tag (h x) ≠ ty)) as [Hx|Hx].
  - by rewrite filter_cons, IH.
  - apply dec_stable in Hx. rewrite IH, decide_False; [done|congruence].
Qed.

(** X4. [remove_by_type] returns the number of queued tasks of the type;
    the queue that is left is the old queue without the tasks of the type,
    the others in the order they had: it is shorter by the number
    returned, holds no task of the type, and holds the tasks of every
    other type as before; the counter of the type is 0 and no other field
    of the manager changes. A second call removes nothing and changes
    nothing. *)
Theorem remove_by_type_removes_the_category (h : Heap) (m : TaskManager)
    (ty : TaskType) :
  let m1 := (remove_by_type h m ty).1.1 in
  let removed := (remove_by_type h m ty).1.2 in
  removed = Z.of_nat (count_tag h ty (_queue m))
  /\ _queue m1 = filter (fun t => tag (h t) <> ty) (_queue m)
  /\ _queue m1 `sublist_of` _queue m
  /\ (forall c, c <> ty -> counter_get m1 c 0 = counter_get m c 0)
  /\ same_config m m1 /\ _last_execute_at m1 = _last_execute_at m
  /\ queue_size m1 = queue_size m - removed
  /\ count_tag h ty (_queue m1) = 0%nat
  /\ (forall c, c <> ty ->
        filter (fun r => tag (h r) = c) (_queue m1)
        = filter (fun r => tag (h r) = c) (_queue m))
  /\ counter_get m1 ty 0 = 0
  /\ remove_by_type h m1 ty = (m1, 0, [Log INFO (Removed 0 ty)]).
Proof.
  intros m1 removed. subst m1 removed. unfold remove_by_type, queue_size.
  cbn [fst snd _queue set_queue set_counter].
  pose proof (length_filter_split (fun r => tag (h r) = ty) (_queue m)) as Hlen.
  change (length (filter (fun r => tag (h r) = ty) (_queue m)))
    with (count_tag h ty (_queue m)) in Hlen.
  split; [lia|]. split; [done|]. split; [apply sublist_filter|].
  split; [intros c Hc; by rewrite counter_get_insert, decide_False|].
  split; [by repeat split|]. split; [done|].
  split; [lia|]. split.
  { rewrite count_tag_filter_ne. by rewrite decide_True. }
  split; [intros c Hc; by apply filter_tag_ne|].
  split; [by rewrite counter_get_insert, decide_True|].
  rewrite filter_filter_same, Z.sub_diag. unfold set_counter, set_queue.
  cbn. by rewrite insert_insert_eq.
Qed.


(** X5. After [clear] every task is admitted. After [remove_by_type] of
    its type a task is admitted, and [remove_by_type] of another type does
    not change whether it is. *)
Theorem admission_reopens_after_removal (h : Heap) (m : TaskManager)
    (task : ref) (ty : TaskType) :
  (add_task h (clear m).1 task).1.2 = true
  /\ (add_task h (remove_by_type h m (tag (h task))).1.1 task).1.2 = true
  /\ (tag (h task) <> ty ->
      (add_task h (remove_by_type h m ty).1.1 task).1.2
      = (add_task h m task).1.2).
Proof.
  pose proof (get_task_limit_pos (tag (h task))) as Hpos.
  split; [|split].
  - rewrite add_task_accept; [done|]. unfold clear, counter_get. simpl.
    rewrite lookup_empty. simpl. lia.
  - rewrite add_task_accept; [done|]. unfold remove_by_type.
    cbn [fst]. rewrite counter_get_insert, decide_True by done. lia.
  - intros Hne. unfold add_task, remove_by_type. cbn [fst].
    rewrite counter_get_insert, decide_False by done.
    change (default 0 (_task_type_counter
              (set_queue m (filter (fun t => tag (h t) ≠ ty) (_queue m)))
              !! tag (h task))) with (counter_get m (tag (h task)) 0).
    by destruct (_ <=? _).
Qed.


Lemma enqueue_snoc h m tasks task :
  enqueue h m (tasks ++ [task]) = (add_task h (enqueue h m tasks) task).1.1.
Proof. unfold enqueue. by rewrite fold_left_app. Qed.

Lemma counters_exact_enqueue h tasks : forall m,
  counters_exact h m -> counters_exact h (enqueue h m tasks).
Proof.
  induction tasks as [|t tasks IH]; intros m Hc; [done|].
  apply IH. by apply counters_exact_add_task.
Qed.

(** X6. Tasks are offered one after the other to a new manager. Of each
    category the queue then holds exactly the first [get_task_limit] tasks
    offered, in the order they were offered: admission refuses a task only
    when its category is full. *)
Theorem admission_ceiling (h : Heap) (cb : bool) (gap bias rc : Z)
    (tasks : list ref) (c : TaskType) :
  filter (fun r => tag (h r) = c)
    (_queue (enqueue h (TaskManager_init cb gap bias rc) tasks))
  = take (Z.to_nat (get_task_limit c)) (filter (fun r => tag (h r) = c) tasks).
Proof.
  set (m0 := TaskManager_init cb gap bias rc).
  assert (counters_exact h m0) as H0 by (by intros c').
  induction tasks as [|t tasks IH] using rev_ind;
    [by destruct (Z.to_nat (get_task_limit c))|].
  rewrite enqueue_snoc.
  pose proof (counters_exact_enqueue h tasks m0 H0) as Hc.
  set (m := enqueue h m0 tasks) in *.
  set (F := filter (fun r => tag (h r) = c) tasks) in *.
  rewrite filter_app, filter_cons, filter_nil. fold F.
  destruct (Z.le_gt_cases (get_task_limit (tag (h t)))
              (counter_get m (tag (h t)) 0)) as [Hle|Hlt].
  - rewrite add_task_reject by done. cbn [fst]. rewrite IH.
    destruct (decide (tag (h t) = c)) as [Ht|Ht]; [|by rewrite app_nil_r].
    rewrite Ht, (Hc c) in Hle. unfold count_tag in Hle. rewrite IH in Hle.
    rewrite length_take in Hle. rewrite take_app_le by lia. done.
  - rewrite add_task_accept by done. cbn [fst _queue set_counter set_queue].
    rewrite filter_app, filter_cons, filter_nil, IH.
    destruct (decide (tag (h t) = c)) as [Ht|Ht]; [|by rewrite !app_nil_r].
    rewrite Ht, (Hc c) in Hlt. unfold count_tag in Hlt. rewrite IH in Hlt.
    rewrite length_take in Hlt.
    rewrite !take_ge; [done| |]; rewrite ?length_app; simpl; lia.
Qed.


Lemma aging_info h q r : info (_priority_aging h q r) = info (h r).
Proof. apply aging_same_static. Qed.

Lemma aging_unqueued (q : list ref) : forall h r,
  r ∉ q -> _priority_aging h q r = h r.
Proof.
  induction q as [|t q IH]; intros h r Hr; [done|].
  apply not_elem_of_cons in Hr as [Hne Hr]. simpl. rewrite IH by done.
  by apply store_ne.
Qed.

(** X7. [_priority_aging] lowers the rank of every object once per
    occurrence in the queue (an object queued twice ages by two), changes
    no other field of it, and leaves the objects that are not queued as
    they are. *)
Theorem priority_aging_effect (h : Heap) (q : list ref) (r : ref) :
  let t := _priority_aging h q r in
  rank t = rank (h r) - Z.of_nat (occurrences r q)
  /\ func t = func (h r) /\ expire_at t = expire_at (h r)
  /\ info t = info (h r) /\ tag t = tag (h r) /\ retry t = retry (h r)
  /\ (r ∉ q -> t = h r).
Proof.
  intros t. subst t. split; [apply aging_rank|].
  split; [apply aging_func|]. split; [apply aging_expire_at|].
  split; [apply aging_info|]. split; [apply aging_tag|].
  split; [apply aging_retry|]. apply aging_unqueued.
Qed.


Lemma only_ages_refl h : only_ages h h.
Proof. split; [apply same_static_refl|]. intros r. lia. Qed.

Lemma only_ages_trans h1 h2 h3 :
  only_ages h1 h2 -> only_ages h2 h3 -> only_ages h1 h3.
Proof.
  intros [Hs1 H1] [Hs2 H2]. split; [by eapply same_static_trans|].
  intros r. specialize (H1 r). specialize (H2 r). lia.
Qed.

Lemma only_ages_aging h q : only_ages h (_priority_aging h q).
Proof.
  split; [apply aging_same_static|]. intros r.
  rewrite aging_rank, aging_retry. lia.
Qed.

Lemma only_ages_on_exception h m t : only_ages h (on_exception h m t).1.1.
Proof.
  split; [apply on_exception_effect|]. intros r.
  destruct (on_exception_effect h m t) as (_ & Hrank & Hretry & _).
  rewrite Hrank. split; [lia|].
  destruct (decide (r = t)) as [->|Hne]; [|rewrite Hretry by done; lia].
  unfold on_exception. destruct (_ <? _); [|simpl; lia].
  destruct (add_task _ m t) as [[??]?]. simpl. rewrite store_eq. simpl. lia.
Qed.

Lemma only_ages_loop reenter e iv h m :
  respects_lock reenter -> _lock m = true ->
  only_ages h (execute_loop reenter (length (_queue m)) e iv 0 h m).1.1.
Proof.
  intros Hre Hl.
  refine (cycle_rule reenter Hre e iv (fun _ => True)
            (fun p => Forall_true _ (iv p) (fun _ => I))
            (fun _ h' _ => only_ages h h')
            (fun _ _ _ h' _ => only_ages h h')
            (fun _ h' _ => only_ages h h')
            _ _ _ _ _ _ _ _ _ _ _ (length (_queue m)) 0%nat [] h m _ Hl _);
    try done.
  - intros tr h0 m1 task rest h1 m2 msg H0 _ Ep _.
    apply popped_inv in Ep as (-> & _).
    eapply only_ages_trans; [done|apply only_ages_aging].
  - intros tr h0 m1 task rest h1 m2 H0 _ Ep _.
    apply popped_inv in Ep as (-> & _).
    eapply only_ages_trans; [done|apply only_ages_aging].
  - intros s t tr h0 m1 c _ Hc H0. by rewrite plain_call_heap.
  - intros s t tr h0 m1 _ H0.
    eapply only_ages_trans; [done|apply only_ages_on_exception].
Qed.

Lemma only_ages_cycle reenter e iv h m :
  respects_lock reenter ->
  only_ages h (check_and_execute_with reenter e iv h m).1.1.
Proof.
  intros Hre. unfold check_and_execute_with.
  destruct (_lock m) eqn:Hl; [apply only_ages_refl|]. unfold _execute_next.
  pose proof (only_ages_loop reenter e iv h
                (set_running (set_lock m true) true) Hre eq_refl) as H.
  by destruct (execute_loop _ _ _ _ _ _ _) as [[h' m'] tr].
Qed.

Lemma only_ages_step s h m : only_ages h (step s h m).1.1.
Proof.
  destruct s as [c|e iv]; simpl.
  - destruct (is_check c) eqn:Ec.
    + destruct c; try done. simpl. by apply only_ages_cycle.
    + rewrite call_plain, plain_call_heap by done. apply only_ages_refl.
  - apply only_ages_cycle, check_and_execute_inner_respects_lock.
Qed.

Lemma only_ages_run steps : forall h m, only_ages h (run steps h m).1.1.
Proof.
  induction steps as [|s steps IH]; intros h m; [apply only_ages_refl|].
  simpl. pose proof (only_ages_step s h m) as H1.
  destruct (step s h m) as [[h1 m1] tr1]. simpl in H1.
  pose proof (IH h1 m1) as H2.
  destruct (run steps h1 m1) as [[h2 m2] tr2]. simpl in *.
  by eapply only_ages_trans.
Qed.

(** X8. Whatever is done to the manager, a task object keeps its [func],
    [expire_at], [info] and [tag]; its rank never rises and its retry
    counter never falls. *)
Theorem scheduler_writes_only_rank_and_retry (steps : list Step) (h : Heap)
    (m : TaskManager) (r : ref) :
  let t := (run steps h m).1.1 r in
  func t = func (h r) /\ expire_at t = expire_at (h r)
  /\ info t = info (h r) /\ tag t = tag (h r)
  /\ rank t <= rank (h r) /\ retry (h r) <= retry t.
Proof.
  intros t. subst t. destruct (only_ages_run steps h m) as [Hs Hm].
  destruct (Hs r) as (? & ? & ? & ?). destruct (Hm r). done.
Qed.


Lemma plain_call_last c h m :
  is_check c = false ->
  _last_execute_at (plain_call c h m).1.2 = _last_execute_at m.
Proof.
  intros Hc. destruct c as [task| |ty|e]; simpl; try done.
  unfold add_task. by destruct (_ <=? _).
Qed.

Lemma on_exception_last h m t :
  _last_execute_at (on_exception h m t).1.2 = _last_execute_at m.
Proof.
  unfold on_exception. destruct (_ <? _); [|done].
  unfold add_task. by destruct (_ <=? _).
Qed.

Lemma plain_call_func c h m x :
  func ((plain_call c h m).1.1 x) = func (h x).
Proof.
  destruct c as [task| |ty|e]; simpl; try done.
  by destruct (add_task h m task) as [[??]?].
Qed.

Lemma last_execute_at_cycle reenter e iv h m t0 :
  respects_lock reenter -> _lock m = true -> _last_execute_at m = t0 ->
  let r := execute_loop reenter (length (_queue m)) e iv 0 h m in
  _last_execute_at r.1.2 = t0
  \/ exists t res, Invoke t ∈ r.2 /\ await_func e (func (r.1.1 t)) = Returns res.
Proof.
  intros Hre Hl Ht0.
  refine (cycle_rule reenter Hre e iv (fun _ => True)
            (fun p => Forall_true _ (iv p) (fun _ => I))
            (fun _ _ m => _last_execute_at m = t0)
            (fun s t tr h m =>
               match s with
               | Returned =>
                   Invoke t ∈ tr
                   /\ exists res, await_func e (func (h t)) = Returns res
               | Awaiting => Invoke t ∈ tr /\ _last_execute_at m = t0
               | Pacing => _last_execute_at m = t0
               end)
            (fun tr h m =>
               _last_execute_at m = t0
               \/ exists t res,
                    Invoke t ∈ tr /\ await_func e (func (h t)) = Returns res)
            _ _ _ _ _ _ _ _ _ _ _ (length (_queue m)) 0%nat [] h m _ Hl _);
    try done.
  - intros tr h0 m1 Hq H0. by left.
  - intros tr h0 m1 task rest h1 m2 msg H0 _ Ep _.
    apply popped_inv in Ep as (_ & _ & _ & Hlast). congruence.
  - intros tr h0 m1 task rest h1 m2 H0 _ Ep _.
    apply popped_inv in Ep as (_ & _ & _ & Hlast). congruence.
  - intros s t tr h0 m1 ev Hq H0. destruct s; [done| |];
      (split; [apply elem_of_app; left; apply H0|apply H0]).
  - intros s t tr h0 m1 c _ Hc H0.
    rewrite plain_call_last by done. rewrite plain_call_func.
    destruct s; [done| |];
      (split; [apply elem_of_app; left; apply H0|apply H0]).
  - intros t tr h0 m1 H0. split; [|done]. apply elem_of_app. right. by left.
  - intros t tr h0 m1 res ts Hres [H0 _]. split; [done|]. by exists res.
  - intros t tr h0 m1 [H0 [res Hres]]. right. exists t, res. split; [|done].
    apply elem_of_app. by left.
  - intros s t tr h0 m1 Hr H0. rewrite on_exception_last.
    destruct (on_exception_effect h0 m1 t) as (Hst & _).
    destruct (Hst t) as (Hf & _).
    destruct Hr as [[-> Hraise]| ->].
    + left. apply H0.
    + right. destruct H0 as [H0 [res Hres]]. exists t, res. rewrite Hf.
      split; [|done]. apply elem_of_app. by left.
  - intros t tr h0 m0 exc H0. by left.
Qed.

(** X9. A call of [check_and_execute] moves [_last_execute_at] only if the
    action of a task it awaited returned. If every action raises, the
    pacing clock stays where it was: a failed attempt does not count as an
    execution for the gap between tasks. *)
Theorem pacing_clock_moves_only_on_return (e : Env) (iv : Interference)
    (h : Heap) (m : TaskManager) :
  _lock m = false ->
  let r := check_and_execute e iv h m in
  (_last_execute_at r.1.2 = _last_execute_at m
   \/ exists t res,
        Invoke t ∈ r.2 /\ await_func e (func (h t)) = Returns res)
  /\ ((forall f, await_func e f = Raises) ->
      _last_execute_at r.1.2 = _last_execute_at m).
Proof.
  intros Hl r. subst r. rewrite check_and_execute_free by done.
  set (m0 := set_running (set_lock m true) true).
  pose proof (last_execute_at_cycle check_and_execute_inner e iv h m0
                (_last_execute_at m)
                check_and_execute_inner_respects_lock eq_refl eq_refl) as H.
  unfold _execute_next. cbv zeta in H.
  destruct (execute_loop _ _ _ _ _ _ _) as [[h' m'] tr] eqn:Eloop.
  cbn [fst snd] in *.
  change (_last_execute_at (set_lock (set_running m' false) false))
    with (_last_execute_at m').
  split.
  - destruct H as [H|(t & res & Hin & Hres)]; [by left|]. right.
    exists t, res. split; [done|].
    destruct (only_ages_loop check_and_execute_inner e iv h m0
                check_and_execute_inner_respects_lock eq_refl) as [Hs _].
    rewrite Eloop in Hs. destruct (Hs t) as (Hf & _). simpl in Hf.
    by rewrite <- Hf.
  - intros Hall. destruct H as [H|(t & res & _ & Hres)]; [done|].
    by rewrite Hall in Hres.
Qed.

Lemma pacing_clock_moves_only_on_return_witness :
  let e := ex_env Raises CbReturns in
  let m := enqueue ex_heap ex_manager [1; 2]%nat in
  _lock m = false
  /\ _last_execute_at (check_and_execute e undisturbed ex_heap m).1.2
     = _last_execute_at m.
Proof.
  intros e m. split; [reflexivity|].
  apply (proj2 (pacing_clock_moves_only_on_return e undisturbed ex_heap m
                  eq_refl)).
  intros f. reflexivity.
Defined.

(** ** The event manager *)

Section Registration.
Import EventManager.
Context {Cb : Type} `{EqDecision Cb}.

Lemma list_remove_absent (cb : Cb) (l : list Cb) :
  cb ∉ l -> list_remove cb l = l.
Proof.
  induction l as [|y l IH]; [done|]. intros Hn.
  apply not_elem_of_cons in Hn as [Hne Hn]. simpl.
  rewrite decide_False by done. by rewrite IH.
Qed.

Lemma list_remove_snoc (cb : Cb) (l : list Cb) :
  cb ∉ l -> list_remove cb (l ++ [cb]) = l.
Proof.
  induction l as [|y l IH]; intros Hn; simpl; [by rewrite decide_True|].
  apply not_elem_of_cons in Hn as [Hne Hn].
  rewrite decide_False by done. by rewrite IH.
Qed.

Lemma list_remove_count (cb x : Cb) (l : list Cb) :
  length (filter (fun y => y = x) (list_remove cb l))
  = if decide (x = cb) then Nat.pred (length (filter (fun y => y = x) l))
    else length (filter (fun y => y = x) l).
Proof.
  induction l as [|y l IH]; simpl; [by destruct (decide (x = cb))|].
  destruct (decide (y = cb)) as [->|Hy].
  - rewrite filter_cons. destruct (decide (x = cb)) as [->|Hx].
    + by rewrite decide_True.
    + rewrite decide_False; [done|congruence].
  - rewrite !filter_cons. destruct (decide (y = x)) as [->|Hyx].
    + rewrite decide_False by done. simpl. by rewrite IH, decide_False.
    + rewrite IH. done.
Qed.

Lemma list_remove_others (cb : Cb) (l : list Cb) :
  filter (fun y => y <> cb) (list_remove cb l) = filter (fun y => y <> cb) l.
Proof.
  induction l as [|y l IH]; simpl; [done|].
  destruct (decide (y = cb)) as [->|Hy].
  - rewrite filter_cons, decide_False; [done|]. by intros ?.
  - by rewrite !filter_cons, IH.
Qed.

Lemma list_remove_first (cb : Cb) (l : list Cb) :
  cb ∈ l ->
  exists l1 l2, l = l1 ++ cb :: l2 /\ (cb ∉ l1) /\ list_remove cb l = l1 ++ l2.
Proof.
  induction l as [|y l IH]; intros Hin; [by apply elem_of_nil in Hin|].
  simpl. destruct (decide (y = cb)) as [->|Hne].
  - exists [], l. split; [done|]. split; [apply not_elem_of_nil|done].
  - apply elem_of_cons in Hin as [->|Hin]; [done|].
    destruct (IH Hin) as (l1 & l2 & -> & Hn & ->).
    exists (y :: l1), l2. split; [done|]. split; [|done].
    apply not_elem_of_cons. split; [congruence|done].
Qed.

(** X10. [off] removes one registration of the callback for the state,
    the earliest: a callback registered twice is still registered once.
    The other callbacks of the state keep their order, the other states
    and the current state are untouched, and [off] of a callback that is
    not registered changes nothing (it does not raise). *)
Theorem off_removes_one_registration (m : t Cb) (state : BotState.t)
    (callback : Cb) :
  let l := _listeners m state in
  let l' := _listeners (off m state callback) state in
  (callback ∈ l ->
   exists l1 l2, l = l1 ++ callback :: l2 /\ (callback ∉ l1) /\ l' = l1 ++ l2)
  /\ (forall x, length (filter (fun y => y = x) l')
                = if decide (x = callback)
                  then Nat.pred (length (filter (fun y => y = x) l))
                  else length (filter (fun y => y = x) l))
  /\ filter (fun y => y <> callback) l' = filter (fun y => y <> callback) l
  /\ (forall s, s <> state -> _listeners (off m state callback) s = _listeners m s)
  /\ (callback ∉ l -> off m state callback = m)
  /\ current_state (off m state callback) = current_state m.
Proof.
  intros l l'. subst l l'. unfold off.
  destruct (bool_decide_reflect (callback ∈ _listeners m state)) as [Hin|Hn].
  - cbn [_listeners set_listeners]. rewrite decide_True by done.
    split; [intros _; by apply list_remove_first|].
    split; [intros x; apply list_remove_count|].
    split; [apply list_remove_others|].
    split; [intros s Hs; by rewrite decide_False|]. by split.
  - split; [done|]. split.
    { intros x. destruct (decide (x = callback)) as [->|]; [|done].
      assert (filter (fun y => y = callback) (_listeners m state) = []) as ->;
        [|done].
      apply filter_none, Forall_forall. intros y Hy ->. done. }
    by repeat split.
Qed.

(** X11. [off] undoes [on]: registering a callback that was not yet
    registered for the state and removing it again leaves the listeners
    of every state as they were. *)
Theorem off_undoes_on (m : t Cb) (state : BotState.t) (callback : Cb) :
  callback ∉ _listeners m state ->
  forall s, _listeners (off (on m state callback) state callback) s
            = _listeners m s.
Proof.
  intros Hn s. unfold off, on. cbn [_listeners set_listeners].
  rewrite decide_True by done. rewrite bool_decide_true by set_solver.
  rewrite list_remove_snoc by done. cbn [_listeners set_listeners].
  by destruct (decide (s = state)) as [->|].
Qed.

End Registration.

Section Emission.
Import EventManager.
Context {Cb : Type} `{EqDecision Cb} {W : Type}.
Variable listener : Cb -> Listener W.

Lemma calls_app (tr tr' : list (Event Cb)) :
  calls (tr ++ tr') = calls tr ++ calls tr'.
Proof. unfold calls. by rewrite omap_app. Qed.

Lemma errors_app (tr tr' : list (Event Cb)) :
  errors (tr ++ tr') = errors tr ++ errors tr'.
Proof. unfold errors. by rewrite omap_app. Qed.


Lemma notify_spec state callbacks : forall w,
  (notify listener state callbacks w).1 = run_bodies listener callbacks w
  /\ calls (notify listener state callbacks w).2 = callbacks
  /\ errors (notify listener state callbacks w).2 `sublist_of` callbacks.
Proof.
  induction callbacks as [|cb rest IH]; intros w; [done|]. simpl.
  destruct (body (listener cb) w) as [w1 raised] eqn:Eb.
  specialize (IH w1). destruct (notify listener state rest w1) as [w2 tr].
  destruct IH as (IH1 & IH2 & IH3). simpl in *.
  split; [done|]. split.
  - f_equal. rewrite calls_app. destruct (kind (listener cb)), raised; by simpl.
  - rewrite errors_app.
    destruct (kind (listener cb)), raised; simpl;
      (by apply sublist_skip) || (by apply sublist_cons).
Qed.

Lemma emit_calls (m : t Cb) (state : BotState.t) (w : W) :
  calls (emit listener m state w).2 = _listeners m state
  /\ (emit listener m state w).1.2 = run_bodies listener (_listeners m state) w.
Proof.
  unfold emit. cbn [_listeners set_current_state].
  destruct (notify_spec state (_listeners m state) w) as (H1 & H2 & _).
  destruct (notify listener state (_listeners m state) w) as [w' tr].
  by simpl in *.
Qed.

(** X12. [emit] calls every listener registered for the state, once each
    and in the order of registration, whether or not an earlier one
    raised: each runs in the state the one before it left. The errors it
    logs are of listeners of that state, it records the state as the
    current one and it leaves the listeners as they are. *)
Theorem emit_reaches_every_listener (m : t Cb) (state : BotState.t) (w : W) :
  let r := emit listener m state w in
  calls r.2 = _listeners m state
  /\ r.1.2 = run_bodies listener (_listeners m state) w
  /\ errors r.2 `sublist_of` _listeners m state
  /\ current_state r.1.1 = Some state
  /\ (forall s, _listeners r.1.1 s = _listeners m s).
Proof.
  intros r. subst r. unfold emit. cbn [_listeners set_current_state].
  destruct (notify_spec state (_listeners m state) w) as (H1 & H2 & H3).
  destruct (notify listener state (_listeners m state) w) as [w' tr].
  by simpl in *.
Qed.

(** X13. [setup] appends, for every state, the callback given for it to
    the listeners of that state, and nothing for a callback left out; it
    does not replace what was registered before. Emitting a state then
    calls the old listeners and the given one, in that order. *)
Theorem setup_registers_the_given_handlers (m : t Cb)
    (on_init on_running on_defeated on_blocked on_banned on_stopped : option Cb)
    (state : BotState.t) (w : W) :
  let m' := setup m on_init on_running on_defeated on_blocked on_banned
              on_stopped in
  let given := handler_for on_init on_running on_defeated on_blocked on_banned
                 on_stopped state in
  _listeners m' state = _listeners m state ++ option_list given
  /\ calls (emit listener m' state w).2 = _listeners m state ++ option_list given
  /\ current_state m' = current_state m.
Proof.
  intros m' given.
  assert (_listeners m' state = _listeners m state ++ option_list given) as Hl.
  { subst m' given. unfold setup, on.
    destruct on_init, on_running, on_defeated, on_blocked, on_banned,
      on_stopped, state; cbn; by rewrite ?app_nil_r. }
  split; [done|]. split.
  - destruct (emit_calls m' state w) as [Hc _]. by rewrite Hc.
  - subst m'. unfold setup, on.
    by destruct on_init, on_running, on_defeated, on_blocked, on_banned,
      on_stopped.
Qed.

(** X14. After [clear_listeners()] no state has a listener: an emission
    calls nothing and changes nothing. [clear_listeners(state)] empties the
    listeners of that state only. Neither touches the current state. *)
Theorem clear_listeners_silences (m : t Cb) (state s : BotState.t) (w : W) :
  let all := clear_listeners m None in
  let one := clear_listeners m (Some state) in
  _listeners all s = []
  /\ (emit listener all s w).1.2 = w /\ calls (emit listener all s w).2 = []
  /\ _listeners one state = []
  /\ (s <> state -> _listeners one s = _listeners m s)
  /\ current_state all = current_state m
  /\ current_state one = current_state m.
Proof.
  intros all one.
  assert (_listeners all s = []) as Hall by (subst all; by destruct s).
  split; [done|].
  destruct (emit_calls all s w) as [Hc Hw]. rewrite Hall in Hc, Hw.
  split; [done|]. split; [done|]. subst one. cbn.
  split; [by rewrite decide_True|].
  split; [intros Hs; by rewrite decide_False|]. done.
Qed.

Lemma scheduled_app (tr tr' : list (Event Cb)) :
  scheduled (tr ++ tr') = scheduled tr ++ scheduled tr'.
Proof. unfold scheduled. by rewrite omap_app. Qed.

Lemma notify_sync_spec state callbacks : forall w,
  let r := notify_sync listener state callbacks w in
  r.1 = run_bodies listener
          (filter (fun cb => kind (listener cb) = Plain) callbacks) w
  /\ calls r.2 = callbacks
  /\ scheduled r.2 = filter (fun cb => kind (listener cb) = Coroutine) callbacks
  /\ errors r.2
     `sublist_of` filter (fun cb => kind (listener cb) = Plain) callbacks.
Proof.
  induction callbacks as [|cb rest IH]; intros w; [done|]. simpl.
  rewrite !filter_cons. destruct (kind (listener cb)) eqn:Ek.
  - rewrite decide_True, decide_False by done.
    destruct (body (listener cb) w) as [w1 raised] eqn:Eb.
    specialize (IH w1). cbv zeta in IH.
    destruct (notify_sync listener state rest w1) as [w2 tr].
    destruct IH as (IH1 & IH2 & IH3 & IH4). cbn [fst snd] in *.
    split; [by rewrite IH1; simpl; rewrite Eb|].
    split; [destruct raised; simpl; by f_equal|].
    split; [by destruct raised|].
    destruct raised; simpl; [by apply sublist_skip|by apply sublist_cons].
  - rewrite decide_False, decide_True by done.
    specialize (IH w). cbv zeta in IH.
    destruct (notify_sync listener state rest w) as [w2 tr].
    destruct IH as (IH1 & IH2 & IH3 & IH4). cbn [fst snd] in *.
    split; [done|]. split; [simpl; by f_equal|]. split; [simpl; by f_equal|].
    done.
Qed.

Lemma filter_all {A} (P : A -> Prop) `{forall x, Decision (P x)} (l : list A) :
  Forall P l -> filter P l = l.
Proof.
  induction 1 as [|x l Hx _ IH]; [done|]. by rewrite filter_cons_True, IH.
Qed.

(** X15. [emit_sync] calls every listener of the state, in order. A
    listener that returns a coroutine is handed to the event loop instead
    of being awaited: its body has not run when [emit_sync] returns, and
    an error it raises later is not logged by [emit_sync]. When all
    listeners are plain functions, [emit_sync] leaves the state [emit]
    leaves and logs the same errors. *)
Theorem emit_sync_defers_coroutines (m : t Cb) (state : BotState.t) (w : W) :
  let l := _listeners m state in
  let plain := filter (fun cb => kind (listener cb) = Plain) l in
  let r := emit_sync listener m state w in
  calls r.2 = l
  /\ scheduled r.2 = filter (fun cb => kind (listener cb) = Coroutine) l
  /\ r.1.2 = run_bodies listener plain w
  /\ errors r.2 `sublist_of` plain
  /\ current_state r.1.1 = Some state
  /\ (Forall (fun cb => kind (listener cb) = Plain) l ->
      r.1.2 = (emit listener m state w).1.2
      /\ errors r.2 = errors (emit listener m state w).2).
Proof.
  intros l plain r. subst l plain r. unfold emit_sync.
  cbn [_listeners set_current_state].
  pose proof (notify_sync_spec state (_listeners m state) w) as H.
  cbv zeta in H.
  destruct (notify_sync listener state (_listeners m state) w) as [w' tr] eqn:En.
  destruct H as (H1 & H2 & H3 & H4). cbn [fst snd] in *.
  do 4 (split; [done|]). split; [done|]. intros Hp.
  unfold emit. cbn [_listeners set_current_state].
  assert (forall callbacks w0, Forall (fun cb => kind (listener cb) = Plain) callbacks ->
            (notify listener state callbacks w0).1
            = (notify_sync listener state callbacks w0).1
            /\ errors (notify listener state callbacks w0).2
               = errors (notify_sync listener state callbacks w0).2) as Hsame.
  { clear. induction callbacks as [|cb rest IH]; intros w0 Hp; [done|].
    apply Forall_cons in Hp as [Hk Hp]. simpl. rewrite Hk.
    destruct (body (listener cb) w0) as [w1 raised].
    specialize (IH w1 Hp).
    destruct (notify listener state rest w1) as [w2 tr2].
    destruct (notify_sync listener state rest w1) as [w3 tr3].
    simpl in *. destruct IH as [-> IH]. split; [done|].
    destruct raised; simpl; by rewrite IH. }
  destruct (Hsame (_listeners m state) w Hp) as [Hw He].
  rewrite En in Hw, He.
  destruct (notify listener state (_listeners m state) w) as [w2 tr2].
  by simpl in *.
Qed.

End Emission.

Lemma off_undoes_on_witness :
  let m := EventManager.on EventManager.init BotState.RUNNING 1%nat in
  (2%nat ∉ EventManager._listeners m BotState.RUNNING)
  /\ EventManager._listeners
       (EventManager.off (EventManager.on m BotState.RUNNING 2%nat)
          BotState.RUNNING 2%nat) BotState.RUNNING
     = EventManager._listeners m BotState.RUNNING.
Proof.
  intros m.
  assert (2%nat ∉ EventManager._listeners m BotState.RUNNING) as Hn.
  { apply not_elem_of_cons. split; [discriminate|apply not_elem_of_nil]. }
  split; [exact Hn|].
  exact (off_undoes_on m BotState.RUNNING 2%nat Hn BotState.RUNNING).
Defined.

(** ** The controller's timers *)

Lemma cancel_timer_absent b key :
  Bot._timers b !! key = None -> Bot._cancel_timer b key = b.
Proof. intros E. unfold Bot._cancel_timer. by rewrite E. Qed.

Lemma cancel_timer_idem b key :
  Bot._cancel_timer (Bot._cancel_timer b key) key = Bot._cancel_timer b key.
Proof.
  apply cancel_timer_absent. unfold Bot._cancel_timer.
  destruct (Bot._timers b !! key) eqn:E; [|done]. cbn. apply lookup_delete_eq.
Qed.

(** X16. [refresh_timer] does what [_add_timer_from_key] does: its own
    call of [_cancel_timer] leaves nothing for the second one to cancel.
    [_cancel_timer] of a key without a timer changes nothing, and with a
    key other than "map", "prof" and "verify" refreshing only cancels. *)
Theorem refresh_timer_cancels_once (b : Bot.t) (key : string) :
  Bot.refresh_timer b key = Bot._add_timer_from_key b key
  /\ Bot._cancel_timer (Bot._cancel_timer b key) key = Bot._cancel_timer b key
  /\ (Bot._timers b !! key = None -> Bot._cancel_timer b key = b)
  /\ (key ∉ ["map"; "prof"; "verify"]%string ->
      Bot.refresh_timer b key = Bot._cancel_timer b key).
Proof.
  split; [|split; [|split]].
  - unfold Bot.refresh_timer, Bot._add_timer_from_key. cbv zeta.
    by rewrite cancel_timer_idem.
  - apply cancel_timer_idem.
  - apply cancel_timer_absent.
  - intros Hk. unfold Bot.refresh_timer, Bot._add_timer_from_key. cbv zeta.
    rewrite cancel_timer_idem.
    destruct (String.eqb_spec key "map") as [->|_]; [set_solver|].
    destruct (String.eqb_spec key "prof") as [->|_]; [set_solver|].
    destruct (String.eqb_spec key "verify") as [->|_]; [set_solver|]. done.
Qed.


Lemma start_timer_spec b key :
  Bot._timers (Bot.start_timer b key) !! key = Some (Bot.next_timer b)
  /\ Bot.sleeping (Bot.start_timer b key) !! Bot.next_timer b = Some key
  /\ forall k, k <> key ->
       Bot._timers (Bot.start_timer b key) !! k = Bot._timers b !! k.
Proof.
  unfold Bot.start_timer. cbn. rewrite !lookup_insert_eq.
  split; [done|]. split; [done|]. intros k Hk. by rewrite lookup_insert_ne.
Qed.

(** X17. [Controller.add_task] with one of the keys "map", "prof",
    "verify" returns what the task manager's [add_task] returns and
    restarts the timer of the key whether or not the task was admitted:
    the timer that was registered no longer sleeps, a new one sleeps and
    is registered, and the timers of the other keys are untouched. *)
Theorem add_task_restarts_the_timer (b : Bot.t) (task : ref) (key : string) :
  key ∈ ["map"; "prof"; "verify"]%string ->
  let r := Bot.add_task b task (Some key) in
  r.2 = (add_task (Bot.heap b) (Bot.task_manager b) task).1.2
  /\ Bot.task_manager r.1 = (add_task (Bot.heap b) (Bot.task_manager b) task).1.1
  /\ Bot._timers r.1 !! key = Some (Bot.next_timer b)
  /\ Bot.sleeping r.1 !! Bot.next_timer b = Some key
  /\ (forall old, Bot._timers b !! key = Some old -> old <> Bot.next_timer b ->
        Bot.sleeping r.1 !! old = None)
  /\ (forall k, k <> key -> Bot._timers r.1 !! k = Bot._timers b !! k).
Proof.
  intros Hkey r. subst r. unfold Bot.add_task.
  destruct (add_task (Bot.heap b) (Bot.task_manager b) task) as [[m ok] tr].
  assert (String.eqb key "" = false) as ->.
  { apply String.eqb_neq. intros ->. set_solver. }
  cbn [fst snd]. split; [done|].
  set (b1 := Bot.set_task_manager b m tr).
  assert (Bot._add_timer_from_key b1 key
          = Bot.start_timer (Bot._cancel_timer b1 key) key) as ->.
  { unfold Bot._add_timer_from_key. cbv zeta.
    destruct (String.eqb_spec key "map"); [done|].
    destruct (String.eqb_spec key "prof"); [done|].
    destruct (String.eqb_spec key "verify"); [done|]. set_solver. }
  destruct (start_timer_spec (Bot._cancel_timer b1 key) key) as (E1 & E2 & E3).
  assert (Bot.next_timer (Bot._cancel_timer b1 key) = Bot.next_timer b) as En.
  { unfold Bot._cancel_timer. by destruct (Bot._timers b1 !! key). }
  rewrite En in E1, E2.
  split; [unfold Bot.start_timer, Bot._cancel_timer;
          by destruct (Bot._timers b1 !! key)|].
  split; [done|]. split; [done|]. split.
  - intros old Ho Hne. unfold Bot.start_timer. cbn. rewrite En.
    rewrite lookup_insert_ne by done. unfold Bot._cancel_timer.
    change (Bot._timers b1) with (Bot._timers b). rewrite Ho. cbn.
    apply lookup_delete_eq.
  - intros k Hk. rewrite E3 by done. unfold Bot._cancel_timer.
    change (Bot._timers b1) with (Bot._timers b).
    destruct (Bot._timers b !! key); [|done]. cbn. by rewrite lookup_delete_ne.
Qed.

(** Reading a field of a state written with the setters. *)
Ltac bot_fields :=
  cbn [fst snd Bot.player Bot.profession Bot.heap Bot.next_ref Bot.clock
       Bot.task_manager Bot.manager_log Bot.event_manager Bot.events_log
       Bot._current_state Bot.effects Bot._timers Bot.next_timer Bot.sleeping
       Bot.emits Bot.set_player Bot.set_heap Bot.tick Bot.set_task_manager
       Bot.set_event_manager Bot.set_current_state Bot.log Bot.set_timers
       Bot.set_next_timer Bot.set_emits EventManager.current_state
       EventManager._current_state EventManager._listeners
       EventManager.set_current_state].

Section BotFacts.
Variable time_ms : nat -> float.

Lemma cancel_timer_tracked b key :
  Bot.timers_tracked b ->
  Bot.timers_tracked (Bot._cancel_timer b key) /\
  Bot.no_sleeper key (Bot._cancel_timer b key).
Proof.
  intros (H1 & H2 & H3 & H4). unfold Bot._cancel_timer.
  destruct (Bot._timers b !! key) as [timer|] eqn:Ek.
  - unfold Bot.no_sleeper. split; [split; [|split; [|split]]|]; cbn.
    + intros t k Hs. apply lookup_delete_Some in Hs as [Hne Hs].
      apply lookup_delete_Some. split; [|by apply H1].
      intros <-. apply H1 in Hs. congruence.
    + intros t k Hs. apply lookup_delete_Some in Hs as [_ Hs]. by eapply H2.
    + intros k t Hk. apply lookup_delete_Some in Hk as [_ Hk]. by apply H3.
    + intros k k' t Hk Hk'. apply lookup_delete_Some in Hk as [_ Hk].
      apply lookup_delete_Some in Hk' as [_ Hk']. by eapply H4.
    + intros t Hs. apply lookup_delete_Some in Hs as [Hne Hs].
      apply H1 in Hs. congruence.
  - split; [done|]. intros t Hs. apply H1 in Hs. congruence.
Qed.

Lemma start_timer_tracked b key :
  key ∈ ["map"; "prof"; "verify"]%string ->
  Bot.timers_tracked b -> Bot.no_sleeper key b ->
  Bot.timers_tracked (Bot.start_timer b key).
Proof.
  intros Hkey (H1 & H2 & H3 & H4) Hno. unfold Bot.start_timer.
  split; [|split; [|split]]; cbn.
  - intros t k Hs. apply lookup_insert_Some in Hs as [[<- <-]|[Hne Hs]].
    + by rewrite lookup_insert_eq.
    + rewrite lookup_insert_ne; [by apply H1|]. intros <-. by apply Hno in Hs.
  - intros t k Hs. apply lookup_insert_Some in Hs as [[<- <-]|[Hne Hs]]; [lia|].
    apply H2 in Hs. lia.
  - intros k t Hk. apply lookup_insert_Some in Hk as [[<- <-]|[Hne Hk]].
    + split; [lia|done].
    + apply H3 in Hk as [??]. split; [lia|done].
  - intros k k' t Hk Hk'.
    apply lookup_insert_Some in Hk as [[<- <-]|[Hne Hk]];
      apply lookup_insert_Some in Hk' as [[<- E]|[Hne' Hk']]; try done.
    + apply H3 in Hk' as [??]. lia.
    + apply H3 in Hk as [??]. lia.
    + by eapply H4.
Qed.

Lemma same_timers_tracked b b' :
  Bot.same_timers b b' -> Bot.timers_tracked b -> Bot.timers_tracked b'.
Proof. intros (E1 & E2 & E3). unfold Bot.timers_tracked. by rewrite E1, E2, E3. Qed.

Lemma same_timers_no_sleeper key b b' :
  Bot.same_timers b b' -> Bot.no_sleeper key b -> Bot.no_sleeper key b'.
Proof. intros (E1 & E2 & E3). unfold Bot.no_sleeper. by rewrite E2. Qed.

Lemma same_timers_refl b : Bot.same_timers b b.
Proof. done. Qed.

Lemma same_timers_trans b1 b2 b3 :
  Bot.same_timers b1 b2 -> Bot.same_timers b2 b3 -> Bot.same_timers b1 b3.
Proof. intros (?&?&?) (?&?&?). repeat split; congruence. Qed.

Lemma add_task_none_timers b task :
  Bot.same_timers b (Bot.add_task b task None).1.
Proof.
  unfold Bot.add_task. by destruct (add_task _ _ _) as [[??]?].
Qed.

Lemma create_repeating_task_timers b command task_type :
  Bot.same_timers b (Bot._create_repeating_task time_ms b command task_type).1.
Proof. done. Qed.

(** What the three recursions share. *)
Lemma recursion_tracked b key command task_type :
  key ∈ ["map"; "prof"; "verify"]%string ->
  Bot.timers_tracked b ->
  Bot.timers_tracked
    (let b := Bot._cancel_timer b key in
     let '(b, task) := Bot._create_repeating_task time_ms b command task_type in
     let '(b, _) := Bot.add_task b task None in
     Bot.start_timer b key).
Proof.
  intros Hkey Ht. cbv zeta.
  destruct (cancel_timer_tracked b key Ht) as [Ht1 Hno1].
  set (b1 := Bot._cancel_timer b key) in *.
  pose proof (create_repeating_task_timers b1 command task_type) as Hs2.
  destruct (Bot._create_repeating_task time_ms b1 command task_type) as [b2 task].
  pose proof (add_task_none_timers b2 task) as Hs3.
  destruct (Bot.add_task b2 task None) as [b3 ok]. simpl in *.
  pose proof (same_timers_trans _ _ _ Hs2 Hs3) as Hs.
  apply start_timer_tracked; [done| |].
  - by eapply same_timers_tracked.
  - by eapply same_timers_no_sleeper.
Qed.

Lemma map_recursion_tracked b :
  Bot.timers_tracked b -> Bot.timers_tracked (Bot._map_recursion time_ms b).
Proof. apply recursion_tracked. set_solver. Qed.

Lemma prof_recursion_tracked b :
  Bot.timers_tracked b -> Bot.timers_tracked (Bot._prof_recursion time_ms b).
Proof.
  intros Ht. unfold Bot._prof_recursion. destruct (String.eqb _ _); [done|].
  apply recursion_tracked; [set_solver|done].
Qed.

Lemma verify_recursion_tracked b :
  Bot.timers_tracked b -> Bot.timers_tracked (Bot._verify_recursion time_ms b).
Proof. apply recursion_tracked. set_solver. Qed.


Lemma cancel_all_sleeping (l : list (string * Bot.Timer)) (s : gmap Bot.Timer string)
    (timer : Bot.Timer) :
  foldr (fun '(_, timer) s => delete timer s) s l !! timer
  = if bool_decide (timer ∈ l.*2) then None else s !! timer.
Proof.
  induction l as [|[k t] l IH]; [done|]. simpl.
  destruct (decide (t = timer)) as [->|Hne].
  - rewrite lookup_delete_eq. rewrite bool_decide_true; [done|by left].
  - rewrite lookup_delete_ne by done. rewrite IH.
    destruct (bool_decide_reflect (timer ∈ l.*2)) as [Hin|Hn].
    + rewrite bool_decide_true; [done|by right].
    + rewrite bool_decide_false; [done|]. intros Hin.
      apply elem_of_cons in Hin as [->|Hin]; done.
Qed.

Lemma cancel_all_timers_spec b :
  Bot.timers_tracked b ->
  Bot._timers (Bot._cancel_all_timers b) = ∅
  /\ Bot.sleeping (Bot._cancel_all_timers b) = ∅
  /\ Bot.next_timer (Bot._cancel_all_timers b) = Bot.next_timer b.
Proof.
  intros (H1 & _). unfold Bot._cancel_all_timers. cbn.
  split; [done|]. split; [|done]. apply map_eq. intros timer.
  rewrite lookup_empty, cancel_all_sleeping.
  destruct (bool_decide_reflect (timer ∈ (map_to_list (Bot._timers b)).*2))
    as [Hin|Hn]; [done|].
  destruct (Bot.sleeping b !! timer) as [key|] eqn:Es; [|done].
  exfalso. apply Hn. apply H1 in Es. apply list_elem_of_fmap.
  exists (key, timer). split; [done|]. by apply elem_of_map_to_list.
Qed.

Lemma cancel_all_timers_tracked b :
  Bot.timers_tracked b -> Bot.timers_tracked (Bot._cancel_all_timers b).
Proof.
  intros Ht. destruct (cancel_all_timers_spec b Ht) as (E1 & E2 & E3).
  unfold Bot.timers_tracked. rewrite E1, E2.
  split; [|split; [|split]]; intros ??; by rewrite lookup_empty.
Qed.

Lemma update_state_timers b new_state :
  Bot.same_timers b (Bot.update_state b new_state).1.
Proof.
  unfold Bot.update_state. cbv zeta.
  destruct (decide _); [|done]. by destruct (PlayerState.of_value _).
Qed.

Lemma update_state_never_raises b new_state :
  (Bot.update_state b new_state).2 = false.
Proof.
  unfold Bot.update_state. cbv zeta.
  destruct (decide _); [|done].
  by destruct (PlayerState_of_BotState_value new_state) as (ps & -> & _).
Qed.



Lemma same_events_refl b : Bot.same_events b b.
Proof. done. Qed.

Lemma same_events_trans b1 b2 b3 :
  Bot.same_events b1 b2 -> Bot.same_events b2 b3 -> Bot.same_events b1 b3.
Proof. intros [??] [??]. split; congruence. Qed.

Lemma cancel_timer_events b key : Bot.same_events b (Bot._cancel_timer b key).
Proof. unfold Bot._cancel_timer. by destruct (_ !! _). Qed.

Lemma add_timer_from_key_events b key :
  Bot.same_events b (Bot._add_timer_from_key b key).
Proof.
  unfold Bot._add_timer_from_key. cbv zeta.
  eapply same_events_trans; [apply (cancel_timer_events b key)|].
  by repeat destruct (String.eqb _ _).
Qed.

Lemma add_task_events b task timer_key :
  Bot.same_events b (Bot.add_task b task timer_key).1.
Proof.
  unfold Bot.add_task. destruct (add_task _ _ _) as [[m ok] tr].
  destruct timer_key as [key|]; [|done]. destruct (String.eqb key ""); [done|].
  simpl. eapply same_events_trans; [|apply add_timer_from_key_events]. done.
Qed.

Lemma recursion_events b key command task_type :
  Bot.same_events b
    (let b := Bot._cancel_timer b key in
     let '(b, task) := Bot._create_repeating_task time_ms b command task_type in
     let '(b, _) := Bot.add_task b task None in
     Bot.start_timer b key).
Proof.
  cbv zeta. pose proof (cancel_timer_events b key) as H1.
  set (b1 := Bot._cancel_timer b key) in *.
  unfold Bot._create_repeating_task, Bot.new_task.
  set (b2 := Bot.set_heap _ _).
  pose proof (add_task_events b2 (Bot.next_ref (Bot.tick b1)) None) as H2.
  destruct (Bot.add_task b2 _ None) as [b3 ok]. simpl in H2.
  eapply same_events_trans; [exact H1|].
  eapply same_events_trans; [|exact H2]. done.
Qed.

Lemma prof_recursion_events b : Bot.same_events b (Bot._prof_recursion time_ms b).
Proof.
  unfold Bot._prof_recursion. destruct (String.eqb _ _); [done|].
  apply recursion_events.
Qed.

Lemma update_state_events b new_state :
  Bot.same_events b (Bot.update_state b new_state).1.
Proof.
  unfold Bot.update_state. cbv zeta.
  destruct (decide _); [|done]. by destruct (PlayerState.of_value _).
Qed.

Lemma handler_events h b :
  Bot.same_events b (EventManager.body (Bot.listener time_ms h) b).1.
Proof.
  destruct h; simpl; try done.
  - unfold Bot._on_init.
    pose proof (update_state_events b BotState.RUNNING) as H1.
    destruct (Bot.update_state b BotState.RUNNING) as [b1 raised].
    destruct raised; [done|]. simpl in *.
    eapply same_events_trans; [exact H1|].
    eapply same_events_trans; [|apply prof_recursion_events].
    apply recursion_events.
  - apply recursion_events.
Qed.

Lemma handler_never_raises h b :
  (EventManager.body (Bot.listener time_ms h) b).2 = false.
Proof.
  destruct h; simpl; try done. unfold Bot._on_init.
  pose proof (update_state_never_raises b BotState.RUNNING) as Hr.
  destruct (Bot.update_state b BotState.RUNNING) as [b1 raised].
  simpl in Hr. by subst.
Qed.

Lemma handler_tracked h b :
  Bot.timers_tracked b ->
  Bot.timers_tracked (EventManager.body (Bot.listener time_ms h) b).1.
Proof.
  intros Ht. destruct h; simpl; try done.
  - unfold Bot._on_init.
    pose proof (update_state_timers b BotState.RUNNING) as Hs.
    destruct (Bot.update_state b BotState.RUNNING) as [b1 raised].
    simpl in Hs. apply (same_timers_tracked _ _ Hs) in Ht.
    destruct raised; [done|]. simpl.
    by apply prof_recursion_tracked, map_recursion_tracked.
  - apply cancel_all_timers_tracked. by eapply same_timers_tracked; [|done].
  - by apply verify_recursion_tracked.
  - apply cancel_all_timers_tracked. by eapply same_timers_tracked; [|done].
  - apply cancel_all_timers_tracked. by eapply same_timers_tracked; [|done].
Qed.


(** With the listeners of [__init__], an emission runs the handler of the
    state, and logs no error. *)
Lemma emit_wired b state :
  Bot.wired b ->
  Bot.emit time_ms b state
  = Bot.set_event_manager
      (EventManager.body (Bot.listener time_ms (Bot.handler_of state)) b).1
      (EventManager.set_current_state (Bot.event_manager b) state)
      [EventManager.LogEmitting state;
       EventManager.Called (Bot.handler_of state);
       EventManager.Awaited (Bot.handler_of state)].
Proof.
  intros Hw. unfold Bot.emit, EventManager.emit.
  cbn [EventManager._listeners EventManager.set_current_state].
  rewrite (Hw state). cbn [EventManager.notify].
  pose proof (handler_never_raises (Bot.handler_of state) b) as Hr.
  destruct (EventManager.body _ b) as [b1 raised]. simpl in *. by subst.
Qed.

Lemma wired_same_events b b' : Bot.same_events b b' -> Bot.wired b -> Bot.wired b'.
Proof. intros [E _] Hw s. rewrite E. apply Hw. Qed.

Lemma emit_tracked b state :
  Bot.wired b -> Bot.timers_tracked b ->
  Bot.timers_tracked (Bot.emit time_ms b state).
Proof.
  intros Hw Ht. rewrite emit_wired by done.
  eapply same_timers_tracked; [|by apply (handler_tracked (Bot.handler_of state))].
  done.
Qed.

Lemma emit_keeps_wired b state :
  Bot.wired b -> Bot.wired (Bot.emit time_ms b state).
Proof.
  intros Hw. rewrite emit_wired by done. intros s. cbn. apply Hw.
Qed.

Lemma refresh_timer_tracked b key :
  Bot.timers_tracked b -> Bot.timers_tracked (Bot.refresh_timer b key).
Proof.
  intros Ht. unfold Bot.refresh_timer, Bot._add_timer_from_key. cbv zeta.
  destruct (cancel_timer_tracked b key Ht) as [Ht1 _].
  destruct (cancel_timer_tracked _ key Ht1) as [Ht2 Hno].
  destruct (String.eqb_spec key "map") as [->|_];
    [apply start_timer_tracked; [set_solver|done|done]|].
  destruct (String.eqb_spec key "prof") as [->|_];
    [apply start_timer_tracked; [set_solver|done|done]|].
  destruct (String.eqb_spec key "verify") as [->|_];
    [apply start_timer_tracked; [set_solver|done|done]|]. done.
Qed.

Lemma add_timer_from_key_tracked b key :
  Bot.timers_tracked b -> Bot.timers_tracked (Bot._add_timer_from_key b key).
Proof.
  intros Ht. unfold Bot._add_timer_from_key. cbv zeta.
  destruct (cancel_timer_tracked b key Ht) as [Ht1 Hno].
  destruct (String.eqb_spec key "map") as [->|_];
    [apply start_timer_tracked; [set_solver|done|done]|].
  destruct (String.eqb_spec key "prof") as [->|_];
    [apply start_timer_tracked; [set_solver|done|done]|].
  destruct (String.eqb_spec key "verify") as [->|_];
    [apply start_timer_tracked; [set_solver|done|done]|]. done.
Qed.

Lemma add_task_tracked b task timer_key :
  Bot.timers_tracked b -> Bot.timers_tracked (Bot.add_task b task timer_key).1.
Proof.
  intros Ht. unfold Bot.add_task. destruct (add_task _ _ _) as [[m ok] tr].
  destruct timer_key as [key|]; [|done]. destruct (String.eqb key ""); [done|].
  simpl. by apply add_timer_from_key_tracked.
Qed.

Lemma fire_tracked b timer :
  Bot.timers_tracked b -> Bot.timers_tracked (Bot.fire time_ms b timer).
Proof.
  intros Ht. unfold Bot.fire. destruct (Bot.sleeping b !! timer) as [key|] eqn:Es;
    [|done].
  set (b1 := Bot.set_timers b _ _).
  assert (Bot.timers_tracked b1) as Ht1.
  { destruct Ht as (H1 & H2 & H3 & H4). split; [|split; [|split]]; cbn.
    - intros t k Hs. apply lookup_delete_Some in Hs as [_ Hs]. by apply H1.
    - intros t k Hs. apply lookup_delete_Some in Hs as [_ Hs]. by eapply H2.
    - done.
    - done. }
  destruct (String.eqb key "map"); [by apply map_recursion_tracked|].
  destruct (String.eqb key "prof"); [by apply prof_recursion_tracked|].
  destruct (String.eqb key "verify"); [by apply verify_recursion_tracked|]. done.
Qed.

Lemma fire_events b timer : Bot.same_events b (Bot.fire time_ms b timer).
Proof.
  unfold Bot.fire. destruct (Bot.sleeping b !! timer) as [key|]; [|done].
  set (b1 := Bot.set_timers b _ _).
  assert (Bot.same_events b b1) as H1 by done.
  destruct (String.eqb key "map");
    [eapply same_events_trans; [exact H1|apply recursion_events]|].
  destruct (String.eqb key "prof");
    [eapply same_events_trans; [exact H1|apply prof_recursion_events]|].
  destruct (String.eqb key "verify");
    [eapply same_events_trans; [exact H1|apply recursion_events]|]. done.
Qed.


Lemma sound_same b b' :
  Bot.timers_tracked b' -> Bot.same_events b b' -> Bot.sound b -> Bot.sound b'.
Proof.
  intros Ht Hs (_ & Hw & He). split; [done|]. split; [by eapply wired_same_events|].
  destruct Hs as [_ ->]. done.
Qed.

Lemma sound_emit b state : Bot.sound b -> Bot.sound (Bot.emit time_ms b state).
Proof.
  intros (Ht & Hw & He). split; [by apply emit_tracked|].
  split; [by apply emit_keeps_wired|]. rewrite emit_wired by done.
  cbn [Bot.events_log Bot.set_event_manager].
  destruct (handler_events (Bot.handler_of state) b) as [_ ->].
  unfold EventManager.errors in *. rewrite omap_app, He. done.
Qed.

Lemma sound_op o b : Bot.sound b -> Bot.sound (Bot.op time_ms o b).
Proof.
  intros Hs. destruct o as [f e i tg rk key|key|s| |res| |timer]; simpl.
  - set (b1 := Bot.set_heap _ _).
    eapply (sound_same b1).
    + apply add_task_tracked. by destruct Hs.
    + apply add_task_events.
    + by eapply sound_same; [| |exact Hs]; [by destruct Hs|].
  - eapply sound_same; [by apply refresh_timer_tracked; destruct Hs| |done].
    unfold Bot.refresh_timer.
    eapply same_events_trans; [apply cancel_timer_events|].
    apply add_timer_from_key_events.
  - eapply sound_same; [|apply update_state_events|done].
    eapply same_timers_tracked; [apply update_state_timers|by destruct Hs].
  - eapply sound_same; [by apply verify_recursion_tracked; destruct Hs| |done].
    apply recursion_events.
  - destruct res as [|[s|]]; simpl; try done.
    destruct (decide _); [|done]. apply sound_emit.
    by eapply sound_same; [| |exact Hs]; [by destruct Hs|].
  - unfold Bot.run_emit. destruct (Bot.emits b) as [|s rest]; [done|].
    apply sound_emit. by eapply sound_same; [| |exact Hs]; [by destruct Hs|].
  - eapply sound_same; [by apply fire_tracked; destruct Hs|apply fire_events|done].
Qed.

Lemma sound_init player profession task_gap task_bias retry_count :
  Bot.sound (Bot.init player profession task_gap task_bias retry_count).
Proof.
  split; [|split; [|done]].
  - split; [|split; [|split]]; intros ??; cbn; by rewrite lookup_empty.
  - by intros [].
Qed.

Lemma sound_ops os : forall b, Bot.sound b -> Bot.sound (Bot.ops time_ms os b).
Proof.
  induction os as [|o os IH]; intros b Hs; [done|].
  apply IH. by apply sound_op.
Qed.


(** X18. In every state the controller reaches, a sleeping timer is the
    one registered in [_timers] under its key, and the key is "map", "prof"
    or "verify"; so at most one timer sleeps per key, and after
    [_cancel_all_timers] no timer the controller created is left. *)
Theorem timers_never_leak (os : list Bot.Op) (player : Player.t)
    (profession : string) (task_gap task_bias retry_count : Z) :
  let b := Bot.ops time_ms os
             (Bot.init player profession task_gap task_bias retry_count) in
  (forall timer key, Bot.sleeping b !! timer = Some key ->
     Bot._timers b !! key = Some timer
     /\ key ∈ ["map"; "prof"; "verify"]%string)
  /\ (forall t1 t2 key, Bot.sleeping b !! t1 = Some key ->
        Bot.sleeping b !! t2 = Some key -> t1 = t2)
  /\ Bot.sleeping (Bot._cancel_all_timers b) = ∅
  /\ Bot._timers (Bot._cancel_all_timers b) = ∅.
Proof.
  intros b.
  assert (Bot.sound b) as (Ht & _) by apply sound_ops, sound_init.
  pose proof Ht as (H1 & H2 & H3 & H4).
  split; [|split].
  - intros t k Hs. split; [by apply H1|]. apply H1 in Hs. by apply H3 in Hs as [_ ?].
  - intros t1 t2 k Hs1 Hs2. apply H1 in Hs1, Hs2. congruence.
  - destruct (cancel_all_timers_spec b Ht) as (E1 & E2 & _). done.
Qed.

Lemma same_control_refl b : Bot.same_control b b.
Proof. done. Qed.

Lemma same_control_trans b1 b2 b3 :
  Bot.same_control b1 b2 -> Bot.same_control b2 b3 -> Bot.same_control b1 b3.
Proof. intros (?&?&?&?) (?&?&?&?). repeat split; congruence. Qed.

Lemma cancel_timer_control b key : Bot.same_control b (Bot._cancel_timer b key).
Proof. unfold Bot._cancel_timer. by destruct (_ !! _). Qed.

Lemma recursion_control b key command task_type :
  Bot.same_control b
    (let b := Bot._cancel_timer b key in
     let '(b, task) := Bot._create_repeating_task time_ms b command task_type in
     let '(b, _) := Bot.add_task b task None in
     Bot.start_timer b key).
Proof.
  cbv zeta. pose proof (cancel_timer_control b key) as H1.
  set (b1 := Bot._cancel_timer b key) in *.
  unfold Bot._create_repeating_task, Bot.new_task.
  set (b2 := Bot.set_heap _ _).
  assert (Bot.same_control b1 b2) as H2 by done.
  unfold Bot.add_task.
  destruct (add_task (Bot.heap b2) (Bot.task_manager b2) _) as [[m ok] tr].
  eapply same_control_trans; [exact H1|].
  eapply same_control_trans; [exact H2|]. done.
Qed.

Lemma prof_recursion_control b :
  Bot.same_control b (Bot._prof_recursion time_ms b).
Proof.
  unfold Bot._prof_recursion. destruct (String.eqb _ _); [done|].
  apply recursion_control.
Qed.

Lemma same_timers_runs key b b' :
  Bot.same_timers b b' -> Bot.timer_runs key b -> Bot.timer_runs key b'.
Proof. intros (E1 & E2 & _). unfold Bot.timer_runs. by rewrite E1, E2. Qed.

Lemma start_timer_runs b key : Bot.timer_runs key (Bot.start_timer b key).
Proof.
  destruct (start_timer_spec b key) as (E1 & E2 & _). by eexists.
Qed.

Lemma start_timer_keeps b key key' :
  Bot.timers_tracked b -> key <> key' ->
  Bot.timer_runs key' b -> Bot.timer_runs key' (Bot.start_timer b key).
Proof.
  intros (_ & H2 & _) Hne (t & Ek & Es). exists t. unfold Bot.start_timer. cbn.
  rewrite !lookup_insert_ne; [done| |done]. apply H2 in Es. lia.
Qed.

Lemma cancel_timer_keeps b key key' :
  Bot.timers_tracked b -> key <> key' ->
  Bot.timer_runs key' b -> Bot.timer_runs key' (Bot._cancel_timer b key).
Proof.
  intros (_ & _ & _ & H4) Hne (t & Ek & Es). unfold Bot._cancel_timer.
  destruct (Bot._timers b !! key) as [t0|] eqn:E0; [|by exists t].
  exists t. cbn. rewrite !lookup_delete_ne; [done| |done].
  intros ->. apply Hne. by eapply H4.
Qed.

Lemma recursion_runs b key command task_type :
  Bot.timer_runs key
    (let b := Bot._cancel_timer b key in
     let '(b, task) := Bot._create_repeating_task time_ms b command task_type in
     let '(b, _) := Bot.add_task b task None in
     Bot.start_timer b key).
Proof.
  cbv zeta. destruct (Bot._create_repeating_task _ _ _ _) as [b2 task].
  destruct (Bot.add_task b2 task None) as [b3 ok]. apply start_timer_runs.
Qed.

Lemma recursion_keeps b key key' command task_type :
  Bot.timers_tracked b -> key <> key' -> Bot.timer_runs key' b ->
  Bot.timer_runs key'
    (let b := Bot._cancel_timer b key in
     let '(b, task) := Bot._create_repeating_task time_ms b command task_type in
     let '(b, _) := Bot.add_task b task None in
     Bot.start_timer b key).
Proof.
  intros Ht Hne Hr. cbv zeta.
  destruct (cancel_timer_tracked b key Ht) as [Ht1 _].
  pose proof (cancel_timer_keeps b key key' Ht Hne Hr) as Hr1.
  set (b1 := Bot._cancel_timer b key) in *.
  pose proof (create_repeating_task_timers b1 command task_type) as Hs2.
  destruct (Bot._create_repeating_task time_ms b1 command task_type) as [b2 task].
  pose proof (add_task_none_timers b2 task) as Hs3.
  destruct (Bot.add_task b2 task None) as [b3 ok]. simpl in *.
  pose proof (same_timers_trans _ _ _ Hs2 Hs3) as Hs.
  apply start_timer_keeps; [by eapply same_timers_tracked|done|].
  by eapply same_timers_runs.
Qed.

Lemma update_state_changes b new_state :
  Bot._current_state b <> Some new_state ->
  exists ps b',
    PlayerState.of_value (BotState.value new_state) = Some ps
    /\ Bot.update_state b new_state = (b', false)
    /\ Bot.player b' = Player.set_state (Bot.player b) ps
    /\ Bot._current_state b' = Some new_state
    /\ Bot.emits b' = Bot.emits b ++ [new_state]
    /\ Bot.same_timers b b' /\ Bot.same_events b b'
    /\ Bot.task_manager b' = Bot.task_manager b /\ Bot.heap b' = Bot.heap b
    /\ Bot.next_ref b' = Bot.next_ref b /\ Bot.clock b' = Bot.clock b
    /\ Bot.manager_log b' = Bot.manager_log b
    /\ Bot.profession b' = Bot.profession b.
Proof.
  intros Hne. destruct (PlayerState_of_BotState_value new_state) as (ps & E & _).
  exists ps. unfold Bot.update_state. cbv zeta.
  rewrite decide_True by done. rewrite E. eexists. by repeat split.
Qed.


Lemma terminal_handler state b :
  state ∈ [BotState.DEFEATED; BotState.BANNED; BotState.STOPPED] ->
  EventManager.body (Bot.listener time_ms (Bot.handler_of state)) b
  = (Bot._cancel_all_timers (Bot.set_player b (Player.reset (Bot.player b))),
     false).
Proof. intros Hs. destruct state; try done; set_solver. Qed.

(** X20. When the controller, with no emission pending, is told of a new
    state [DEFEATED], [BANNED] or [STOPPED] by [update_state] and the
    emission it scheduled has run: the player counts as stopped, no timer
    is registered or sleeps, the player's messages, captcha image and sell
    counter are reset and its user data kept. The task queue is not
    cleared. *)
Theorem terminal_state_stops_the_bot (os : list Bot.Op) (player : Player.t)
    (profession : string) (task_gap task_bias retry_count : Z)
    (state : BotState.t) :
  let b := Bot.ops time_ms os
             (Bot.init player profession task_gap task_bias retry_count) in
  state ∈ [BotState.DEFEATED; BotState.BANNED; BotState.STOPPED] ->
  Bot.emits b = [] -> Bot._current_state b <> Some state ->
  let b' := Bot.ops time_ms [Bot.UpdateState state; Bot.RunEmit] b in
  Player.is_stopped (Bot.player b') = true
  /\ Bot._timers b' = ∅ /\ Bot.sleeping b' = ∅
  /\ Player.battle_msg (Bot.player b') = None
  /\ Player.prof_msg (Bot.player b') = None
  /\ Player.verify_img (Bot.player b') = None
  /\ Player.sell (Bot.player b') = 0
  /\ Player.user_data (Bot.player b') = Player.user_data (Bot.player b)
  /\ Bot._current_state b' = Some state /\ Bot.emits b' = []
  /\ Bot.task_manager b' = Bot.task_manager b.
Proof.
  intros b Hstate Hemits Hne b'.
  assert (Bot.sound b) as (Ht & Hw & _) by apply sound_ops, sound_init.
  destruct (update_state_changes b state Hne)
    as (ps & b1 & Eps & Eu & Ep & Ec & Ee & Hst & Hse & Etm & Eh & _).
  assert (b' = Bot.emit time_ms (Bot.set_emits b1 []) state) as ->.
  { subst b'. simpl. rewrite Eu. cbn [fst]. unfold Bot.run_emit.
    by rewrite Ee, Hemits. }
  set (b2 := Bot.set_emits b1 []).
  assert (Bot.wired b2) as Hw2 by (by eapply (wired_same_events b); [|done]).
  rewrite emit_wired by done. rewrite terminal_handler by done. cbn [fst].
  set (b3 := Bot.set_player b2 (Player.reset (Bot.player b2))).
  assert (Bot.timers_tracked b3) as Ht3
    by (by eapply (same_timers_tracked b); [|done]).
  destruct (cancel_all_timers_spec b3 Ht3) as (E1 & E2 & _).
  cbn [Bot.player Bot._timers Bot.sleeping Bot._current_state Bot.emits
       Bot.task_manager Bot.set_event_manager].
  rewrite E1, E2. cbn. rewrite Ep, Ec, Etm. cbn.
  split; [|by repeat split].
  unfold Player.is_stopped. cbn. apply bool_decide_eq_true.
  destruct state; try set_solver; vm_compute in Eps; injection Eps as <-;
    set_solver.
Qed.


(** What a recursion offers to the queue. *)
Lemma recursion_offers b key command task_type :
  let b' :=
    (let b := Bot._cancel_timer b key in
     let '(b, task) := Bot._create_repeating_task time_ms b command task_type in
     let '(b, _) := Bot.add_task b task None in
     Bot.start_timer b key) in
  Bot.heap b' (Bot.next_ref b)
  = Task_new (Bot.next_ref b)
         (Float.add (time_ms (Bot.clock b)) (Float.of_Z 180000))
         command
      task_type (get_default_rank task_type) 0
  /\ (forall x, x <> Bot.next_ref b -> Bot.heap b' x = Bot.heap b x)
  /\ Bot.next_ref b' = S (Bot.next_ref b) /\ Bot.clock b' = S (Bot.clock b)
  /\ (exists tr, Bot.manager_log b'
                 = Bot.manager_log b
                   ++ Log INFO (TryAddTask (Bot.next_ref b)) :: tr)
  /\ Bot.profession b' = Bot.profession b.
Proof.
  cbv zeta.
  assert (Bot.heap (Bot._cancel_timer b key) = Bot.heap b
          /\ Bot.next_ref (Bot._cancel_timer b key) = Bot.next_ref b
          /\ Bot.clock (Bot._cancel_timer b key) = Bot.clock b
          /\ Bot.manager_log (Bot._cancel_timer b key) = Bot.manager_log b
          /\ Bot.profession (Bot._cancel_timer b key) = Bot.profession b)
    as (E1 & E2 & E3 & E4 & E5)
    by (unfold Bot._cancel_timer; by destruct (Bot._timers b !! key)).
  set (b1 := Bot._cancel_timer b key) in *.
  unfold Bot._create_repeating_task, Bot.new_task, Bot.add_task.
  set (b2 := Bot.set_heap _ _).
  destruct (add_task_cases (Bot.heap b2) (Bot.task_manager b2)
              (Bot.next_ref (Bot.tick b1))) as [E|(m' & E & _)];
    rewrite E; cbn; rewrite E1, E2, E3, E4, E5;
    (split; [by rewrite store_eq|]);
    (split; [intros x Hx; by rewrite store_ne|]);
    (split; [done|]); (split; [done|]); (split; [by eexists|done]).
Qed.


(** What [_on_init] leaves when the state is not yet [RUNNING]. *)
Lemma on_init_spec b :
  Bot.timers_tracked b -> Bot._current_state b <> Some BotState.RUNNING ->
  let b' := (Bot._on_init time_ms b).1 in
  Bot._current_state b' = Some BotState.RUNNING
  /\ Player.state (Bot.player b') = PlayerState.RUNNING
  /\ Bot.emits b' = Bot.emits b ++ [BotState.RUNNING]
  /\ Bot.timers_tracked b' /\ Bot.same_events b b'
  /\ Bot.timer_runs "map" b'
  /\ (Bot.profession b <> "none"%string -> Bot.timer_runs "prof" b')
  /\ Bot.heap b' (Bot.next_ref b)
     = Task_new (Bot.next_ref b)
         (Float.add (time_ms (Bot.clock b)) (Float.of_Z 180000))
         "$map" NBW
         4 0
  /\ Log INFO (TryAddTask (Bot.next_ref b)) ∈ Bot.manager_log b'.
Proof.
  intros Ht Hne b'. subst b'. unfold Bot._on_init.
  destruct (update_state_changes b BotState.RUNNING Hne)
    as (ps & b1 & Eps & Eu & Ep & Ec & Ee & Hst & Hse & Etm & Eh & Er & Ek
        & El & Epr).
  rewrite Eu. cbn [fst]. vm_compute in Eps. injection Eps as <-.
  pose proof (same_timers_tracked _ _ Hst Ht) as Ht1.
  pose proof (map_recursion_tracked b1 Ht1) as Ht2.
  pose proof (recursion_control b1 "map" "$map" NBW) as Hc2.
  pose proof (recursion_events b1 "map" "$map" NBW) as He2.
  pose proof (recursion_runs b1 "map" "$map" NBW) as Hr2.
  pose proof (recursion_offers b1 "map" "$map" NBW)
    as (Hh2 & Hf2 & Hn2 & Hk2 & (tr2 & Hl2) & Hp2).
  change (let b := Bot._cancel_timer b1 "map" in
          let '(b, task) := Bot._create_repeating_task time_ms b "$map" NBW in
          let '(b, _) := Bot.add_task b task None in
          Bot.start_timer b "map") with (Bot._map_recursion time_ms b1) in *.
  set (b2 := Bot._map_recursion time_ms b1) in *.
  pose proof (prof_recursion_tracked b2 Ht2) as Ht3.
  pose proof (prof_recursion_control b2) as Hc3.
  pose proof (prof_recursion_events b2) as He3.
  destruct (same_control_trans _ _ _ Hc2 Hc3) as (Cp & Cc & Ce & _).
  rewrite Cp, Cc, Ce, Ep, Ec, Ee.
  do 3 (split; [done|]). split; [done|].
  split; [by eapply same_events_trans; [|eapply same_events_trans]|].
  rewrite <- Er, <- Ek.
  unfold Bot._prof_recursion in *.
  destruct (String.eqb_spec (Bot.profession b2) "none") as [En|En].
  - split; [done|]. split; [congruence|]. split; [done|].
    rewrite Hl2. apply elem_of_app. right. by left.
  - split; [apply recursion_keeps; done|].
    split; [intros _; apply recursion_runs|].
    pose proof (recursion_offers b2 "prof"
                  ("$" ++ Bot.profession (Bot._cancel_timer b2 "prof")) NPW)
      as (_ & Hf3 & _ & _ & (tr3 & Hl3) & _).
    cbv zeta in Hf3, Hl3. split.
    + rewrite Hf3 by (rewrite Hn2; lia). done.
    + rewrite Hl3, Hl2. apply elem_of_app. left. apply elem_of_app. right.
      by left.
Qed.

(** X21. When the controller, with no emission pending, is told of the
    state [INIT] and the two emissions that follow have run, it is in
    state [RUNNING] with the player, nothing is pending, the "map" timer
    sleeps (and the "prof" timer if a profession is configured), and a
    "$map" task of type [NBW], expiring 180 s after its creation, has been
    offered to the queue. *)
Theorem init_state_starts_the_bot (os : list Bot.Op) (player : Player.t)
    (profession : string) (task_gap task_bias retry_count : Z) :
  let b := Bot.ops time_ms os
             (Bot.init player profession task_gap task_bias retry_count) in
  Bot.emits b = [] -> Bot._current_state b <> Some BotState.INIT ->
  let b' := Bot.ops time_ms
              [Bot.UpdateState BotState.INIT; Bot.RunEmit; Bot.RunEmit] b in
  Bot._current_state b' = Some BotState.RUNNING
  /\ Player.state (Bot.player b') = PlayerState.RUNNING
  /\ Bot.emits b' = []
  /\ EventManager.current_state (Bot.event_manager b') = Some BotState.RUNNING
  /\ Bot.timer_runs "map" b'
  /\ (Bot.profession b <> "none"%string -> Bot.timer_runs "prof" b')
  /\ Bot.heap b' (Bot.next_ref b)
     = Task_new (Bot.next_ref b)
         (Float.add (time_ms (Bot.clock b)) (Float.of_Z 180000))
         "$map" NBW
         4 0
  /\ Log INFO (TryAddTask (Bot.next_ref b)) ∈ Bot.manager_log b'.
Proof.
  intros b Hemits Hne b'.
  assert (Bot.sound b) as (Ht & Hw & _) by apply sound_ops, sound_init.
  destruct (update_state_changes b BotState.INIT Hne)
    as (ps & b1 & Eps & Eu & Ep & Ec & Ee & Hst & Hse & Etm & Eh & Er & Ek
        & El & Epr).
  set (b2 := Bot.set_emits b1 []).
  assert (Bot.wired b2) as Hw2 by (by eapply (wired_same_events b); [|done]).
  assert (Bot.timers_tracked b2) as Ht2
    by (by eapply (same_timers_tracked b); [|done]).
  assert (Bot._current_state b2 <> Some BotState.RUNNING) as Hne2
    by (cbn; rewrite Ec; done).
  destruct (on_init_spec b2 Ht2 Hne2)
    as (Fc & Fp & Fe & Ft & Fev & Fm & Fpr & Fh & Fl).
  cbv zeta in *. set (b3 := (Bot._on_init time_ms b2).1) in *.
  set (b4 := Bot.set_event_manager b3
               (EventManager.set_current_state (Bot.event_manager b2)
                  BotState.INIT)
               [EventManager.LogEmitting BotState.INIT;
                EventManager.Called Bot.OnInit;
                EventManager.Awaited Bot.OnInit]).
  assert (Bot.ops time_ms [Bot.UpdateState BotState.INIT; Bot.RunEmit] b = b4)
    as E4.
  { simpl. rewrite Eu. cbn [fst]. unfold Bot.run_emit. rewrite Ee, Hemits.
    cbn [app]. fold b2. by rewrite emit_wired. }
  assert (Bot.wired b4) as Hw4.
  { intros s. cbn. apply Hw2. }
  assert (b' = Bot.emit time_ms (Bot.set_emits b4 []) BotState.RUNNING) as ->.
  { subst b'. change [Bot.UpdateState BotState.INIT; Bot.RunEmit; Bot.RunEmit]
      with ([Bot.UpdateState BotState.INIT; Bot.RunEmit] ++ [Bot.RunEmit]).
    unfold Bot.ops in *. rewrite fold_left_app, E4. simpl. unfold Bot.run_emit.
    cbn [Bot.emits Bot.set_event_manager b4]. by rewrite Fe. }
  rewrite emit_wired by done.
  cbn [EventManager.body Bot.listener Bot.handler_of].
  unfold Bot._on_running, b4. bot_fields. rewrite Fc, Fp. do 4 (split; [done|]).
  change (Bot.next_ref b2) with (Bot.next_ref b1) in *.
  change (Bot.clock b2) with (Bot.clock b1) in *.
  change (Bot.profession b2) with (Bot.profession b1) in *.
  rewrite Er, Ek, Epr in *. done.
Qed.


Lemma cancel_all_timers_control b :
  Bot.same_control b (Bot._cancel_all_timers b).
Proof. done. Qed.

(** The handlers other than [_on_init] leave the state of the player and
    of the controller, and schedule nothing. *)
Lemma handler_control state b :
  state <> BotState.INIT ->
  let b' := (EventManager.body (Bot.listener time_ms (Bot.handler_of state)) b).1 in
  Player.state (Bot.player b') = Player.state (Bot.player b)
  /\ Bot._current_state b' = Bot._current_state b
  /\ Bot.emits b' = Bot.emits b.
Proof.
  intros Hne. destruct state; try done.
  cbn [fst EventManager.body Bot.listener Bot.handler_of Bot._on_blocked].
  pose proof (recursion_control b "verify" "$verify" VERIFY) as H.
  change (Bot.same_control b (Bot._verify_recursion time_ms b)) in H.
  destruct H as (-> & -> & -> & _). done.
Qed.

(** X22. [_task_complete_callback] ignores a result that is not a dict or
    has no state. A state other than the current one (and other than
    [INIT]) is recorded and emitted inside the callback: its handler has
    run when the callback returns, no emission is scheduled, and, unlike
    [update_state], the state of the player is not changed. The same result
    a second time does nothing. *)
Theorem task_result_state_is_emitted_at_once (os : list Bot.Op)
    (player : Player.t) (profession : string)
    (task_gap task_bias retry_count : Z) (state : BotState.t) :
  let b := Bot.ops time_ms os
             (Bot.init player profession task_gap task_bias retry_count) in
  state <> BotState.INIT -> Bot._current_state b <> Some state ->
  let b' := Bot._task_complete_callback time_ms b (Bot.Dict (Some state)) in
  Bot._current_state b' = Some state
  /\ EventManager.current_state (Bot.event_manager b') = Some state
  /\ EventManager.calls (Bot.events_log b')
     = EventManager.calls (Bot.events_log b) ++ [Bot.handler_of state]
  /\ Player.state (Bot.player b') = Player.state (Bot.player b)
  /\ Bot.emits b' = Bot.emits b
  /\ Bot._task_complete_callback time_ms b' (Bot.Dict (Some state)) = b'
  /\ Bot._task_complete_callback time_ms b Bot.NotADict = b
  /\ Bot._task_complete_callback time_ms b (Bot.Dict None) = b.
Proof.
  intros b Hinit Hne b'.
  assert (Bot.sound b) as (Ht & Hw & _) by apply sound_ops, sound_init.
  assert (Bot._current_state b' = Some state
          /\ EventManager.current_state (Bot.event_manager b') = Some state
          /\ EventManager.calls (Bot.events_log b')
             = EventManager.calls (Bot.events_log b) ++ [Bot.handler_of state]
          /\ Player.state (Bot.player b') = Player.state (Bot.player b)
          /\ Bot.emits b' = Bot.emits b) as (H1 & H2 & H3 & H4 & H5).
  { subst b'. unfold Bot._task_complete_callback. rewrite decide_True by done.
    set (b1 := Bot.set_current_state b state).
    assert (Bot.wired b1) as Hw1 by (intros s; apply Hw).
    rewrite emit_wired by done.
    destruct (handler_control state b1 Hinit) as (Ep & Ec & Ee).
    destruct (handler_events (Bot.handler_of state) b1) as [_ El].
    cbv zeta in *. bot_fields. rewrite Ep, Ec, Ee, El. bot_fields.
    split; [done|]. split; [done|]. split; [|done].
    unfold EventManager.calls. by rewrite omap_app. }
  do 5 (split; [done|]). split; [|done].
  unfold Bot._task_complete_callback. rewrite decide_False; [done|].
  intros Hc. by apply Hc.
Qed.

(** [Bot.update_state] is [Controller.update_state] on the fields they share. *)
Lemma update_state_agrees b new_state :
  Controller.update_state (Bot.core b) new_state
  = Some (Bot.core (Bot.update_state b new_state).1,
          drop (length (Bot.effects b))
            (Bot.effects (Bot.update_state b new_state).1)).
Proof.
  unfold Controller.update_state, Bot.update_state. cbv zeta.
  change (Controller._current_state (Bot.core b)) with (Bot._current_state b).
  change (Bot._current_state (Bot.log b _)) with (Bot._current_state b).
  destruct (decide (Bot._current_state b ≠ Some new_state)) as [Hne|He].
  - destruct (PlayerState_of_BotState_value new_state) as (ps & -> & _).
    cbn. rewrite <- !app_assoc, drop_app_length. done.
  - cbn. by rewrite drop_app_length.
Qed.

End BotFacts.

Lemma add_task_restarts_the_timer_witness :
  let b := (Bot.add_task ex_bot 0%nat (Some "map"%string)).1 in
  "map"%string ∈ ["map"; "prof"; "verify"]%string
  /\ Bot._timers b !! "map"%string = Some 0%nat
  /\ Bot.sleeping b !! 0%nat = Some "map"%string.
Proof.
  intros b. assert ("map"%string ∈ ["map"; "prof"; "verify"]%string) as Hk
    by apply list_elem_of_here.
  split; [exact Hk|].
  destruct (add_task_restarts_the_timer ex_bot 0%nat "map" Hk)
    as (_ & _ & H1 & H2 & _).
  split; [exact H1|exact H2].
Defined.

Lemma terminal_state_stops_the_bot_witness :
  let b := Bot.ops ex_clock [Bot.UpdateState BotState.INIT; Bot.RunEmit;
                             Bot.RunEmit] ex_bot in
  let b' := Bot.ops ex_clock [Bot.UpdateState BotState.STOPPED; Bot.RunEmit] b in
  BotState.STOPPED ∈ [BotState.DEFEATED; BotState.BANNED; BotState.STOPPED]
  /\ Bot.emits b = [] /\ Bot._current_state b <> Some BotState.STOPPED
  /\ Player.is_stopped (Bot.player b') = true
  /\ Bot._timers b' = ∅ /\ Bot.sleeping b' = ∅.
Proof.
  intros b b'.
  assert (BotState.STOPPED
          ∈ [BotState.DEFEATED; BotState.BANNED; BotState.STOPPED]) as Hs
    by (do 2 apply list_elem_of_further; apply list_elem_of_here).
  assert (Bot.emits b = []) as He by reflexivity.
  assert (Bot._current_state b <> Some BotState.STOPPED) as Hc by discriminate.
  split; [exact Hs|]. split; [exact He|]. split; [exact Hc|].
  destruct (terminal_state_stops_the_bot ex_clock
              [Bot.UpdateState BotState.INIT; Bot.RunEmit; Bot.RunEmit]
              ex_player "fish" 2000 3000 2 BotState.STOPPED Hs He Hc)
    as (H1 & H2 & H3 & _).
  split; [exact H1|]. split; [exact H2|exact H3].
Defined.

Lemma init_state_starts_the_bot_witness :
  let b' := Bot.ops ex_clock [Bot.UpdateState BotState.INIT; Bot.RunEmit;
                              Bot.RunEmit] ex_bot in
  Bot.emits ex_bot = [] /\ Bot._current_state ex_bot <> Some BotState.INIT
  /\ Bot._current_state b' = Some BotState.RUNNING
  /\ Bot.timer_runs "map" b' /\ Bot.timer_runs "prof" b'.
Proof.
  intros b'.
  assert (Bot.emits ex_bot = []) as He by reflexivity.
  assert (Bot._current_state ex_bot <> Some BotState.INIT) as Hc by discriminate.
  split; [exact He|]. split; [exact Hc|].
  destruct (init_state_starts_the_bot ex_clock [] ex_player "fish" 2000 3000 2
              He Hc) as (H1 & _ & _ & _ & H5 & H6 & _).
  split; [exact H1|]. split; [exact H5|]. apply H6. discriminate.
Defined.

Lemma task_result_state_is_emitted_at_once_witness :
  let b' := Bot._task_complete_callback ex_clock ex_bot
              (Bot.Dict (Some BotState.BLOCKED)) in
  BotState.BLOCKED <> BotState.INIT
  /\ Bot._current_state ex_bot <> Some BotState.BLOCKED
  /\ Bot._current_state b' = Some BotState.BLOCKED
  /\ Player.state (Bot.player b') = PlayerState.STOPPED
  /\ Bot.emits b' = [].
Proof.
  intros b'.
  assert (BotState.BLOCKED <> BotState.INIT) as Hi by discriminate.
  assert (Bot._current_state ex_bot <> Some BotState.BLOCKED) as Hc
    by discriminate.
  split; [exact Hi|]. split; [exact Hc|].
  destruct (task_result_state_is_emitted_at_once ex_clock [] ex_player "fish"
              2000 3000 2 BotState.BLOCKED Hi Hc) as (H1 & _ & _ & H4 & H5 & _).
  split; [exact H1|]. split; [exact H4|exact H5].
Defined.

(** ** Configuration and user data *)

(** X23. [Config.from_json] yields a configuration exactly when the file
    holds truthy values for "token" and "channelId"; otherwise it raises
    [ValueError], naming "token" first. With only these two keys present,
    the configuration is the one the dataclass defaults give: the fallback
    values of [from_json] and the defaults of the fields agree. *)
Theorem from_json_requires_token_and_channel (data : list (string * Json)) :
  let token := dict_get_or data "token" JNull in
  let channel := dict_get_or data "channelId" JNull in
  ((exists c, Config.from_json (JDict data) = Config.Loaded_config c)
   <-> truthy token = true /\ truthy channel = true)
  /\ (truthy token = false ->
      Config.from_json (JDict data)
      = Config.ValueError "'token' is required in config.json")
  /\ (truthy token = true -> truthy channel = false ->
      Config.from_json (JDict data)
      = Config.ValueError "'channelId' is required in config.json")
  /\ (truthy token = true -> truthy channel = true ->
      Config.from_json (JDict [("token", token); ("channelId", channel)]%string)
      = Config.Loaded_config (Config.new token channel)).
Proof.
  intros token channel. unfold Config.from_json. fold token channel.
  split; [|split; [|split]].
  - destruct (truthy token), (truthy channel); simpl; split;
      try (intros [c Hc]; discriminate); try (intros [??]; discriminate);
      try done.
    intros _. by eexists.
  - by intros ->.
  - by intros -> ->.
  - intros Ht Hc. cbn. rewrite Ht, Hc. done.
Qed.

(** X24. [Config.from_json] reads back the dict [to_dict] writes exactly
    when the token and the channel id of the configuration are truthy
    (otherwise it raises [ValueError]). *)
Theorem config_round_trip (c : Config.t) :
  Config.from_json (JDict (Config.to_dict c)) = Config.Loaded_config c
  <-> truthy (Config.token c) = true /\ truthy (Config.channel_id c) = true.
Proof.
  destruct c as [tk ch pr cd tg tb rc th tgu ef cm se tu cc cmat].
  unfold Config.from_json, Config.to_dict. cbn.
  destruct (truthy tk), (truthy ch); simpl; split; try done;
    try (intros [??]; discriminate).
Qed.

(** X25. [UserData.load] reads back the dict [to_dict] writes, and what
    it has loaded is read back the same after a save. It is lenient only
    in part: it returns data for a missing file, an [OSError], a
    [JSONDecodeError] and for any JSON object, whatever its keys and the
    types of their values; for JSON that is not an object, and for any
    other exception of reading or parsing, it raises. *)
Theorem user_data_load_round_trip (u : Player.UserData) (file : File) :
  Player.UserData_load (Parsed (JDict (Player.UserData_to_dict u)))
  = Player.Data u
  /\ (Player.UserData_load file = Player.Data u ->
      Player.UserData_load (Parsed (JDict (Player.UserData_to_dict u)))
      = Player.UserData_load file)
  /\ ((exists u', Player.UserData_load file = Player.Data u')
      <-> (forall exc, file <> Fails exc)
          /\ forall v, file = Parsed v -> exists items, v = JDict items).
Proof.
  assert (Player.UserData_load (Parsed (JDict (Player.UserData_to_dict u)))
          = Player.Data u) as Hrt by (by destruct u).
  split; [done|]. split; [by intros ->|]. split.
  - intros [u' E]. split.
    + by intros exc ->.
    + intros v ->. destruct v; try done. by eexists.
  - intros [Hf Hp]. destruct file as [| | |exc|v]; try (by eexists).
    + by destruct (Hf exc).
    + destruct (Hp v eq_refl) as [items ->]. by eexists.
Qed.
